(** * libqueue: a bounded FIFO queue with overflow policies and payload hooks

    A shallow embedding of [libqueue/libqueue.c].  Every C function is a
    Rocq function of the same name.  A [struct queue *] or [struct item *]
    argument is an [option]: [None] is the NULL pointer.  The queue a
    function mutates in place is returned next to its result.

    The queue links its items through the [entry] member of each item and
    the [head] member of the queue, a circular doubly linked list.  The
    links are modelled as the code writes them, pointer by pointer, so that
    a call on a node that is already linked does what the code does.

    Calls that leave the library (CALLOC, memdup, free, the two hooks,
    printf, pthread_cond_signal) are recorded in a chronological trace; the
    values such calls return (the address CALLOC hands out, the handle an
    alloc hook produces, the code pthread_cond_timedwait returns) are
    arguments of the embedded function. *)

From Stdlib Require Import ZArith String.
From stdpp Require Import gmap list.

Local Open Scope Z_scope.

(** ** Machine data *)

(** Addresses (data pointers and function pointers alike); 0 is NULL. *)
Abbreviation ptr := Z.

Definition NULL : ptr := 0.

(** The largest and smallest value of a C [int]. *)
Definition INT_MAX : Z := 2147483647.
Definition INT_MIN : Z := -2147483648.

(** [++x] and [--x] on an [int]: signed overflow has no defined result. *)
Definition int_incr (x : Z) : option Z :=
  if x <? INT_MAX then Some (x + 1) else None.

Definition int_decr (x : Z) : option Z :=
  if INT_MIN <? x then Some (x - 1) else None.

(** Values of errno.h that [queue_pop] tells apart (Linux). *)
Definition EINTR : Z := 4.
Definition ETIMEDOUT : Z := 110.

(** ** Data model *)

(** [struct iovec] of sys/uio.h. *)
Record iovec : Type := Iovec { iov_base : ptr; iov_len : Z }.

(** Modelled from the spec: [struct item] is declared in libqueue.h, which
    is not part of the sources.  The code reads and writes two [struct
    iovec] members, [data] and [opaque], and links the node through its
    [entry] member.  [item_addr] is the address of the node itself (what
    CALLOC returned and what [free(item)] releases).  The links of [entry]
    are kept with the queue, see [entries] below. *)
Record item : Type := Item {
  item_addr : ptr;
  data : iovec;
  opaque : iovec
}.

(** Modelled from the spec: [enum queue_mode] of libqueue.h, the two
    overflow policies. *)
Inductive queue_mode : Type :=
| QUEUE_FULL_FLUSH
| QUEUE_FULL_RING.

(** A [struct list_head *] in the list of the queue: the address of the
    [head] member of the queue, the address of the [entry] member of an
    item, or an address that cannot be dereferenced (NULL, or the poison
    that some list headers store on deletion). *)
Inductive lptr : Type :=
| LHead
| LEntry (it : item)
| LNull.

(** Modelled from the spec: [struct list_head] of the kernel-style list
    header, which is not part of the sources. *)
Record list_head : Type := ListHead { next : lptr; prev : lptr }.

(** Modelled from the spec: [struct queue] of libqueue.h.  [head] is the
    member [q->head], the anchor of the list.  [entries] holds the [entry]
    member of the items, by item address; an item without a record has both
    links NULL, as CALLOC and [list_del] leave them.  The mutex [lock] and
    the condition variable [cond] carry no data. *)
Record queue : Type := MkQueue {
  queue_addr : ptr;
  head : list_head;
  entries : gmap Z list_head;
  depth : Z;
  max_depth : Z;
  mode : queue_mode;
  alloc_hook : ptr;
  free_hook : ptr
}.

Definition QUEUE_MAX_DEPTH : Z := 200.

Definition set_links (h : list_head) (es : gmap Z list_head) (q : queue)
  : queue :=
  MkQueue (queue_addr q) h es (depth q) (max_depth q) (mode q)
          (alloc_hook q) (free_hook q).

Definition set_depth (d : Z) (q : queue) : queue :=
  MkQueue (queue_addr q) (head q) (entries q) d (max_depth q) (mode q)
          (alloc_hook q) (free_hook q).

Definition set_max_depth (d : Z) (q : queue) : queue :=
  MkQueue (queue_addr q) (head q) (entries q) (depth q) d (mode q)
          (alloc_hook q) (free_hook q).

Definition set_mode (m : queue_mode) (q : queue) : queue :=
  MkQueue (queue_addr q) (head q) (entries q) (depth q) (max_depth q) m
          (alloc_hook q) (free_hook q).

Definition set_hooks (a f : ptr) (q : queue) : queue :=
  MkQueue (queue_addr q) (head q) (entries q) (depth q) (max_depth q)
          (mode q) a f.

(** ** The outside world *)

(** One call that leaves the library. *)
Inductive event : Type :=
| EvCalloc (ret : ptr)
| EvAllocHook (fn data : ptr) (len : Z) (ret : ptr)
| EvMemdup (data : ptr) (len : Z) (ret : ptr)
| EvFree (p : ptr)
| EvFreeHook (fn handle : ptr)
| EvCondSignal
| EvPrintf (fmt : string) (args : list Z).
(* [args] are the integer arguments of the printf; the [strerror(ret)]
   argument of the wait loop is recorded as [ret]. *)

(** [bufs] maps the address of a byte buffer to its contents; [trace]
    lists the calls made so far, oldest first. *)
Record world : Type := World {
  bufs : gmap Z (list Byte.byte);
  trace : list event
}.

Definition emit (e : event) (w : world) : world :=
  World (bufs w) (trace w ++ [e]).

(** [free(p)] of libc. *)
Definition libc_free (p : ptr) (w : world) : world :=
  World (delete p (bufs w)) (trace w ++ [EvFree p]).

(** Modelled from the spec: [memdup] comes from a header that is not part
    of the sources; it duplicates [len] bytes from [data] into a new owned
    buffer.  [ret] is the address of the new buffer, NULL when the
    allocation fails. *)
Definition memdup (data : ptr) (len : Z) (ret : ptr) (w : world)
  : ptr * world :=
  if ret =? NULL then (NULL, emit (EvMemdup data len NULL) w)
  else
    let bytes := take (Z.to_nat len) (default [] (bufs w !! data)) in
    (ret, World (<[ret := bytes]> (bufs w))
                (trace w ++ [EvMemdup data len ret])).

(** ** The list primitives

    Modelled from the spec: the primitives of the kernel-style list header,
    which is not part of the sources, write for write.  A read or a write
    through a pointer that cannot be dereferenced has no result. *)

Definition null_links : list_head := ListHead LNull LNull.

(** The links of the entry at [a]: an entry without a record has both
    links NULL. *)
Definition load (a : Z) (es : gmap Z list_head) : list_head :=
  default null_links (es !! a).

(** The entry at [a] gets the links [c]; an entry whose links are both
    NULL keeps no record. *)
Definition store (a : Z) (c : list_head) (es : gmap Z list_head)
  : gmap Z list_head :=
  match c with
  | ListHead LNull LNull => delete a es
  | _ => <[a := c]> es
  end.

(** [*p] and [*p = c]. *)
Definition get (p : lptr) (q : queue) : option list_head :=
  match p with
  | LHead => Some (head q)
  | LEntry it => Some (load (item_addr it) (entries q))
  | LNull => None
  end.

Definition put (p : lptr) (c : list_head) (q : queue) : option queue :=
  match p with
  | LHead => Some (set_links c (entries q) q)
  | LEntry it =>
      Some (set_links (head q) (store (item_addr it) c (entries q)) q)
  | LNull => None
  end.

(** [p->next = v] and [p->prev = v]. *)
Definition set_next (p v : lptr) (q : queue) : option queue :=
  c ← get p q; put p (ListHead v (prev c)) q.

Definition set_prev (p v : lptr) (q : queue) : option queue :=
  c ← get p q; put p (ListHead (next c) v) q.

(** INIT_LIST_HEAD: the anchor points to itself. *)
Definition INIT_LIST_HEAD : list_head := ListHead LHead LHead.

(** [list_empty(&q->head)]: [head->next == head]. *)
Definition list_empty (q : queue) : bool :=
  match next (head q) with
  | LHead => true
  | _ => false
  end.

(** [list_add_tail(&new->entry, &q->head)]: with [prev = head->prev] and
    [next = head], the four writes [next->prev = new], [new->next = next],
    [new->prev = prev], [prev->next = new]. *)
Definition list_add_tail (new : item) (q : queue) : option queue :=
  let p := prev (head q) in
  q ← set_prev LHead (LEntry new) q;
  q ← set_next (LEntry new) LHead q;
  q ← set_prev (LEntry new) p q;
  set_next p (LEntry new) q.

(** [list_del(entry)]: [next->prev = prev], [prev->next = next], then both
    links of the entry are invalidated. *)
Definition list_del (entry : lptr) (q : queue) : option queue :=
  c ← get entry q;
  q ← set_prev (next c) (prev c) q;
  q ← set_next (prev c) (next c) q;
  q ← set_next entry LNull q;
  set_prev entry LNull q.

(** [list_first_entry_or_null(&q->head, struct item, entry)]: NULL when
    the list is empty, else the item of [head->next]. *)
Definition list_first_entry_or_null (q : queue) : option (option item) :=
  match next (head q) with
  | LHead => Some None
  | LEntry it => Some (Some it)
  | LNull => None
  end.

(** ** Payload policy *)

(** [node] is what CALLOC returns for the item, [payload] what the alloc
    hook or memdup returns. *)
Definition item_alloc (q : option queue) (data : ptr) (len : Z)
    (node payload : ptr) (w : world) : option item * world :=
  match q with
  | None => (None, w)
  | Some q =>
      let w := emit (EvCalloc node) w in
      if node =? NULL then
        (None, emit (EvPrintf "malloc failed!\n" []) w)
      else if negb (alloc_hook q =? NULL) then
        (Some (Item node (Iovec NULL 0) (Iovec payload len)),
         emit (EvAllocHook (alloc_hook q) data len payload) w)
      else
        let '(base, w) := memdup data len payload w in
        (Some (Item node (Iovec base len) (Iovec NULL 0)), w)
  end.

(** The store [item->opaque.iov_len = 0] of the hook branch goes to the
    node that the last line frees. *)
Definition item_free (q : option queue) (it : option item) (w : world)
  : world :=
  match q with
  | None => w
  | Some q =>
      match it with
      | None => w
      | Some it =>
          let w :=
            if negb (free_hook q =? NULL) then
              emit (EvFreeHook (free_hook q) (iov_base (opaque it))) w
            else
              libc_free (iov_base (data it)) w in
          libc_free (item_addr it) w
      end
  end.

(** ** Configuration *)

Definition queue_set_mode (q : option queue) (m : queue_mode)
  : Z * option queue :=
  match q with
  | None => (-1, None)
  | Some q => (0, Some (set_mode m q))
  end.

Definition queue_set_hook (q : option queue) (alloc_cb free_cb : ptr)
  : Z * option queue :=
  match q with
  | None => (-1, None)
  | Some q => (0, Some (set_hooks alloc_cb free_cb q))
  end.

Definition queue_set_depth (q : option queue) (d : Z) : Z * option queue :=
  match q with
  | None => (-1, None)
  | Some q => (0, Some (set_max_depth d q))
  end.

(** [qmem] is what CALLOC returns for the queue. *)
Definition queue_create (qmem : ptr) (w : world) : option queue * world :=
  let w := emit (EvCalloc qmem) w in
  if qmem =? NULL then (None, emit (EvPrintf "malloc failed!\n" []) w)
  else
    (Some (MkQueue qmem INIT_LIST_HEAD ∅ 0 QUEUE_MAX_DEPTH QUEUE_FULL_FLUSH
                   NULL NULL), w).

(** ** Critical sections

    The regions of [queue_flush], [queue_push] and [queue_pop] that run
    between pthread_mutex_lock and pthread_mutex_unlock. *)

(** The list_for_each_entry_safe loop of [queue_flush]: [pos] is the
    current entry and [n] the one saved as its successor.  The loop ends at
    the anchor.  Every round frees its node, and a node that is reached
    again after that is used after its release.  [list_del] writes no
    pointer that was not in a link before, so the nodes that the loop can
    reach are those that the links name at the start; [fuel] is more than
    their number. *)
Fixpoint flush_entries (fuel : nat) (pos n : lptr) (q : queue) (w : world)
  : option (queue * world) :=
  match pos with
  | LHead => Some (q, w)
  | LNull => None
  | LEntry it =>
      match fuel with
      | O => None
      | S fuel =>
          q ← list_del (LEntry it) q;
          let w := item_free (Some q) (Some it) w in
          c ← get n q;
          flush_entries fuel n (next c) q w
      end
  end.

Definition flush_locked (q : queue) (w : world) : option (queue * world) :=
  c ← get (next (head q)) q;
  '(q, w) ← flush_entries (2 * size (entries q) + 3) (next (head q))
                          (next c) q w;
  Some (set_depth 0 q, emit EvCondSignal w).

Definition push_locked (it : item) (q : queue) (w : world)
  : option (queue * world) :=
  q ← list_add_tail it q;
  d ← int_incr (depth q);
  Some (set_depth d q, emit EvCondSignal w).

Definition pop_locked (q : queue) : option (option item * queue) :=
  r ← list_first_entry_or_null q;
  match r with
  | Some it =>
      q ← list_del (LEntry it) q;
      d ← int_decr (depth q);
      Some (Some it, set_depth d q)
  | None => Some (None, q)
  end.

(** ** Other threads

    While a consumer sleeps in pthread_cond_timedwait the mutex is
    released, and other threads run critical sections of their own. *)
Inductive critical : Type :=
| OtherInsert (it : item)
| OtherFlush
| OtherRemove.

Definition interfere1 (c : critical) (q : queue) (w : world)
  : option (queue * world) :=
  match c with
  | OtherInsert it => push_locked it q w
  | OtherFlush => flush_locked q w
  | OtherRemove => '(_, q) ← pop_locked q; Some (q, w)
  end.

Fixpoint interfere (cs : list critical) (q : queue) (w : world)
  : option (queue * world) :=
  match cs with
  | [] => Some (q, w)
  | c :: cs => '(q, w) ← interfere1 c q w; interfere cs q w
  end.

(** One call of pthread_cond_timedwait: what the other threads did while
    the caller slept, and the code the call returned. *)
Record wait_event : Type := WaitEvent {
  others : list critical;
  wait_ret : Z
}.

(** How a call that may sleep ends: it returns [a] and leaves the queue
    and the world behind; or it is still asleep in pthread_cond_timedwait
    after the last scheduled wait; or it has no defined behaviour (signed
    overflow of [depth], or a read or write through a pointer that cannot
    be dereferenced). *)
Inductive outcome (A : Type) : Type :=
| Returned (a : A) (q : option queue) (w : world)
| Blocked (q : queue) (w : world)
| Undefined.

Arguments Returned {A} a q w.
Arguments Blocked {A} q w.
Arguments Undefined {A}.

(** The printf of the switch after a wait that did not return 0. *)
Definition report_wait (ret : Z) (w : world) : world :=
  if ret =? ETIMEDOUT then w
  else if ret =? EINTR then
    emit (EvPrintf "pthread_cond_timedwait was interrupted by a signal.\n" [])
         w
  else emit (EvPrintf "pthread_cond_timedwait error:%s.\n" [ret]) w.

(** The while loop of [queue_pop]. *)
Fixpoint wait_nonempty (ws : list wait_event) (q : queue) (w : world)
  : outcome unit :=
  if list_empty q then
    match ws with
    | [] => Blocked q w
    | ev :: ws =>
        match interfere (others ev) q w with
        | None => Undefined
        | Some (q, w) =>
            if wait_ret ev =? 0 then Returned tt (Some q) w
            else wait_nonempty ws q (report_wait (wait_ret ev) w)
        end
    end
  else Returned tt (Some q) w.

(** ** Queue core *)

Definition queue_flush (q : option queue) (w : world) : outcome Z :=
  match q with
  | None => Returned (-1) None w
  | Some q =>
      match flush_locked q w with
      | Some (q, w) => Returned 0 (Some q) w
      | None => Undefined
      end
  end.

(** The queue is freed: no queue is left behind. *)
Definition queue_destroy (q : option queue) (w : world) : outcome unit :=
  match q with
  | None => Returned tt None w
  | Some q0 =>
      match queue_flush q w with
      | Returned _ _ w => Returned tt None (libc_free (queue_addr q0) w)
      | Blocked q w => Blocked q w
      | Undefined => Undefined
      end
  end.

Definition queue_pop (q : option queue) (ws : list wait_event) (w : world)
  : outcome (option item) :=
  match q with
  | None => Returned None None (emit (EvPrintf "invalid parament!\n" []) w)
  | Some q =>
      match wait_nonempty ws q w with
      | Returned _ (Some q) w =>
          match pop_locked q with
          | Some (it, q) => Returned it (Some q) w
          | None => Undefined
          end
      | Returned _ None _ => Undefined
      | Blocked q w => Blocked q w
      | Undefined => Undefined
      end
  end.

Definition queue_pop_free (q : option queue) (ws : list wait_event)
    (w : world) : outcome unit :=
  match queue_pop q ws w with
  | Returned tmp q w =>
      match tmp with
      | Some _ => Returned tt q (item_free q tmp w)
      | None => Returned tt q w
      end
  | Blocked q w => Blocked q w
  | Undefined => Undefined
  end.

Definition queue_push (q : option queue) (it : option item)
    (ws : list wait_event) (w : world) : outcome Z :=
  match q, it with
  | Some q0, Some it0 =>
      let full : outcome unit :=
        if depth q0 >=? max_depth q0 then
          match mode q0 with
          | QUEUE_FULL_FLUSH =>
              match queue_flush q w with
              | Returned _ q w => Returned tt q w
              | Blocked q w => Blocked q w
              | Undefined => Undefined
              end
          | QUEUE_FULL_RING => queue_pop_free q ws w
          end
        else Returned tt q w in
      match full with
      | Returned _ (Some q) w =>
          match push_locked it0 q w with
          | Some (q, w) =>
              let w :=
                if depth q >? max_depth q then
                  emit (EvPrintf "queue depth reach max depth %d\n"
                                 [depth q]) w
                else w in
              Returned 0 (Some q) w
          | None => Undefined
          end
      | Returned _ None _ => Undefined
      | Blocked q w => Blocked q w
      | Undefined => Undefined
      end
  | _, _ => Returned (-1) q (emit (EvPrintf "invalid paraments!\n" []) w)
  end.

(** [q->depth] is read without a NULL check. *)
Definition queue_get_depth (q : option queue) : option Z :=
  match q with
  | Some q => Some (depth q)
  | None => None
  end.

(** ** Call sequences

    A client thread that issues calls on one queue, one after the other. *)
Inductive op : Type :=
| OpSetMode (m : queue_mode)
| OpSetHook (alloc_cb free_cb : ptr)
| OpSetDepth (d : Z)
| OpPush (it : option item) (ws : list wait_event)
| OpPop (ws : list wait_event)
| OpPopFree (ws : list wait_event)
| OpFlush
| OpGetDepth.

Inductive result : Type :=
| RInt (z : Z)
| RItem (it : option item)
| RVoid.

Definition outcome_map {A B : Type} (f : A -> B) (o : outcome A)
  : outcome B :=
  match o with
  | Returned a q w => Returned (f a) q w
  | Blocked q w => Blocked q w
  | Undefined => Undefined
  end.

Definition exec (o : op) (q : option queue) (w : world) : outcome result :=
  match o with
  | OpSetMode m => let '(r, q) := queue_set_mode q m in Returned (RInt r) q w
  | OpSetHook a f =>
      let '(r, q) := queue_set_hook q a f in Returned (RInt r) q w
  | OpSetDepth d =>
      let '(r, q) := queue_set_depth q d in Returned (RInt r) q w
  | OpPush it ws => outcome_map RInt (queue_push q it ws w)
  | OpPop ws => outcome_map RItem (queue_pop q ws w)
  | OpPopFree ws => outcome_map (fun _ => RVoid) (queue_pop_free q ws w)
  | OpFlush => outcome_map RInt (queue_flush q w)
  | OpGetDepth =>
      match queue_get_depth q with
      | Some d => Returned (RInt d) q w
      | None => Undefined
      end
  end.

(** The results are listed in call order; a call that never returns ends
    the sequence. *)
Fixpoint run (ops : list op) (q : option queue) (w : world)
  : outcome (list result) :=
  match ops with
  | [] => Returned [] q w
  | o :: ops =>
      match exec o q w with
      | Returned r q w =>
          match run ops q w with
          | Returned rs q w => Returned (r :: rs) q w
          | Blocked q w => Blocked q w
          | Undefined => Undefined
          end
      | Blocked q w => Blocked q w
      | Undefined => Undefined
      end
  end.

(** The queue a call leaves behind, whether it returned or is asleep. *)
Definition final_queue {A : Type} (o : outcome A) : option queue :=
  match o with
  | Returned _ q _ => q
  | Blocked q _ => Some q
  | Undefined => None
  end.

(** The fields that configure a queue. *)
Definition config (q : queue) : queue_mode * Z * ptr * ptr :=
  (mode q, max_depth q, alloc_hook q, free_hook q).

(** ** The list that the links form

    The links of a sequence of items that are linked one after the other:
    the anchor points to the first and to the last item, every entry to its
    successor and its predecessor, the anchor standing at both ends. *)

Definition first_ptr (l : list item) : lptr :=
  match l with
  | [] => LHead
  | x :: _ => LEntry x
  end.

(** The last entry of [l], or [p] when [l] is empty. *)
Fixpoint lastp (p : lptr) (l : list item) : lptr :=
  match l with
  | [] => p
  | x :: l => lastp (LEntry x) l
  end.

(** The entries of [l], [p] standing before the first. *)
Fixpoint links_from (p : lptr) (l : list item) : gmap Z list_head :=
  match l with
  | [] => ∅
  | x :: l =>
      <[item_addr x := ListHead (first_ptr l) p]> (links_from (LEntry x) l)
  end.

Definition anchor_of (l : list item) : list_head :=
  ListHead (first_ptr l) (lastp LHead l).

(** The queue at [qaddr] that holds the items [l], oldest first. *)
Definition Queue (qaddr : ptr) (l : list item) (d m : Z) (md : queue_mode)
    (a f : ptr) : queue :=
  MkQueue qaddr (anchor_of l) (links_from LHead l) d m md a f.

(** [q] holds the items [l], oldest first: they are distinct nodes and the
    links of [q] are those of [l]. *)
Definition holds (q : queue) (l : list item) : Prop :=
  head q = anchor_of l
  /\ entries q = links_from LHead l
  /\ NoDup (map item_addr l).

(** [q] with the items [l] in place of its own. *)
Definition set_list (l : list item) (q : queue) : queue :=
  set_links (anchor_of l) (links_from LHead l) q.

(** Whether the node at the address of [it] is one of the nodes [l]. *)
Definition linked (it : item) (l : list item) : bool :=
  existsb (fun x => item_addr x =? item_addr it) l.

(** Whether the [entry] of [it] carries links: it does while the node is
    linked. *)
Definition recorded (it : item) (q : queue) : bool :=
  bool_decide (is_Some (entries q !! item_addr it)).

(** ** Auxiliary notions for the statements *)

(** [q] holds [l] and its depth counter agrees. *)
Definition sound (q : queue) (l : list item) : Prop :=
  holds q l /\ depth q = Z.of_nat (length l).

(** The calls by which [item_free] releases one item, given the free hook
    of the queue at that moment. *)
Definition release_events (fh : ptr) (it : item) : list event :=
  if negb (fh =? NULL) then
    [EvFreeHook fh (iov_base (opaque it)); EvFree (item_addr it)]
  else [EvFree (iov_base (data it)); EvFree (item_addr it)].

(** A wait that ends without a wake-up: a timeout, an interruption or an
    error, while no other thread touches the container. *)
Definition quiet (ev : wait_event) : Prop :=
  others ev = [] /\ wait_ret ev <> 0.

Definition inserts (c : critical) : bool :=
  match c with
  | OtherInsert _ => true
  | _ => false
  end.

(** A wait during which no other thread inserts. *)
Definition calm (ev : wait_event) : Prop :=
  Forall (fun c => inserts c = false) (others ev).

(** The warning that [queue_push] prints after an insertion that leaves
    the depth above the maximal depth. *)
Definition depth_warning (q : queue) : list event :=
  if depth q >? max_depth q then
    [EvPrintf "queue depth reach max depth %d\n" [depth q]]
  else [].

Definition is_printf (e : event) : bool :=
  match e with
  | EvPrintf _ _ => true
  | _ => false
  end.

(** The calls that release a payload or a node. *)
Definition is_release (e : event) : bool :=
  match e with
  | EvFree _ | EvFreeHook _ _ => true
  | _ => false
  end.

(** The last [n] elements of a list. *)
Definition lastn {A : Type} (n : nat) (l : list A) : list A :=
  drop (length l - n) l.

(** The addresses that [item_free] hands to [free] for one item. *)
Definition freed_by (fh : ptr) (it : item) : list Z :=
  if negb (fh =? NULL) then [item_addr it]
  else [iov_base (data it); item_addr it].

Definition push_op (p : item * list wait_event) : op :=
  OpPush (Some (fst p)) (snd p).

(** [P] holds of the queue that a call leaves behind. *)
Definition leaves {A : Type} (P : queue -> Prop) (o : outcome A) : Prop :=
  match final_queue o with
  | Some q => P q
  | None => True
  end.

(** Waits during which the caller is the only thread at work. *)
Definition alone (ws : list wait_event) : Prop :=
  Forall (fun ev => others ev = []) ws.

(** ** Nodes that are linked twice

    [list_add_tail] takes for granted that the node it is handed is not
    linked.  The following predicates follow a schedule, a wait loop, a call
    and a call sequence, and say that every node is free of links when it is
    handed over: the node of another thread at the moment of its insertion,
    the node of the caller when [queue_push] is called and again when the
    node is inserted, after the overflow policy had its turn. *)

Fixpoint unlinked_inserts (cs : list critical) (q : queue) (w : world)
  : Prop :=
  match cs with
  | [] => True
  | c :: cs =>
      match c with
      | OtherInsert it => recorded it q = false
      | _ => True
      end
      /\ match interfere1 c q w with
         | Some (q, w) => unlinked_inserts cs q w
         | None => True
         end
  end.

Fixpoint unlinked_waits (ws : list wait_event) (q : queue) (w : world)
  : Prop :=
  if list_empty q then
    match ws with
    | [] => True
    | ev :: ws =>
        unlinked_inserts (others ev) q w
        /\ match interfere (others ev) q w with
           | Some (q, w) =>
               if wait_ret ev =? 0 then True
               else unlinked_waits ws q (report_wait (wait_ret ev) w)
           | None => True
           end
    end
  else True.

Definition unlinked_call (o : op) (q : queue) (w : world) : Prop :=
  match o with
  | OpPush (Some it) ws =>
      recorded it q = false
      /\ (if depth q >=? max_depth q then
            match mode q with
            | QUEUE_FULL_FLUSH => True
            | QUEUE_FULL_RING =>
                unlinked_waits ws q w
                /\ match queue_pop_free (Some q) ws w with
                   | Returned _ (Some q1) _ => recorded it q1 = false
                   | _ => True
                   end
            end
          else True)
  | OpPop ws | OpPopFree ws => unlinked_waits ws q w
  | _ => True
  end.

Fixpoint unlinked_pushes (ops : list op) (q : option queue) (w : world)
  : Prop :=
  match ops with
  | [] => True
  | o :: ops =>
      match q with
      | Some q0 => unlinked_call o q0 w
      | None => True
      end
      /\ match exec o q w with
         | Returned _ q w => unlinked_pushes ops q w
         | _ => True
         end
  end.

(** The number of insertions that a schedule, a call and a call sequence
    can make, those of other threads included. *)
Definition insertions_of (cs : list critical) : nat :=
  length (List.filter inserts cs).

Definition insertions_during (ws : list wait_event) : nat :=
  insertions_of (flat_map others ws).

Definition insertions1 (o : op) : nat :=
  match o with
  | OpPush (Some _) ws => S (insertions_during ws)
  | OpPop ws | OpPopFree ws => insertions_during ws
  | _ => 0
  end.

Fixpoint insertions (ops : list op) : nat :=
  match ops with
  | [] => 0
  | o :: ops => insertions1 o + insertions ops
  end.

(** A call ends well within [n]: it returns or is still asleep, the queue
    it leaves behind holds as many items as its depth counter says, at most
    [n]; its behaviour is undefined only when [n] is beyond the range of
    [int]. *)
Definition ends_well {A : Type} (n : Z) (o : outcome A) : Prop :=
  match o with
  | Returned _ (Some q) _ | Blocked q _ =>
      (exists l, sound q l) /\ depth q <= n
  | Returned _ None _ => False
  | Undefined => INT_MAX < n
  end.

(** [q'] is [q] with other links. *)
Definition relinked (q q' : queue) : Prop :=
  exists h es, q' = set_links h es q.

(** [q'] is what removals and flushes can make of [q]. *)
Definition shrunk (q q' : queue) : Prop :=
  (exists l, sound q' l)
  /\ depth q' <= depth q
  /\ (forall it, recorded it q = false -> recorded it q' = false).

(** The counter is right and not above a maximal depth of at least 1. *)
Definition bounded (q : queue) : Prop :=
  (exists l, sound q l) /\ depth q <= max_depth q /\ 1 <= max_depth q.

(** A call ends within the bound [m]: it returns or is still asleep, and
    the queue it leaves behind is bounded by the maximal depth [m]. *)
Definition ends_bounded {A : Type} (m : Z) (o : outcome A) : Prop :=
  match o with
  | Returned _ (Some q) _ | Blocked q _ => bounded q /\ max_depth q = m
  | _ => False
  end.

(** A call that does not set the maximal depth and during whose waits the
    caller is the only thread at work. *)
Definition steady (o : op) : Prop :=
  match o with
  | OpSetDepth _ => False
  | OpPush _ ws | OpPop ws | OpPopFree ws => alone ws
  | _ => True
  end.

(** A call that does not replace the hooks and during whose waits the
    caller is the only thread at work. *)
Definition solo (o : op) : Prop :=
  match o with
  | OpSetHook _ _ => False
  | OpPush _ ws | OpPop ws | OpPopFree ws => alone ws
  | _ => True
  end.

(** One call accounts for the items: those held before ([l]) and those
    handed over ([ins]) are those returned ([del]), those released ([rel])
    and those held afterwards ([l1]); the release calls in the trace are
    those of [rel], by the free hook [fh]. *)
Definition accounts (l : list item) (fh : ptr) (w : world)
    (ins del l1 : list item) (w1 : world) : Prop :=
  exists rel evs,
    l ++ ins = del ++ rel ++ l1
    /\ (del = [] \/ rel = [])
    /\ trace w1 = trace w ++ evs
    /\ List.filter is_release evs = flat_map (release_events fh) rel.

(** What the waits of a schedule print when none of them is a wake-up. *)
Definition reports (ws : list wait_event) (w : world) : world :=
  fold_left (fun w ev => report_wait (wait_ret ev) w) ws w.

(** The items that the pushes of a call sequence hand over, and the items
    that its pops return, in call order. *)
Fixpoint pushed (ops : list op) : list item :=
  match ops with
  | [] => []
  | OpPush (Some it) _ :: ops => it :: pushed ops
  | _ :: ops => pushed ops
  end.

Fixpoint delivered (rs : list result) : list item :=
  match rs with
  | [] => []
  | RItem (Some it) :: rs => it :: delivered rs
  | _ :: rs => delivered rs
  end.

(** [c] is an interleaving of [a] and [b] that keeps the order of each. *)
Inductive interleaved {A : Type} : list A -> list A -> list A -> Prop :=
| interleaved_nil : interleaved [] [] []
| interleaved_left x a b c :
    interleaved a b c -> interleaved (x :: a) b (x :: c)
| interleaved_right x a b c :
    interleaved a b c -> interleaved a (x :: b) (x :: c).

(** ** Sample data for the concrete scenarios *)

Definition empty_world : world := World ∅ [].

(** A caller buffer of five bytes at address 50. *)
Definition caller_world : world :=
  World {[ 50 := [Byte.x61; Byte.x62; Byte.x63; Byte.x64; Byte.x65] ]} [].

Definition item_A : item := Item 100 (Iovec 1000 4) (Iovec NULL 0).
Definition item_B : item := Item 200 (Iovec 2000 4) (Iovec NULL 0).
Definition item_C : item := Item 300 (Iovec 3000 4) (Iovec NULL 0).

(** A queue as [queue_create] leaves it, at address 10. *)
Definition fresh_queue : queue :=
  Queue 10 [] 0 QUEUE_MAX_DEPTH QUEUE_FULL_FLUSH NULL NULL.

(** [n] items at the addresses 1000, 1001, ... *)
Definition many_items (n : nat) : list (item * list wait_event) :=
  map (fun k => (Item (Z.of_nat k + 1000) (Iovec NULL 0) (Iovec NULL 0), []))
      (seq 0 n).

(** A wait that ends by the one second timeout; a wait that returns 0
    although nothing was inserted; a wait woken by the signal of another
    thread's flush. *)
Definition timeout_wait : wait_event := WaitEvent [] ETIMEDOUT.
Definition empty_wakeup : wait_event := WaitEvent [] 0.
Definition flush_wakeup : wait_event := WaitEvent [OtherFlush] 0.

(** ** Facts about the links *)

Lemma lastp_snoc (p : lptr) (l : list item) (x : item) :
  lastp p (l ++ [x]) = LEntry x.
Proof. revert p. induction l as [|y l IH]; intros p; simpl; auto. Qed.

Lemma first_ptr_snoc (l : list item) (y x : item) :
  first_ptr (l ++ [y; x]) = first_ptr (l ++ [y]).
Proof. now destruct l. Qed.

Lemma links_fresh (l : list item) :
  forall p a, a ∉ map item_addr l -> links_from p l !! a = None.
Proof.
  induction l as [|x l IH]; intros p a Ha; simpl; [apply lookup_empty|].
  simpl in Ha. apply not_elem_of_cons in Ha as [Hne Ha].
  rewrite lookup_insert_ne by congruence. now apply IH.
Qed.

Lemma size_links_from (l : list item) :
  forall p, NoDup (map item_addr l) -> size (links_from p l) = length l.
Proof.
  induction l as [|x l IH]; intros p Hnd; simpl; [apply map_size_empty|].
  simpl in Hnd. apply NoDup_cons in Hnd as [Hx Hnd].
  rewrite map_size_insert_None by now apply links_fresh.
  now rewrite IH.
Qed.

Lemma store_insert (a : Z) (c : list_head) (es : gmap Z list_head) :
  next c = LHead \/ prev c = LHead \/ (exists x, next c = LEntry x)
  \/ (exists x, prev c = LEntry x) ->
  store a c es = <[a := c]> es.
Proof.
  destruct c as [[| |] [| |]]; simpl; auto.
  intros [H|[H|[[x H]|[x H]]]]; discriminate.
Qed.

Lemma load_insert (a : Z) (c : list_head) (es : gmap Z list_head) :
  load a (<[a := c]> es) = c.
Proof. unfold load. now rewrite lookup_insert_eq. Qed.

Lemma load_insert_ne (a b : Z) (c : list_head) (es : gmap Z list_head) :
  a <> b -> load b (<[a := c]> es) = load b es.
Proof. intros Hne. unfold load. now rewrite lookup_insert_ne. Qed.

Lemma load_fresh (l : list item) (p : lptr) (a : Z) :
  a ∉ map item_addr l -> load a (links_from p l) = null_links.
Proof. intros Ha. unfold load. now rewrite links_fresh. Qed.

Lemma load_last (l : list item) :
  forall p x,
    NoDup (map item_addr (l ++ [x])) ->
    load (item_addr x) (links_from p (l ++ [x]))
    = ListHead LHead (lastp p l).
Proof.
  induction l as [|y l IH]; intros p x Hnd; simpl.
  - apply load_insert.
  - simpl in Hnd. apply NoDup_cons in Hnd as [Hy Hnd].
    rewrite load_insert_ne; [now apply IH|].
    intros Heq. apply Hy. rewrite map_app, Heq. apply elem_of_app.
    right. left.
Qed.

Lemma links_snoc (l : list item) :
  forall p y x,
    NoDup (map item_addr (l ++ [y; x])) ->
    <[item_addr y := ListHead (LEntry x) (lastp p l)]>
      (<[item_addr x := ListHead LHead (LEntry y)]>
         (links_from p (l ++ [y])))
    = links_from p (l ++ [y; x]).
Proof.
  induction l as [|z l IH]; intros p y x Hnd; simpl in *.
  - apply NoDup_cons in Hnd as [Hy _].
    assert (item_addr y <> item_addr x) as Hne
      by (intros Heq; apply Hy; rewrite Heq; left).
    rewrite (insert_insert_ne _ (item_addr x)) by congruence.
    now rewrite insert_insert_eq.
  - apply NoDup_cons in Hnd as [Hz Hnd].
    assert (item_addr z <> item_addr y /\ item_addr z <> item_addr x)
      as [Hzy Hzx].
    { split; intros Heq; apply Hz; rewrite map_app, Heq; apply elem_of_app;
        right; [left|right; left]. }
    rewrite (insert_insert_ne _ (item_addr x) (item_addr z)) by congruence.
    rewrite (insert_insert_ne _ (item_addr y) (item_addr z)) by congruence.
    rewrite IH by exact Hnd. now rewrite first_ptr_snoc.
Qed.

Lemma holds_set_list (l : list item) (q : queue) :
  NoDup (map item_addr l) -> holds (set_list l q) l.
Proof. intros Hnd. now repeat split. Qed.

Lemma set_list_holds (q : queue) (l : list item) :
  holds q l -> set_list l q = q.
Proof. intros (Hh & He & _). destruct q. simpl in *. now subst. Qed.

Lemma list_add_tail_holds (q : queue) (l : list item) (it : item) :
  holds q l ->
  item_addr it ∉ map item_addr l ->
  list_add_tail it q = Some (set_list (l ++ [it]) q).
Proof.
  intros (Hh & He & Hnd) Hfresh.
  assert (NoDup (map item_addr (l ++ [it]))) as Hnd'.
  { rewrite map_app. apply NoDup_app. split; [exact Hnd|].
    split; [|apply NoDup_singleton].
    intros a Ha Hin. apply list_elem_of_singleton in Hin. now subst. }
  destruct q as [qa h es d m md ah fh]. simpl in Hh, He. subst h es.
  unfold list_add_tail, set_prev, set_next, get, put, set_list, set_links.
  simpl. rewrite (load_fresh l LHead _ Hfresh). simpl.
  rewrite load_insert. simpl. rewrite insert_insert_eq.
  destruct l as [|z l0] using rev_ind.
  - simpl. reflexivity.
  - clear IHl0. rewrite lastp_snoc. simpl.
    assert (item_addr z <> item_addr it) as Hne.
    { intros Heq. apply Hfresh. rewrite map_app, <- Heq.
      apply elem_of_app. right. left. }
    rewrite load_insert_ne by congruence.
    rewrite (load_last l0 LHead z Hnd). simpl.
    rewrite <- app_assoc in Hnd'. simpl in Hnd'.
    rewrite (links_snoc l0 LHead z it Hnd').
    unfold anchor_of. rewrite lastp_snoc.
    assert (first_ptr ((l0 ++ [z]) ++ [it]) = first_ptr (l0 ++ [z])) as ->
      by now destruct l0.
    now rewrite <- app_assoc.
Qed.

Lemma store_null (a : Z) (es : gmap Z list_head) :
  store a null_links es = delete a es.
Proof. reflexivity. Qed.

Lemma store_prev_head (a : Z) (n : lptr) (es : gmap Z list_head) :
  store a (ListHead n LHead) es = <[a := ListHead n LHead]> es.
Proof. apply store_insert. simpl. auto. Qed.

Lemma store_next_head (a : Z) (p : lptr) (es : gmap Z list_head) :
  store a (ListHead LHead p) es = <[a := ListHead LHead p]> es.
Proof. apply store_insert. simpl. auto. Qed.

Lemma store_prev_entry (a : Z) (n : lptr) (x : item)
    (es : gmap Z list_head) :
  store a (ListHead n (LEntry x)) es = <[a := ListHead n (LEntry x)]> es.
Proof. apply store_insert. simpl. eauto 6. Qed.

Lemma store_next_entry (a : Z) (p : lptr) (x : item)
    (es : gmap Z list_head) :
  store a (ListHead (LEntry x) p) es = <[a := ListHead (LEntry x) p]> es.
Proof. apply store_insert. simpl. eauto 6. Qed.

(** One step of symbolic evaluation of the links. *)
Ltac links_step :=
  first [ rewrite load_insert
        | rewrite load_insert_ne by congruence
        | rewrite store_null
        | rewrite store_prev_head
        | rewrite store_next_head
        | rewrite store_prev_entry
        | rewrite store_next_entry
        | progress cbn -[store] ].

Lemma list_del_first_holds (q : queue) (x : item) (l : list item) :
  holds q (x :: l) ->
  list_del (LEntry x) q = Some (set_list l q).
Proof.
  intros (Hh & He & Hnd).
  simpl in Hnd. apply NoDup_cons in Hnd as [Hx Hnd].
  destruct q as [qa h es d m md ah fh]. simpl in Hh, He. subst h es.
  unfold list_del, set_prev, set_next, get, put, set_list, set_links.
  destruct l as [|y l].
  - repeat links_step.
    rewrite insert_insert_eq, delete_insert_eq, delete_empty.
    reflexivity.
  - simpl in Hx. apply not_elem_of_cons in Hx as [Hxy Hx].
    repeat links_step.
    rewrite delete_insert_eq, delete_insert_ne by congruence.
    rewrite delete_insert_eq, delete_insert_ne by congruence.
    rewrite (delete_id (links_from (LEntry y) l))
      by (apply links_fresh; exact Hx).
    now rewrite insert_insert_eq.
Qed.

Lemma list_empty_holds (q : queue) (l : list item) :
  holds q l ->
  list_empty q = match l with [] => true | _ => false end.
Proof.
  intros (Hh & _ & _). unfold list_empty. rewrite Hh. now destruct l.
Qed.

Lemma first_entry_holds (q : queue) (l : list item) :
  holds q l ->
  list_first_entry_or_null q
  = Some match l with [] => None | x :: _ => Some x end.
Proof.
  intros (Hh & _ & _). unfold list_first_entry_or_null. rewrite Hh.
  now destruct l.
Qed.

Lemma get_first_holds (q : queue) (l : list item) :
  holds q l ->
  exists c, get (first_ptr l) q = Some c /\ next c = first_ptr (tail l).
Proof.
  intros (Hh & He & _). destruct l as [|x l]; simpl.
  - exists (head q). split; [reflexivity|]. now rewrite Hh.
  - eexists. split; [reflexivity|]. rewrite He. simpl.
    now rewrite load_insert.
Qed.

Lemma holds_empty (q : queue) (l : list item) :
  holds q l -> list_empty q = true -> l = [].
Proof.
  intros Hq He. rewrite (list_empty_holds q l Hq) in He.
  now destruct l.
Qed.

Lemma holds_inj (q : queue) (l l' : list item) :
  holds q l -> holds q l' -> l = l'.
Proof.
  revert q l'. induction l as [|x l IH]; intros q l' Hl Hl'.
  - symmetry. apply (holds_empty q l' Hl').
    now rewrite (list_empty_holds q [] Hl).
  - destruct l' as [|y l'].
    + pose proof (list_empty_holds q _ Hl) as H1.
      pose proof (list_empty_holds q _ Hl') as H2. congruence.
    + pose proof (first_entry_holds q _ Hl) as H1.
      pose proof (first_entry_holds q _ Hl') as H2.
      rewrite H1 in H2. injection H2 as <-. f_equal.
      pose proof (list_del_first_holds q x l Hl) as D1.
      pose proof (list_del_first_holds q x l' Hl') as D2.
      destruct Hl as (_ & _ & Hnd). destruct Hl' as (_ & _ & Hnd').
      simpl in Hnd, Hnd'. apply NoDup_cons in Hnd as [_ Hnd].
      apply NoDup_cons in Hnd' as [_ Hnd'].
      apply (IH (set_list l q)); [now apply holds_set_list|].
      assert (set_list l q = set_list l' q) as -> by congruence.
      now apply holds_set_list.
Qed.

Lemma linked_spec (it : item) (l : list item) :
  linked it l = true <-> item_addr it ∈ map item_addr l.
Proof.
  unfold linked. induction l as [|x l IH]; simpl.
  - split; [discriminate|]. intros H. now apply elem_of_nil in H.
  - rewrite orb_true_iff, IH, elem_of_cons, Z.eqb_eq.
    split; intros [H|H]; auto.
Qed.

Lemma linked_false (it : item) (l : list item) :
  item_addr it ∉ map item_addr l <-> linked it l = false.
Proof.
  rewrite <- linked_spec. now destruct (linked it l).
Qed.

Lemma links_recorded (l : list item) :
  forall p a, a ∈ map item_addr l -> is_Some (links_from p l !! a).
Proof.
  induction l as [|x l IH]; intros p a Ha; simpl in *.
  - now apply elem_of_nil in Ha.
  - destruct (decide (a = item_addr x)) as [->|Hne].
    + rewrite lookup_insert_eq. eauto.
    + rewrite lookup_insert_ne by congruence. apply IH.
      apply elem_of_cons in Ha as [Ha|Ha]; [congruence|exact Ha].
Qed.

Lemma recorded_holds (q : queue) (l : list item) (it : item) :
  holds q l -> recorded it q = linked it l.
Proof.
  intros (_ & He & _). unfold recorded. rewrite He.
  destruct (linked it l) eqn:Hl.
  - apply bool_decide_eq_true. now apply links_recorded, linked_spec.
  - apply bool_decide_eq_false. apply linked_false in Hl.
    rewrite links_fresh by exact Hl. now intros [x Hx].
Qed.

Lemma holds_snoc (q : queue) (l : list item) (it : item) :
  holds q l -> item_addr it ∉ map item_addr l ->
  NoDup (map item_addr (l ++ [it])).
Proof.
  intros (_ & _ & Hnd) Hfresh.
  rewrite map_app. apply NoDup_app. split; [exact Hnd|].
  split; [|apply NoDup_singleton].
  intros a Ha Hin. apply list_elem_of_singleton in Hin. now subst.
Qed.

(** ** Basic facts *)

Lemma trace_emit (e : event) (w : world) :
  trace (emit e w) = trace w ++ [e].
Proof. reflexivity. Qed.

Lemma item_free_trace (q : queue) (it : item) (w : world) :
  trace (item_free (Some q) (Some it) w)
  = trace w ++ release_events (free_hook q) it.
Proof.
  unfold item_free, release_events.
  destruct (negb (free_hook q =? NULL)); simpl; now rewrite <- app_assoc.
Qed.

Lemma item_free_bufs (q : queue) (it : item) (w : world) (p : Z) :
  (p ∈ freed_by (free_hook q) it ->
   bufs (item_free (Some q) (Some it) w) !! p = None)
  /\ (p ∉ freed_by (free_hook q) it ->
      bufs (item_free (Some q) (Some it) w) !! p = bufs w !! p).
Proof.
  unfold item_free, freed_by.
  destruct (negb (free_hook q =? NULL)); simpl; split; intros Hp.
  - apply list_elem_of_singleton in Hp as ->. apply lookup_delete_eq.
  - rewrite lookup_delete_ne; [reflexivity|].
    intros <-. apply Hp. left.
  - rewrite !lookup_delete. repeat case_decide; try reflexivity.
    exfalso. apply elem_of_cons in Hp as [Hp|Hp]; [congruence|].
    apply list_elem_of_singleton in Hp. congruence.
  - rewrite !lookup_delete. repeat case_decide; try reflexivity;
      exfalso; apply Hp; subst; [right; left|left].
Qed.

(** The fields that the list primitives leave alone. *)
Lemma relinked_refl (q : queue) : relinked q q.
Proof. exists (head q), (entries q). now destruct q. Qed.

Lemma relinked_trans (q1 q2 q3 : queue) :
  relinked q1 q2 -> relinked q2 q3 -> relinked q1 q3.
Proof. intros (h & es & ->) (h' & es' & ->). now exists h', es'. Qed.

Lemma put_relinked (p : lptr) (c : list_head) (q q' : queue) :
  put p c q = Some q' -> relinked q q'.
Proof.
  destruct p; simpl; intros [= <-]; eexists _, _; reflexivity.
Qed.

Lemma set_next_relinked (p v : lptr) (q q' : queue) :
  set_next p v q = Some q' -> relinked q q'.
Proof.
  unfold set_next. destruct (get p q); simpl; [apply put_relinked|].
  discriminate.
Qed.

Lemma set_prev_relinked (p v : lptr) (q q' : queue) :
  set_prev p v q = Some q' -> relinked q q'.
Proof.
  unfold set_prev. destruct (get p q); simpl; [apply put_relinked|].
  discriminate.
Qed.

Lemma list_add_tail_relinked (it : item) (q q' : queue) :
  list_add_tail it q = Some q' -> relinked q q'.
Proof.
  unfold list_add_tail. intros H.
  destruct (set_prev LHead (LEntry it) q) as [q1|] eqn:H1; simpl in H;
    [|discriminate].
  destruct (set_next (LEntry it) LHead q1) as [q2|] eqn:H2; simpl in H;
    [|discriminate].
  destruct (set_prev (LEntry it) (prev (head q)) q2) as [q3|] eqn:H3;
    simpl in H; [|discriminate].
  apply set_prev_relinked in H1, H3. apply set_next_relinked in H2, H.
  eauto using relinked_trans.
Qed.

Lemma list_del_relinked (p : lptr) (q q' : queue) :
  list_del p q = Some q' -> relinked q q'.
Proof.
  unfold list_del. intros H.
  destruct (get p q) as [c|]; simpl in H; [|discriminate].
  destruct (set_prev (next c) (prev c) q) as [q1|] eqn:H1; simpl in H;
    [|discriminate].
  destruct (set_next (prev c) (next c) q1) as [q2|] eqn:H2; simpl in H;
    [|discriminate].
  destruct (set_next p LNull q2) as [q3|] eqn:H3; simpl in H;
    [|discriminate].
  apply set_prev_relinked in H1, H. apply set_next_relinked in H2, H3.
  eauto using relinked_trans.
Qed.

Lemma flush_entries_relinked (fuel : nat) :
  forall pos n q w q' w',
    flush_entries fuel pos n q w = Some (q', w') -> relinked q q'.
Proof.
  induction fuel as [|fuel IH]; intros pos n q w q' w';
    destruct pos as [|it|]; simpl; try discriminate;
    try (intros [= <- <-]; apply relinked_refl).
  destruct (list_del (LEntry it) q) as [q1|] eqn:Hdel; simpl;
    [|discriminate].
  destruct (get n q1) as [c|]; simpl; [|discriminate].
  intros Hrun. apply list_del_relinked in Hdel. apply IH in Hrun.
  eauto using relinked_trans.
Qed.

(** What the critical sections do, whatever the links are. *)
Lemma push_locked_inv (it : item) (q q' : queue) (w w' : world) :
  push_locked it q w = Some (q', w') ->
  exists q1,
    list_add_tail it q = Some q1
    /\ q' = set_depth (depth q + 1) q1
    /\ w' = emit EvCondSignal w
    /\ depth q < INT_MAX.
Proof.
  unfold push_locked, int_incr.
  destruct (list_add_tail it q) as [q1|] eqn:Hadd; simpl; [|discriminate].
  destruct (list_add_tail_relinked it q q1 Hadd) as (h & es & ->). simpl.
  destruct (depth q <? INT_MAX) eqn:Hlt; simpl; [|discriminate].
  intros [= <- <-]. apply Z.ltb_lt in Hlt. eauto.
Qed.

Lemma pop_locked_inv (q q' : queue) (r : option item) :
  pop_locked q = Some (r, q') ->
  (list_empty q = true /\ r = None /\ q' = q)
  \/ (exists it q1,
         list_empty q = false /\ next (head q) = LEntry it
         /\ list_del (LEntry it) q = Some q1
         /\ r = Some it /\ q' = set_depth (depth q - 1) q1
         /\ INT_MIN < depth q).
Proof.
  unfold pop_locked, list_first_entry_or_null, list_empty, int_decr.
  destruct (next (head q)) as [|it|] eqn:Hn; simpl; [| |discriminate].
  - intros [= <- <-]. now left.
  - destruct (list_del (LEntry it) q) as [q1|] eqn:Hdel; simpl;
      [|discriminate].
    destruct (list_del_relinked _ q q1 Hdel) as (h & es & ->). simpl.
    destruct (INT_MIN <? depth q) eqn:Hlt; simpl; [|discriminate].
    intros [= <- <-]. apply Z.ltb_lt in Hlt. right.
    exists it, (set_links h es q). auto 7.
Qed.

Lemma flush_locked_inv (q q' : queue) (w w' : world) :
  flush_locked q w = Some (q', w') ->
  exists q1, relinked q q1 /\ q' = set_depth 0 q1.
Proof.
  unfold flush_locked.
  destruct (get (next (head q)) q) as [c|]; cbn [mbind option_bind];
    [|discriminate].
  destruct (flush_entries (2 * size (entries q) + 3) (next (head q))
              (next c) q w) as [[q1 w1]|] eqn:Hrun; cbn [mbind option_bind];
    [|discriminate].
  intros [= <- <-]. exists q1. split; [|reflexivity].
  now apply flush_entries_relinked in Hrun.
Qed.

(** What the critical sections do on a queue that holds [l]. *)
Lemma flush_entries_spec (l : list item) :
  forall (q : queue) (w : world) (fuel : nat),
    holds q l ->
    (length l <= fuel)%nat ->
    exists w',
      flush_entries fuel (first_ptr l) (first_ptr (tail l)) q w
      = Some (set_list [] q, w')
      /\ trace w' = trace w ++ flat_map (release_events (free_hook q)) l
      /\ forall p,
           (p ∈ flat_map (freed_by (free_hook q)) l -> bufs w' !! p = None)
           /\ (p ∉ flat_map (freed_by (free_hook q)) l ->
               bufs w' !! p = bufs w !! p).
Proof.
  induction l as [|x l IH]; intros q w fuel Hq Hfuel.
  - exists w. rewrite (set_list_holds q [] Hq).
    split; [now destruct fuel|]. split; [now rewrite app_nil_r|].
    intros p. split; [|reflexivity].
    intros Hp. now apply elem_of_nil in Hp.
  - destruct fuel as [|fuel]; [simpl in Hfuel; lia|].
    cbn [first_ptr flush_entries tail].
    rewrite (list_del_first_holds q x l Hq). cbn [mbind option_bind].
    assert (holds (set_list l q) l) as Hl.
    { apply holds_set_list. destruct Hq as (_ & _ & Hnd).
      simpl in Hnd. now apply NoDup_cons in Hnd as [_ Hnd]. }
    destruct (get_first_holds _ l Hl) as (c & Hc & Hn).
    rewrite Hc. cbn [mbind option_bind]. rewrite Hn.
    destruct (IH (set_list l q)
                 (item_free (Some (set_list l q)) (Some x) w) fuel Hl)
      as (w' & -> & Htr & Hbufs); [simpl in Hfuel; lia|].
    exists w'. split; [reflexivity|].
    split.
    + rewrite Htr, item_free_trace. simpl. now rewrite <- app_assoc.
    + intros p. destruct (Hbufs p) as [Hin Hout].
      destruct (item_free_bufs (set_list l q) x w p) as [Hin1 Hout1].
      simpl in *. split; intros Hp.
      * destruct (decide (p ∈ flat_map (freed_by (free_hook q)) l))
          as [Hl'|Hl']; [now apply Hin|].
        rewrite (Hout Hl'). apply Hin1.
        apply elem_of_app in Hp as [Hp|Hp]; [exact Hp|contradiction].
      * rewrite Hout, Hout1; [reflexivity| |];
          intros Hin'; apply Hp; apply elem_of_app; auto.
Qed.

Lemma flush_locked_spec (q : queue) (l : list item) (w : world) :
  holds q l ->
  exists w',
    flush_locked q w = Some (set_depth 0 (set_list [] q), w')
    /\ trace w'
       = trace w ++ flat_map (release_events (free_hook q)) l
                 ++ [EvCondSignal]
    /\ forall p,
         (p ∈ flat_map (freed_by (free_hook q)) l -> bufs w' !! p = None)
         /\ (p ∉ flat_map (freed_by (free_hook q)) l ->
             bufs w' !! p = bufs w !! p).
Proof.
  intros Hq. unfold flush_locked.
  assert (next (head q) = first_ptr l) as ->
    by (destruct Hq as (-> & _ & _); reflexivity).
  destruct (get_first_holds q l Hq) as (c & Hc & Hn).
  rewrite Hc. cbn [mbind option_bind]. rewrite Hn.
  destruct (flush_entries_spec l q w (2 * size (entries q) + 3) Hq)
    as (w' & -> & Htr & Hbufs).
  { destruct Hq as (_ & -> & Hnd). rewrite size_links_from by exact Hnd.
    lia. }
  cbn [mbind option_bind]. eexists. split; [reflexivity|].
  split; [simpl; now rewrite Htr, <- app_assoc|exact Hbufs].
Qed.

Lemma push_locked_spec (it : item) (q : queue) (l : list item) (w : world) :
  holds q l ->
  item_addr it ∉ map item_addr l ->
  depth q < INT_MAX ->
  push_locked it q w
  = Some (set_depth (depth q + 1) (set_list (l ++ [it]) q),
          emit EvCondSignal w).
Proof.
  intros Hq Hfresh Hlt. unfold push_locked, int_incr.
  rewrite (list_add_tail_holds q l it Hq Hfresh). simpl.
  now rewrite (proj2 (Z.ltb_lt _ _) Hlt).
Qed.

Lemma push_locked_fresh (it : item) (q : queue) (l : list item) (w : world) :
  holds q l ->
  linked it l = false ->
  depth q < INT_MAX ->
  push_locked it q w
  = Some (set_depth (depth q + 1) (set_list (l ++ [it]) q),
          emit EvCondSignal w).
Proof.
  intros Hq Hfresh. apply push_locked_spec; [exact Hq|].
  now apply linked_false.
Qed.

Lemma pop_locked_cons (it : item) (l : list item) (q : queue) :
  holds q (it :: l) ->
  INT_MIN < depth q ->
  pop_locked q = Some (Some it, set_depth (depth q - 1) (set_list l q)).
Proof.
  intros Hq Hlt. unfold pop_locked, int_decr.
  rewrite (first_entry_holds q _ Hq). cbn [mbind option_bind].
  rewrite (list_del_first_holds q it l Hq). simpl.
  now rewrite (proj2 (Z.ltb_lt _ _) Hlt).
Qed.

Lemma pop_locked_nil (q : queue) :
  list_empty q = true -> pop_locked q = Some (None, q).
Proof.
  unfold pop_locked, list_first_entry_or_null, list_empty.
  now destruct (next (head q)).
Qed.

Lemma wait_nonempty_cons (ws : list wait_event) (q : queue) (w : world) :
  list_empty q = false -> wait_nonempty ws q w = Returned tt (Some q) w.
Proof. intros Hq. destruct ws; simpl; now rewrite Hq. Qed.

Lemma queue_pop_cons (ws : list wait_event) (q : queue) (w : world)
    (it : item) (l : list item) :
  holds q (it :: l) ->
  INT_MIN < depth q ->
  queue_pop (Some q) ws w
  = Returned (Some it) (Some (set_depth (depth q - 1) (set_list l q))) w.
Proof.
  intros Hq Hlt. unfold queue_pop.
  rewrite (wait_nonempty_cons ws q w)
    by now rewrite (list_empty_holds q _ Hq).
  now rewrite (pop_locked_cons it l q Hq Hlt).
Qed.

Lemma queue_flush_spec (q : queue) (l : list item) (w : world) :
  holds q l ->
  exists w',
    queue_flush (Some q) w = Returned 0 (Some (set_depth 0 (set_list [] q))) w'
    /\ trace w'
       = trace w ++ flat_map (release_events (free_hook q)) l
                 ++ [EvCondSignal]
    /\ forall p,
         (p ∈ flat_map (freed_by (free_hook q)) l -> bufs w' !! p = None)
         /\ (p ∉ flat_map (freed_by (free_hook q)) l ->
             bufs w' !! p = bufs w !! p).
Proof.
  intros Hq. unfold queue_flush.
  destruct (flush_locked_spec q l w Hq) as (w' & -> & Htr & Hbufs).
  now exists w'.
Qed.

(** The critical sections on a queue whose counter is right. *)
Lemma sound_depth (q : queue) (l : list item) :
  sound q l -> 0 <= depth q.
Proof. intros [_ ->]. lia. Qed.

Lemma sound_set (q : queue) (l : list item) (d : Z) :
  NoDup (map item_addr l) -> d = Z.of_nat (length l) ->
  sound (set_depth d (set_list l q)) l.
Proof. intros Hnd ->. split; [now apply holds_set_list|reflexivity]. Qed.

Lemma push_locked_sound (it : item) (q q' : queue) (l : list item)
    (w w' : world) :
  sound q l ->
  recorded it q = false ->
  push_locked it q w = Some (q', w') ->
  q' = set_depth (depth q + 1) (set_list (l ++ [it]) q)
  /\ w' = emit EvCondSignal w
  /\ depth q < INT_MAX
  /\ sound q' (l ++ [it]).
Proof.
  intros [Hq Hd] Hrec Hpush.
  rewrite (recorded_holds q l it Hq) in Hrec. apply linked_false in Hrec.
  destruct (push_locked_inv it q q' w w' Hpush) as (q1 & _ & _ & _ & Hlt).
  rewrite (push_locked_spec it q l w Hq Hrec Hlt) in Hpush.
  injection Hpush as <- <-. repeat split; try assumption.
  - now apply holds_set_list, (holds_snoc q).
  - simpl. rewrite length_app, Hd. simpl. lia.
Qed.

Lemma pop_locked_sound (q : queue) (l : list item) :
  sound q l ->
  match l with
  | [] => pop_locked q = Some (None, q)
  | it :: l' =>
      pop_locked q = Some (Some it, set_depth (depth q - 1) (set_list l' q))
      /\ sound (set_depth (depth q - 1) (set_list l' q)) l'
  end.
Proof.
  intros [Hq Hd]. destruct l as [|it l'].
  - apply pop_locked_nil. now rewrite (list_empty_holds q [] Hq).
  - split.
    + apply pop_locked_cons; [exact Hq|]. rewrite Hd. unfold INT_MIN. lia.
    + apply sound_set.
      * destruct Hq as (_ & _ & Hnd). simpl in Hnd.
        now apply NoDup_cons in Hnd as [_ Hnd].
      * rewrite Hd. simpl length. lia.
Qed.

Lemma flush_locked_sound (q : queue) (l : list item) (w : world) :
  sound q l ->
  exists w',
    flush_locked q w = Some (set_depth 0 (set_list [] q), w')
    /\ sound (set_depth 0 (set_list [] q)) [].
Proof.
  intros [Hq _]. destruct (flush_locked_spec q l w Hq) as (w' & -> & _).
  exists w'. split; [reflexivity|]. apply sound_set; [constructor|].
  reflexivity.
Qed.

(** ** Properties kept by every critical section

    A property of the queue that the three critical sections keep is kept
    by every call that goes through them, whatever the other threads do
    while the call sleeps. *)
Section Preserved.

Variable P : queue -> Prop.

Hypothesis P_push :
  forall it q w q' w', P q -> push_locked it q w = Some (q', w') -> P q'.
Hypothesis P_pop :
  forall q r q', P q -> pop_locked q = Some (r, q') -> P q'.
Hypothesis P_flush :
  forall q w q' w', P q -> flush_locked q w = Some (q', w') -> P q'.

Lemma interfere_keeps (cs : list critical) :
  forall q w q' w', P q -> interfere cs q w = Some (q', w') -> P q'.
Proof.
  induction cs as [|c cs IH]; simpl; intros q w q' w' HP Hrun.
  - now injection Hrun as <- <-.
  - destruct (interfere1 c q w) as [[q1 w1]|] eqn:Hc; simpl in Hrun;
      [|discriminate].
    apply (IH q1 w1 q' w'); [|exact Hrun].
    destruct c as [it| |]; simpl in Hc.
    + eapply P_push; eauto.
    + eapply P_flush; eauto.
    + destruct (pop_locked q) as [[r q2]|] eqn:Hpop; simpl in Hc;
        [|discriminate].
      injection Hc as <- <-. eapply P_pop; eauto.
Qed.

Lemma wait_nonempty_keeps (ws : list wait_event) :
  forall q w, P q -> leaves P (wait_nonempty ws q w).
Proof.
  induction ws as [|ev ws IH]; intros q w HP; simpl.
  - destruct (list_empty q); exact HP.
  - destruct (list_empty q); [|exact HP].
    destruct (interfere (others ev) q w) as [[q1 w1]|] eqn:Hint;
      [|exact I].
    assert (P q1) as HP1 by (eapply interfere_keeps; eauto).
    destruct (wait_ret ev =? 0); [exact HP1|]. now apply IH.
Qed.

Lemma queue_pop_keeps (q : queue) (ws : list wait_event) (w : world) :
  P q -> leaves P (queue_pop (Some q) ws w).
Proof.
  intros HP. unfold queue_pop.
  pose proof (wait_nonempty_keeps ws q w HP) as Hwait.
  destruct (wait_nonempty ws q w) as [[] [q1|] w1|q1 w1|];
    try exact I; unfold leaves in *; simpl in *; [|exact Hwait].
  destruct (pop_locked q1) as [[r q2]|] eqn:Hpop; [|exact I].
  simpl. eapply P_pop; eauto.
Qed.

Lemma queue_pop_free_keeps (q : queue) (ws : list wait_event) (w : world) :
  P q -> leaves P (queue_pop_free (Some q) ws w).
Proof.
  intros HP. unfold queue_pop_free.
  pose proof (queue_pop_keeps q ws w HP) as Hpop.
  destruct (queue_pop (Some q) ws w) as [tmp q1 w1|q1 w1|];
    [|exact Hpop|exact I].
  destruct tmp; exact Hpop.
Qed.

Lemma queue_flush_keeps (q : queue) (w : world) :
  P q -> leaves P (queue_flush (Some q) w).
Proof.
  intros HP. unfold queue_flush.
  destruct (flush_locked q w) as [[q' w']|] eqn:Hfl; [|exact I].
  unfold leaves. simpl. eapply P_flush; eauto.
Qed.

Lemma queue_push_keeps (q : queue) (it : option item)
    (ws : list wait_event) (w : world) :
  P q -> leaves P (queue_push (Some q) it ws w).
Proof.
  intros HP. unfold queue_push.
  destruct it as [it|]; [|exact HP].
  assert (leaves P
            (if depth q >=? max_depth q
             then match mode q with
                  | QUEUE_FULL_FLUSH =>
                      match queue_flush (Some q) w with
                      | Returned _ q1 w1 => Returned tt q1 w1
                      | Blocked q1 w1 => Blocked q1 w1
                      | Undefined => Undefined
                      end
                  | QUEUE_FULL_RING => queue_pop_free (Some q) ws w
                  end
             else Returned tt (Some q) w)) as Hfull.
  { destruct (depth q >=? max_depth q); [|exact HP].
    destruct (mode q); [|now apply queue_pop_free_keeps].
    pose proof (queue_flush_keeps q w HP) as Hfl.
    now destruct (queue_flush (Some q) w). }
  destruct (if depth q >=? max_depth q then _ else _)
    as [[] [q1|] w1|q1 w1|]; try exact I; [|exact Hfull].
  destruct (push_locked it q1 w1) as [[q2 w2]|] eqn:Hpush; [|exact I].
  unfold leaves in *. simpl in *. eapply P_push; eauto.
Qed.

End Preserved.

Lemma exec_null (o : op) (w : world) :
  (exists r w', exec o None w = Returned r None w')
  \/ exec o None w = Undefined.
Proof.
  destruct o as [m|a f|d|it ws|ws|ws| |]; simpl; eauto.
Qed.

Lemma run_null (ops : list op) :
  forall w, final_queue (run ops None w) = None.
Proof.
  induction ops as [|o ops IH]; intros w; [reflexivity|].
  simpl. destruct (exec_null o w) as [(r & w' & ->)| ->]; [|reflexivity].
  specialize (IH w'). destruct (run ops None w'); exact IH.
Qed.

(** ** The configuration is framed *)

Lemma config_push (c : queue_mode * Z * ptr * ptr) (it : item) (q : queue)
    (w : world) (q' : queue) (w' : world) :
  config q = c -> push_locked it q w = Some (q', w') -> config q' = c.
Proof.
  intros Hc Hpush.
  apply push_locked_inv in Hpush as (q1 & Hadd & -> & _).
  apply list_add_tail_relinked in Hadd as (h & es & ->). exact Hc.
Qed.

Lemma config_pop (c : queue_mode * Z * ptr * ptr) (q : queue)
    (r : option item) (q' : queue) :
  config q = c -> pop_locked q = Some (r, q') -> config q' = c.
Proof.
  intros Hc Hpop.
  apply pop_locked_inv in Hpop
    as [(_ & _ & ->)|(it & q1 & _ & _ & Hdel & _ & -> & _)]; [exact Hc|].
  apply list_del_relinked in Hdel as (h & es & ->). exact Hc.
Qed.

Lemma config_flush (c : queue_mode * Z * ptr * ptr) (q : queue) (w : world)
    (q' : queue) (w' : world) :
  config q = c -> flush_locked q w = Some (q', w') -> config q' = c.
Proof.
  intros Hc Hfl.
  apply flush_locked_inv in Hfl as (q1 & (h & es & ->) & ->). exact Hc.
Qed.

(** C10: push, pop, pop-and-release and flush leave the mode, the maximal
    depth and the two hooks of the queue as they were, whether the call
    returns or stays asleep, whatever the links of the queue are; a flush of
    a queue that holds items returns 0 with the configuration as it was;
    each setter changes its own fields only and leaves the links and the
    depth counter alone. *)
Theorem calls_keep_config (q : queue) (it : option item)
    (ws : list wait_event) (w : world) :
  leaves (fun q' => config q' = config q) (queue_push (Some q) it ws w)
  /\ leaves (fun q' => config q' = config q) (queue_pop (Some q) ws w)
  /\ leaves (fun q' => config q' = config q) (queue_pop_free (Some q) ws w)
  /\ leaves (fun q' => config q' = config q) (queue_flush (Some q) w)
  /\ (forall l, holds q l ->
      exists q' w',
        queue_flush (Some q) w = Returned 0 (Some q') w'
        /\ config q' = config q)
  /\ (forall m, exists q',
         queue_set_mode (Some q) m = (0, Some q')
         /\ config q' = (m, max_depth q, alloc_hook q, free_hook q)
         /\ head q' = head q /\ entries q' = entries q
         /\ depth q' = depth q)
  /\ (forall a f, exists q',
         queue_set_hook (Some q) a f = (0, Some q')
         /\ config q' = (mode q, max_depth q, a, f)
         /\ head q' = head q /\ entries q' = entries q
         /\ depth q' = depth q)
  /\ (forall d, exists q',
         queue_set_depth (Some q) d = (0, Some q')
         /\ config q' = (mode q, d, alloc_hook q, free_hook q)
         /\ head q' = head q /\ entries q' = entries q
         /\ depth q' = depth q).
Proof.
  pose proof (config_push (config q)) as Hpush.
  pose proof (config_pop (config q)) as Hpop.
  pose proof (config_flush (config q)) as Hflush.
  split; [now apply queue_push_keeps|].
  split; [now apply queue_pop_keeps|].
  split; [now apply queue_pop_free_keeps|].
  split; [now apply queue_flush_keeps|].
  split.
  { intros l Hq. destruct (queue_flush_spec q l w Hq) as (w' & -> & _).
    eexists _, _. split; reflexivity. }
  repeat split; intros; eexists; repeat split.
Qed.

Lemma calls_keep_config_witness :
  exists q' w',
    queue_flush (Some (Queue 10 [item_A; item_B] 2 QUEUE_MAX_DEPTH
                             QUEUE_FULL_RING 7 8)) empty_world
    = Returned 0 (Some q') w'
    /\ config q' = (QUEUE_FULL_RING, QUEUE_MAX_DEPTH, 7, 8).
Proof.
  destruct (calls_keep_config
              (Queue 10 [item_A; item_B] 2 QUEUE_MAX_DEPTH QUEUE_FULL_RING
                     7 8) None [] empty_world)
    as (_ & _ & _ & _ & Hflush & _).
  apply (Hflush [item_A; item_B]).
  repeat split. apply (bool_decide_unpack _). vm_compute. exact I.
Defined.

(** ** The depth counter *)

Lemma ends_well_mono {A : Type} (n m : Z) (o : outcome A) :
  n <= m -> ends_well n o -> ends_well m o.
Proof.
  intros Hle. destruct o as [a [q|] w|q w|]; simpl; try tauto; try lia.
  - intros [Hs Hd]. split; [exact Hs|lia].
  - intros [Hs Hd]. split; [exact Hs|lia].
Qed.

Lemma ends_well_map {A B : Type} (f : A -> B) (n : Z) (o : outcome A) :
  ends_well n o -> ends_well n (outcome_map f o).
Proof. now destruct o as [a [q|] w|q w|]. Qed.

Lemma insertions_of_app (cs cs' : list critical) :
  insertions_of (cs ++ cs') = (insertions_of cs + insertions_of cs')%nat.
Proof.
  unfold insertions_of. now rewrite List.filter_app, length_app.
Qed.

Lemma insertions_during_cons (ev : wait_event) (ws : list wait_event) :
  insertions_during (ev :: ws)
  = (insertions_of (others ev) + insertions_during ws)%nat.
Proof. unfold insertions_during. simpl. apply insertions_of_app. Qed.

Lemma push_locked_full (it : item) (q : queue) (l : list item) (w : world) :
  sound q l -> recorded it q = false -> push_locked it q w = None ->
  INT_MAX <= depth q.
Proof.
  intros [Hq Hd] Hrec Hpush.
  rewrite (recorded_holds q l it Hq) in Hrec. apply linked_false in Hrec.
  destruct (Z_lt_le_dec (depth q) INT_MAX) as [Hlt|Hle]; [|exact Hle].
  now rewrite (push_locked_spec it q l w Hq Hrec Hlt) in Hpush.
Qed.

Lemma interfere1_ends_well (c : critical) (q : queue) (w : world)
    (l : list item) :
  sound q l ->
  match c with OtherInsert it => recorded it q = false | _ => True end ->
  match interfere1 c q w with
  | Some (q', _) =>
      (exists l', sound q' l')
      /\ depth q' <= depth q + Z.of_nat (insertions_of [c])
  | None => INT_MAX < depth q + Z.of_nat (insertions_of [c])
  end.
Proof.
  intros Hs Hc. pose proof (sound_depth q l Hs) as Hpos.
  destruct c as [it| |]; unfold insertions_of; simpl.
  - destruct (push_locked it q w) as [[q1 w1]|] eqn:Hpush.
    + destruct (push_locked_sound it q q1 l w w1 Hs Hc Hpush)
        as (-> & _ & _ & Hs1).
      split; [eauto|]. simpl. lia.
    + pose proof (push_locked_full it q l w Hs Hc Hpush). lia.
  - destruct (flush_locked_sound q l w Hs) as (w' & -> & Hs').
    split; [eauto|]. simpl. lia.
  - pose proof (pop_locked_sound q l Hs) as Hpop.
    destruct l as [|it l']; [rewrite Hpop|destruct Hpop as [-> Hs']];
      simpl; (split; [eauto|lia]).
Qed.

Lemma interfere_ends_well (cs : list critical) :
  forall q w l,
    sound q l ->
    unlinked_inserts cs q w ->
    match interfere cs q w with
    | Some (q', _) =>
        (exists l', sound q' l')
        /\ depth q' <= depth q + Z.of_nat (insertions_of cs)
    | None => INT_MAX < depth q + Z.of_nat (insertions_of cs)
    end.
Proof.
  induction cs as [|c cs IH]; intros q w l Hs Hg.
  - simpl. split; [eauto|]. unfold insertions_of. simpl. lia.
  - destruct Hg as [Hc Hg]. cbn [interfere].
    pose proof (interfere1_ends_well c q w l Hs Hc) as H1.
    change (c :: cs) with ([c] ++ cs). rewrite insertions_of_app.
    destruct (interfere1 c q w) as [[q1 w1]|]; cbn [mbind option_bind];
      [|lia].
    destruct H1 as [[l1 Hs1] Hd1].
    specialize (IH q1 w1 l1 Hs1 Hg).
    destruct (interfere cs q1 w1) as [[q2 w2]|]; [|lia].
    destruct IH as [Hs2 Hd2]. split; [exact Hs2|lia].
Qed.

Lemma wait_nonempty_ends_well (ws : list wait_event) :
  forall q w l,
    sound q l ->
    unlinked_waits ws q w ->
    ends_well (depth q + Z.of_nat (insertions_during ws))
              (wait_nonempty ws q w).
Proof.
  induction ws as [|ev ws IH]; intros q w l Hs Hg.
  - simpl. destruct (list_empty q); simpl; (split; [eauto|lia]).
  - rewrite insertions_during_cons. simpl in *.
    destruct (list_empty q); [|simpl; split; [eauto|lia]].
    destruct Hg as [Hev Hg].
    pose proof (interfere_ends_well (others ev) q w l Hs Hev) as H1.
    destruct (interfere (others ev) q w) as [[q1 w1]|]; [|simpl; lia].
    destruct H1 as [[l1 Hs1] Hd1].
    destruct (wait_ret ev =? 0); [simpl; split; [eauto|lia]|].
    eapply ends_well_mono; [|exact (IH _ _ l1 Hs1 Hg)]. lia.
Qed.

Lemma queue_pop_ends_well (q : queue) (ws : list wait_event) (w : world)
    (l : list item) :
  sound q l ->
  unlinked_waits ws q w ->
  ends_well (depth q + Z.of_nat (insertions_during ws))
            (queue_pop (Some q) ws w).
Proof.
  intros Hs Hg. unfold queue_pop.
  pose proof (wait_nonempty_ends_well ws q w l Hs Hg) as Hw.
  destruct (wait_nonempty ws q w) as [[] [q1|] w1|q1 w1|]; simpl in *;
    try exact Hw; try contradiction.
  destruct Hw as [[l1 Hs1] Hd1].
  pose proof (pop_locked_sound q1 l1 Hs1) as Hpop.
  destruct l1 as [|it l']; [rewrite Hpop|destruct Hpop as [-> Hs']];
    simpl; (split; [eauto|lia]).
Qed.

Lemma queue_pop_free_ends_well (q : queue) (ws : list wait_event)
    (w : world) (l : list item) :
  sound q l ->
  unlinked_waits ws q w ->
  ends_well (depth q + Z.of_nat (insertions_during ws))
            (queue_pop_free (Some q) ws w).
Proof.
  intros Hs Hg. unfold queue_pop_free.
  pose proof (queue_pop_ends_well q ws w l Hs Hg) as Hp.
  destruct (queue_pop (Some q) ws w) as [[it|] [q1|] w1|q1 w1|];
    exact Hp.
Qed.

Lemma insert_ends_well (it : item) (q : queue) (w : world) (l : list item)
    (n : Z) :
  sound q l ->
  recorded it q = false ->
  depth q + 1 <= n ->
  ends_well n
    match push_locked it q w with
    | Some (q2, w2) =>
        Returned 0 (Some q2)
          (if depth q2 >? max_depth q2
           then emit (EvPrintf "queue depth reach max depth %d\n"
                               [depth q2]) w2
           else w2)
    | None => Undefined
    end.
Proof.
  intros Hs Hrec Hn.
  destruct (push_locked it q w) as [[q2 w2]|] eqn:Hpush.
  - destruct (push_locked_sound it q q2 l w w2 Hs Hrec Hpush)
      as (-> & _ & _ & Hs2).
    simpl. split; [eauto|lia].
  - pose proof (push_locked_full it q l w Hs Hrec Hpush). simpl. lia.
Qed.

Lemma queue_push_ends_well (q : queue) (it : item) (ws : list wait_event)
    (w : world) (l : list item) :
  sound q l ->
  unlinked_call (OpPush (Some it) ws) q w ->
  ends_well (depth q + Z.of_nat (S (insertions_during ws)))
            (queue_push (Some q) (Some it) ws w).
Proof.
  intros Hs [Hrec Hg]. pose proof (sound_depth q l Hs) as Hpos.
  unfold queue_push.
  destruct (depth q >=? max_depth q).
  - destruct (mode q).
    + unfold queue_flush.
      destruct (flush_locked_sound q l w Hs) as (w' & -> & Hs').
      apply (insert_ends_well it _ w' [] _ Hs'); [|simpl; lia].
      now rewrite (recorded_holds _ [] it (proj1 Hs')).
    + destruct Hg as [Hw Hins].
      pose proof (queue_pop_free_ends_well q ws w l Hs Hw) as Hp.
      destruct (queue_pop_free (Some q) ws w) as [[] [q1|] w1|q1 w1|];
        simpl in Hp; try contradiction.
      * destruct Hp as [[l1 Hs1] Hd1].
        apply (insert_ends_well it q1 w1 l1 _ Hs1 Hins). lia.
      * simpl. destruct Hp as [Hp1 Hp2]. split; [exact Hp1|lia].
      * simpl. lia.
  - apply (insert_ends_well it q w l _ Hs Hrec). lia.
Qed.

Lemma sound_config (q : queue) (l : list item) :
  sound q l ->
  (forall m, sound (set_mode m q) l)
  /\ (forall a f, sound (set_hooks a f q) l)
  /\ (forall d, sound (set_max_depth d q) l).
Proof. intros [(Hh & He & Hnd) Hd]. repeat split; assumption. Qed.

Lemma exec_ends_well (o : op) (q : queue) (w : world) (l : list item) :
  sound q l ->
  unlinked_call o q w ->
  ends_well (depth q + Z.of_nat (insertions1 o)) (exec o (Some q) w).
Proof.
  intros Hs Hg. destruct (sound_config q l Hs) as (Hm & Hh & Hd).
  destruct o as [m|a f|d|[it|] ws|ws|ws| |]; cbn [exec insertions1].
  - simpl. split; [eauto|lia].
  - simpl. split; [eauto|lia].
  - simpl. split; [eauto|lia].
  - apply ends_well_map. now apply queue_push_ends_well with l.
  - simpl. split; [eauto|lia].
  - apply ends_well_map. now apply queue_pop_ends_well with l.
  - apply ends_well_map. now apply queue_pop_free_ends_well with l.
  - apply ends_well_map. unfold queue_flush.
    destruct (flush_locked_sound q l w Hs) as (w' & -> & Hs').
    pose proof (sound_depth q l Hs). simpl. split; [eauto|lia].
  - simpl. split; [eauto|lia].
Qed.

Lemma run_ends_well (ops : list op) :
  forall q w l,
    sound q l ->
    unlinked_pushes ops (Some q) w ->
    ends_well (depth q + Z.of_nat (insertions ops)) (run ops (Some q) w).
Proof.
  induction ops as [|o ops IH]; intros q w l Hs Hg.
  - simpl. split; [eauto|lia].
  - destruct Hg as [Ho Hg]. cbn [run insertions].
    pose proof (exec_ends_well o q w l Hs Ho) as He.
    destruct (exec o (Some q) w) as [r [q1|] w1|q1 w1|]; simpl in He.
    + destruct He as [[l1 Hs1] Hd1].
      pose proof (IH q1 w1 l1 Hs1 Hg) as Hr.
      assert (ends_well (depth q + Z.of_nat (insertions1 o + insertions ops))
                        (run ops (Some q1) w1)) as Hr'
        by (eapply ends_well_mono; [|exact Hr]; lia).
      now destruct (run ops (Some q1) w1) as [rs [q2|] w2|q2 w2|].
    + contradiction.
    + simpl. destruct He as [He1 He2]. split; [exact He1|lia].
    + simpl. lia.
Qed.

(** C3, as the code has it: after any sequence of calls on a created queue
    (setters, push, pop, pop-and-release, flush, depth queries, with any
    behaviour of the other threads during the waits) in which no push, of
    the caller or of another thread, is handed a node that is linked in the
    queue, whether the last call returned or is still asleep, the queue
    holds a sequence of distinct nodes, the depth counter equals their
    number, it is not negative, and [queue_get_depth] returns that number.
    The sequence has such an end whenever the queue was allocated and the
    insertions it can make are within the range of [int]. *)
Theorem depth_counts_items (qmem : ptr) (w : world) (ops : list op) :
  unlinked_pushes ops (fst (queue_create qmem w))
                      (snd (queue_create qmem w)) ->
  (forall q',
      final_queue (run ops (fst (queue_create qmem w))
                           (snd (queue_create qmem w))) = Some q' ->
      exists l,
        holds q' l
        /\ depth q' = Z.of_nat (length l)
        /\ 0 <= depth q'
        /\ queue_get_depth (Some q') = Some (Z.of_nat (length l)))
  /\ (qmem <> NULL ->
      Z.of_nat (insertions ops) <= INT_MAX ->
      exists q',
        final_queue (run ops (fst (queue_create qmem w))
                             (snd (queue_create qmem w))) = Some q').
Proof.
  unfold queue_create. destruct (qmem =? NULL) eqn:Hq; simpl; intros Hg.
  - split; [intros q' Hfin; now rewrite run_null in Hfin|].
    intros Hne. apply Z.eqb_eq in Hq. contradiction.
  - set (q0 := MkQueue qmem INIT_LIST_HEAD ∅ 0 QUEUE_MAX_DEPTH
                       QUEUE_FULL_FLUSH NULL NULL) in *.
    assert (sound q0 []) as Hs0 by (repeat split; constructor).
    pose proof (run_ends_well ops q0 (emit (EvCalloc qmem) w) [] Hs0 Hg)
      as Hend.
    destruct (run ops (Some q0) (emit (EvCalloc qmem) w))
      as [rs [q1|] w1|q1 w1|]; simpl in *.
    + destruct Hend as [[l [Hl Hd]] _].
      split; [|eauto]. intros q' [= <-]. exists l. rewrite Hd.
      split; [exact Hl|]. repeat split. lia.
    + contradiction.
    + destruct Hend as [[l [Hl Hd]] _].
      split; [|eauto]. intros q' [= <-]. exists l. rewrite Hd.
      split; [exact Hl|]. repeat split. lia.
    + split; [discriminate|]. intros _ Hle. lia.
Qed.

Lemma depth_counts_items_witness :
  exists l,
    holds (Queue 10 [item_C] 1 2 QUEUE_FULL_RING NULL NULL) l
    /\ depth (Queue 10 [item_C] 1 2 QUEUE_FULL_RING NULL NULL)
       = Z.of_nat (length l)
    /\ 0 <= depth (Queue 10 [item_C] 1 2 QUEUE_FULL_RING NULL NULL)
    /\ queue_get_depth (Some (Queue 10 [item_C] 1 2 QUEUE_FULL_RING
                                    NULL NULL))
       = Some (Z.of_nat (length l)).
Proof.
  assert (unlinked_pushes
            [OpSetDepth 2; OpSetMode QUEUE_FULL_RING;
             OpPush (Some item_A) []; OpPush (Some item_B) [];
             OpPush (Some item_C) []; OpPop []; OpGetDepth]
            (fst (queue_create 10 empty_world))
            (snd (queue_create 10 empty_world))) as Hg.
  { vm_compute. repeat split. }
  destruct (depth_counts_items 10 empty_world
              [OpSetDepth 2; OpSetMode QUEUE_FULL_RING;
               OpPush (Some item_A) []; OpPush (Some item_B) [];
               OpPush (Some item_C) []; OpPop []; OpGetDepth] Hg)
    as [Hinv _].
  apply Hinv. vm_compute. reflexivity.
Defined.

(** C3 as stated fails: a created queue is handed the node A twice.  Both
    pushes return 0 and the depth counter is 2, but one node is linked: the
    anchor points to A at both ends, and A points to itself. *)
Lemma push_of_linked_node_miscounts :
  let q' := MkQueue 10 (ListHead (LEntry item_A) (LEntry item_A))
                    {[ 100 := ListHead (LEntry item_A) (LEntry item_A) ]}
                    2 QUEUE_MAX_DEPTH QUEUE_FULL_FLUSH NULL NULL in
  run [OpPush (Some item_A) []; OpPush (Some item_A) []; OpGetDepth]
      (fst (queue_create 10 empty_world))
      (snd (queue_create 10 empty_world))
  = Returned [RInt 0; RInt 0; RInt 2] (Some q')
             (World ∅ [EvCalloc 10; EvCondSignal; EvCondSignal])
  /\ depth q' = 2
  /\ size (entries q') = 1%nat.
Proof. vm_compute. repeat split. Qed.

(** ** First in, first out *)

Lemma run_app (ops1 ops2 : list op) :
  forall q w rs1 q1 w1 rs2 q2 w2,
    run ops1 q w = Returned rs1 q1 w1 ->
    run ops2 q1 w1 = Returned rs2 q2 w2 ->
    run (ops1 ++ ops2) q w = Returned (rs1 ++ rs2) q2 w2.
Proof.
  induction ops1 as [|o ops1 IH]; simpl; intros q w rs1 q1 w1 rs2 q2 w2 H1 H2.
  - now injection H1 as <- <- <-.
  - destruct (exec o q w) as [r q0 w0| |]; try discriminate.
    destruct (run ops1 q0 w0) as [rs q3 w3| |] eqn:Hrun; try discriminate.
    injection H1 as <- <- <-.
    now rewrite (IH q0 w0 rs q3 w3 rs2 q2 w2 Hrun H2).
Qed.

Lemma queue_push_room (q : queue) (l : list item) (it : item)
    (ws : list wait_event) (w : world) :
  holds q l ->
  depth q < max_depth q ->
  max_depth q <= INT_MAX ->
  item_addr it ∉ map item_addr l ->
  queue_push (Some q) (Some it) ws w
  = Returned 0 (Some (set_depth (depth q + 1) (set_list (l ++ [it]) q)))
             (emit EvCondSignal w).
Proof.
  intros Hq Hroom Hmax Hfresh. unfold queue_push.
  rewrite Z.geb_leb, (proj2 (Z.leb_gt _ _) Hroom).
  rewrite (push_locked_spec it q l w) by (auto; lia). simpl.
  rewrite Z.gtb_ltb. now rewrite (proj2 (Z.ltb_ge _ _)) by lia.
Qed.

Lemma run_pushes (items : list (item * list wait_event)) :
  forall q l w,
    sound q l ->
    NoDup (map item_addr (l ++ map fst items)) ->
    depth q + Z.of_nat (length items) <= max_depth q ->
    max_depth q <= INT_MAX ->
    exists q',
      run (map push_op items) (Some q) w
      = Returned (repeat (RInt 0) (length items)) (Some q')
                 (Nat.iter (length items) (emit EvCondSignal) w)
      /\ holds q' (l ++ map fst items)
      /\ depth q' = depth q + Z.of_nat (length items)
      /\ config q' = config q.
Proof.
  induction items as [|[it ws] items IH]; intros q l w Hs Hnd Hroom Hmax.
  - exists q. simpl. rewrite app_nil_r. destruct Hs as [Hq Hd].
    repeat split; try apply Hq. lia.
  - simpl in Hnd. cbn [map push_op run exec fst snd].
    pose proof Hs as [Hq Hd].
    assert (item_addr it ∉ map item_addr l) as Hfresh.
    { rewrite map_app in Hnd. apply NoDup_app in Hnd as (_ & Hdis & _).
      intros Hin. apply (Hdis _ Hin). simpl. left. }
    rewrite (queue_push_room q l);
      [|exact Hq|simpl length in Hroom; lia|exact Hmax|exact Hfresh].
    cbn [outcome_map].
    destruct (IH (set_depth (depth q + 1) (set_list (l ++ [it]) q))
                 (l ++ [it]) (emit EvCondSignal w))
      as (q' & Hrun & Hhead & Hdepth & Hcfg).
    + apply sound_set; [now apply (holds_snoc q)|].
      rewrite length_app, Hd. simpl. lia.
    + now rewrite <- app_assoc.
    + simpl in *. lia.
    + exact Hmax.
    + exists q'. rewrite Hrun, <- Nat.iter_succ_r. simpl in *.
      rewrite <- app_assoc in Hhead. simpl in Hhead.
      split; [reflexivity|]. split; [exact Hhead|]. split; [lia|exact Hcfg].
Qed.

Lemma run_pops (l : list item) :
  forall pops q w,
    sound q l ->
    length pops = length l ->
    exists q',
      run (map OpPop pops) (Some q) w
      = Returned (map (fun it => RItem (Some it)) l) (Some q') w
      /\ holds q' [] /\ depth q' = 0 /\ config q' = config q.
Proof.
  induction l as [|it l IH]; intros pops q w Hs Hlen.
  - destruct pops; [|discriminate]. exists q. destruct Hs as [Hq Hd].
    now repeat split; try apply Hq.
  - destruct pops as [|ws pops]; [discriminate|].
    cbn [map run exec]. pose proof Hs as [Hq Hd].
    destruct (pop_locked_sound q _ Hs) as [_ Hs'].
    rewrite (queue_pop_cons ws q w it l Hq)
      by (rewrite Hd; unfold INT_MIN; lia).
    cbn [outcome_map].
    destruct (IH pops (set_depth (depth q - 1) (set_list l q)) w Hs')
      as (q' & Hrun & Hhead & Hdepth & Hcfg).
    + simpl in Hlen. lia.
    + exists q'. now rewrite Hrun.
Qed.

(** C1: items pushed into an empty queue without overflow (their number
    is at most [max_depth], so the depth is below it before every push)
    are held in push order, oldest at the head, and as many pops return
    them in that order and leave the queue empty.  The items are distinct
    nodes: a node can be linked into the list only once. *)
Theorem fifo_order (q : queue) (w : world)
    (items : list (item * list wait_event))
    (pops : list (list wait_event)) :
  holds q [] ->
  depth q = 0 ->
  Z.of_nat (length items) <= max_depth q ->
  max_depth q <= INT_MAX ->
  NoDup (map item_addr (map fst items)) ->
  length pops = length items ->
  exists qm q' w',
    run (map push_op items) (Some q) w
    = Returned (repeat (RInt 0) (length items)) (Some qm) w'
    /\ holds qm (map fst items)
    /\ run (map push_op items ++ map OpPop pops) (Some q) w
       = Returned (repeat (RInt 0) (length items)
                   ++ map (fun it => RItem (Some it)) (map fst items))
                  (Some q') w'
    /\ holds q' [] /\ depth q' = 0.
Proof.
  intros Hq Hd Hroom Hmax Hnd Hlen.
  destruct (run_pushes items q [] w) as (qm & Hpush & Hhead & Hdepth & _).
  - split; [exact Hq|now rewrite Hd].
  - exact Hnd.
  - lia.
  - exact Hmax.
  - simpl in Hhead.
    destruct (run_pops (map fst items) pops qm
                (Nat.iter (length items) (emit EvCondSignal) w))
      as (q' & Hpop & Hhead' & Hdepth' & _).
    + split; [exact Hhead|]. rewrite length_map. lia.
    + now rewrite length_map.
    + exists qm, q', (Nat.iter (length items) (emit EvCondSignal) w).
      repeat split; try assumption; try apply Hhead; try apply Hhead'.
      exact (run_app _ _ _ _ _ _ _ _ _ _ Hpush Hpop).
Qed.

Lemma fifo_order_witness :
  exists qm q' w',
    run (map push_op [(item_A, []); (item_B, [timeout_wait]); (item_C, [])])
        (Some fresh_queue) empty_world
    = Returned (repeat (RInt 0) 3) (Some qm) w'
    /\ holds qm [item_A; item_B; item_C]
    /\ run (map push_op [(item_A, []); (item_B, [timeout_wait]); (item_C, [])]
            ++ map OpPop [[]; [empty_wakeup]; []])
           (Some fresh_queue) empty_world
       = Returned (repeat (RInt 0) 3
                   ++ map (fun it => RItem (Some it))
                          [item_A; item_B; item_C])
                  (Some q') w'
    /\ holds q' [] /\ depth q' = 0.
Proof.
  apply (fifo_order fresh_queue empty_world
           [(item_A, []); (item_B, [timeout_wait]); (item_C, [])]
           [[]; [empty_wakeup]; []]).
  - repeat split. constructor.
  - reflexivity.
  - vm_compute. discriminate.
  - vm_compute. discriminate.
  - apply (bool_decide_unpack _). vm_compute. exact I.
  - reflexivity.
Defined.

(** ** Waiting *)

Lemma wait_nonempty_quiet (ws : list wait_event) :
  forall q w,
    list_empty q = true ->
    Forall quiet ws ->
    wait_nonempty ws q w = Blocked q (reports ws w).
Proof.
  induction ws as [|ev ws IH]; intros q w Hq Hquiet; simpl; rewrite Hq.
  - reflexivity.
  - apply Forall_cons in Hquiet as [[Hnone Hret] Hquiet].
    rewrite Hnone. simpl.
    rewrite (proj2 (Z.eqb_neq _ _) Hret). now apply IH.
Qed.

(** The waits that follow a schedule over which the loop stayed asleep. *)
Lemma wait_nonempty_app (pre : list wait_event) :
  forall ws q w q0 w0,
    wait_nonempty pre q w = Blocked q0 w0 ->
    wait_nonempty (pre ++ ws) q w = wait_nonempty ws q0 w0.
Proof.
  induction pre as [|ev pre IH]; intros ws q w q0 w0; simpl.
  - destruct (list_empty q) eqn:Hq; [|discriminate].
    now intros [= <- <-].
  - destruct (list_empty q) eqn:Hq; [|discriminate].
    destruct (interfere (others ev) q w) as [[q1 w1]|]; [|discriminate].
    destruct (wait_ret ev =? 0); [discriminate|]. apply IH.
Qed.

Lemma wait_nonempty_blocked_empty (ws : list wait_event) :
  forall q w q0 w0,
    wait_nonempty ws q w = Blocked q0 w0 -> list_empty q0 = true.
Proof.
  induction ws as [|ev ws IH]; intros q w q0 w0; simpl.
  - destruct (list_empty q) eqn:Hq; [|discriminate].
    now intros [= <- <-].
  - destruct (list_empty q) eqn:Hq; [|discriminate].
    destruct (interfere (others ev) q w) as [[q1 w1]|]; [|discriminate].
    destruct (wait_ret ev =? 0); [discriminate|]. apply IH.
Qed.

(** A wake-up at any wait ends the loop. *)
Lemma wait_nonempty_woken (pre : list wait_event) (ev : wait_event)
    (post : list wait_event) (q q0 q1 : queue) (w w0 w1 : world) :
  wait_nonempty pre q w = Blocked q0 w0 ->
  interfere (others ev) q0 w0 = Some (q1, w1) ->
  wait_ret ev = 0 ->
  wait_nonempty (pre ++ ev :: post) q w = Returned tt (Some q1) w1.
Proof.
  intros Hpre Hint Hret.
  rewrite (wait_nonempty_app pre _ q w q0 w0 Hpre). simpl.
  rewrite (wait_nonempty_blocked_empty pre q w q0 w0 Hpre), Hint, Hret.
  reflexivity.
Qed.

(** The loop leaves an empty container behind only by a wake-up. *)
Lemma wait_nonempty_woken_empty (ws : list wait_event) :
  forall q w q1 w1,
    wait_nonempty ws q w = Returned tt (Some q1) w1 ->
    list_empty q1 = true ->
    list_empty q = true
    /\ exists pre ev post q0 w0,
         ws = pre ++ ev :: post
         /\ wait_nonempty pre q w = Blocked q0 w0
         /\ interfere (others ev) q0 w0 = Some (q1, w1)
         /\ wait_ret ev = 0.
Proof.
  induction ws as [|ev ws IH]; intros q w q1 w1; simpl.
  - destruct (list_empty q) eqn:Hq; [discriminate|].
    intros [= <- <-] Hq1. congruence.
  - destruct (list_empty q) eqn:Hq.
    + destruct (interfere (others ev) q w) as [[q2 w2]|] eqn:Hint;
        [|discriminate].
      destruct (wait_ret ev =? 0) eqn:Hret.
      * intros [= <- <-] _. split; [reflexivity|].
        exists [], ev, ws, q, w. simpl. rewrite Hq.
        apply Z.eqb_eq in Hret. auto.
      * intros Hrun Hq1.
        destruct (IH _ _ _ _ Hrun Hq1)
          as (_ & pre & ev' & post & q0 & w0 & -> & Hpre & Hint' & Hret').
        split; [reflexivity|].
        exists (ev :: pre), ev', post, q0, w0. simpl.
        rewrite Hq, Hint, Hret. auto.
    + intros [= <- <-] Hq1. congruence.
Qed.

(** C2, as the code has it: [queue_pop] on a NULL queue returns no item at
    once.  On a queue that holds items it returns the oldest one without
    waiting.  On an empty queue it returns no item only after a wait that
    returned 0 (a wake-up) left the container empty: the waits before it
    kept the loop asleep.  As long as the waits time out or are interrupted
    and no other thread touches the container, it keeps waiting.  And a
    wait that returns 0 and leaves the container empty, whether it is the
    first wait or follows any number of waits over which the loop stayed
    asleep, makes it return no item, whatever waits are scheduled after
    it. *)
Theorem pop_returns_nothing_only_after_wakeup (q : queue)
    (ws : list wait_event) (w : world) :
  queue_pop None ws w
  = Returned None None (emit (EvPrintf "invalid parament!\n" []) w)
  /\ (forall it l,
        holds q (it :: l) -> INT_MIN < depth q ->
        queue_pop (Some q) ws w
        = Returned (Some it)
                   (Some (set_depth (depth q - 1) (set_list l q))) w)
  /\ (forall l, holds q l -> (list_empty q = true <-> l = []))
  /\ (forall q' w',
        queue_pop (Some q) ws w = Returned None q' w' ->
        list_empty q = true
        /\ (exists ev, ev ∈ ws /\ wait_ret ev = 0)
        /\ exists q1,
             q' = Some q1 /\ list_empty q1 = true
             /\ exists pre ev post q0 w0,
                  ws = pre ++ ev :: post
                  /\ wait_nonempty pre q w = Blocked q0 w0
                  /\ interfere (others ev) q0 w0 = Some (q1, w')
                  /\ wait_ret ev = 0)
  /\ (list_empty q = true -> Forall quiet ws ->
      exists w', queue_pop (Some q) ws w = Blocked q w')
  /\ (forall pre ev post q0 w0 q1 w1,
        ws = pre ++ ev :: post ->
        wait_nonempty pre q w = Blocked q0 w0 ->
        interfere (others ev) q0 w0 = Some (q1, w1) ->
        wait_ret ev = 0 ->
        list_empty q1 = true ->
        queue_pop (Some q) ws w = Returned None (Some q1) w1).
Proof.
  split; [reflexivity|].
  split; [intros it l Hq Hd; now apply queue_pop_cons|].
  split.
  { intros l Hq. rewrite (list_empty_holds q l Hq).
    destruct l; split; congruence. }
  split; [|split].
  - unfold queue_pop. intros q' w'.
    destruct (wait_nonempty ws q w) as [[] [q1|] w1|q1 w1|] eqn:Hwait;
      try discriminate.
    destruct (pop_locked q1) as [[r q2]|] eqn:Hpop; [|discriminate].
    intros [= -> <- <-].
    apply pop_locked_inv in Hpop
      as [(Hq1 & _ & ->)|(it & q3 & _ & _ & _ & Hsome & _)];
      [|discriminate].
    destruct (wait_nonempty_woken_empty ws q w q1 w1 Hwait Hq1)
      as (Hq & pre & ev & post & q0 & w0 & -> & Hpre & Hint & Hret).
    split; [exact Hq|]. split.
    + exists ev. split; [|exact Hret]. apply elem_of_app. right. left.
    + exists q1. split; [reflexivity|]. split; [exact Hq1|].
      now exists pre, ev, post, q0, w0.
  - intros Hq Hquiet. unfold queue_pop.
    rewrite (wait_nonempty_quiet ws q w Hq Hquiet). eauto.
  - intros pre ev post q0 w0 q1 w1 -> Hpre Hint Hret Hq1.
    unfold queue_pop.
    rewrite (wait_nonempty_woken pre ev post q q0 q1 w w0 w1 Hpre Hint Hret).
    now rewrite pop_locked_nil.
Qed.

Lemma pop_returns_nothing_only_after_wakeup_witness :
  (exists w',
      queue_pop (Some fresh_queue) [timeout_wait; WaitEvent [] EINTR]
                empty_world
      = Blocked fresh_queue w')
  /\ queue_pop (Some fresh_queue)
               ([timeout_wait; WaitEvent [] EINTR]
                ++ flush_wakeup :: [timeout_wait])
               empty_world
     = Returned None (Some fresh_queue)
         (World ∅ [EvPrintf
                     "pthread_cond_timedwait was interrupted by a signal.\n"
                     [];
                   EvCondSignal]).
Proof.
  split.
  - destruct (pop_returns_nothing_only_after_wakeup fresh_queue
                [timeout_wait; WaitEvent [] EINTR] empty_world)
      as (_ & _ & _ & _ & Hblocked & _).
    apply Hblocked.
    + reflexivity.
    + repeat constructor; discriminate.
  - destruct (pop_returns_nothing_only_after_wakeup fresh_queue
                ([timeout_wait; WaitEvent [] EINTR]
                 ++ flush_wakeup :: [timeout_wait]) empty_world)
      as (_ & _ & _ & _ & _ & Hwoken).
    apply (Hwoken [timeout_wait; WaitEvent [] EINTR] flush_wakeup
                  [timeout_wait] fresh_queue
                  (World ∅ [EvPrintf
                              "pthread_cond_timedwait was interrupted by a signal.\n"
                              []])).
    + reflexivity.
    + reflexivity.
    + reflexivity.
    + reflexivity.
    + reflexivity.
Defined.

(** C2 as stated fails: a consumer asleep on an empty queue that is woken
    by the signal of another thread's flush leaves the loop and returns no
    item, although the queue is not NULL. *)
Lemma pop_woken_by_flush_returns_nothing :
  queue_pop (Some fresh_queue) [flush_wakeup] empty_world
  = Returned None (Some fresh_queue) (World ∅ [EvCondSignal]).
Proof. reflexivity. Qed.

(** ** Unchecked maximal depth *)

Lemma queue_pop_free_quiet (q : queue) (ws : list wait_event) (w : world) :
  list_empty q = true -> Forall quiet ws ->
  queue_pop_free (Some q) ws w = Blocked q (reports ws w).
Proof.
  intros Hq Hquiet. unfold queue_pop_free, queue_pop.
  now rewrite (wait_nonempty_quiet ws q w Hq Hquiet).
Qed.

Lemma queue_pop_free_woken (pre : list wait_event) (ev : wait_event)
    (post : list wait_event) (q q0 q1 : queue) (w w0 w1 : world) :
  wait_nonempty pre q w = Blocked q0 w0 ->
  interfere (others ev) q0 w0 = Some (q1, w1) ->
  wait_ret ev = 0 ->
  list_empty q1 = true ->
  queue_pop_free (Some q) (pre ++ ev :: post) w = Returned tt (Some q1) w1.
Proof.
  intros Hpre Hint Hret Hq1. unfold queue_pop_free, queue_pop.
  rewrite (wait_nonempty_woken pre ev post q q0 q1 w w0 w1 Hpre Hint Hret).
  now rewrite pop_locked_nil.
Qed.

(** C9, as the code has it: [queue_set_depth] stores any integer in
    [max_depth] of a queue that is not NULL and returns 0.  With a value
    of 0 or less and the ring policy, a push onto an empty queue is in the
    eviction step's wait for as long as the waits time out or are
    interrupted and no other thread touches the container: after any number
    of such waits the push has still not inserted its item.  A wait that
    returns 0 and leaves the container empty, whether it is the first wait
    or follows any number of waits over which the eviction stayed asleep,
    and whether the caller was woken for no reason or by another thread's
    flush, ends the eviction with nothing evicted: the push inserts its
    item, reports the depth when it exceeds the maximal depth, and
    returns 0. *)
Theorem unchecked_max_depth_stalls_push (q : queue) (d : Z) (it : item)
    (ws : list wait_event) (w : world) :
  queue_set_depth (Some q) d = (0, Some (set_max_depth d q))
  /\ max_depth (set_max_depth d q) = d
  /\ (d <= 0 -> mode q = QUEUE_FULL_RING -> holds q [] -> depth q = 0 ->
      Forall quiet ws ->
      exists w',
        queue_push (Some (set_max_depth d q)) (Some it) ws w
        = Blocked (set_max_depth d q) w'
        /\ holds (set_max_depth d q) [])
  /\ (d <= 0 -> mode q = QUEUE_FULL_RING -> holds q [] -> depth q = 0 ->
      queue_push (Some (set_max_depth d q)) (Some it) (empty_wakeup :: ws) w
      = Returned 0 (Some (set_depth 1 (set_list [it] (set_max_depth d q))))
                 (emit (EvPrintf "queue depth reach max depth %d\n" [1])
                       (emit EvCondSignal w)))
  /\ (forall pre ev post q0 w0 q1 w1,
        d <= depth q -> mode q = QUEUE_FULL_RING ->
        ws = pre ++ ev :: post ->
        wait_nonempty pre (set_max_depth d q) w = Blocked q0 w0 ->
        interfere (others ev) q0 w0 = Some (q1, w1) ->
        wait_ret ev = 0 ->
        holds q1 [] ->
        depth q1 < INT_MAX ->
        queue_push (Some (set_max_depth d q)) (Some it) ws w
        = Returned 0 (Some (set_depth (depth q1 + 1) (set_list [it] q1)))
            (World (bufs w1)
                   (trace w1
                    ++ EvCondSignal
                       :: depth_warning (set_depth (depth q1 + 1) q1)))).
Proof.
  split; [reflexivity|]. split; [reflexivity|]. split; [|split].
  - intros Hd Hmode Hq Hdepth Hquiet.
    assert (holds (set_max_depth d q) []) as Hq' by exact Hq.
    unfold queue_push. simpl. rewrite Hdepth, Hmode.
    rewrite Z.geb_leb, (proj2 (Z.leb_le _ _) Hd).
    rewrite queue_pop_free_quiet;
      [|exact (list_empty_holds _ [] Hq')|exact Hquiet].
    eexists. split; [reflexivity|exact Hq].
  - intros Hd Hmode Hq Hdepth.
    assert (holds (set_max_depth d q) []) as Hq' by exact Hq.
    unfold queue_push. cbn [depth max_depth mode set_max_depth].
    rewrite Hdepth, Hmode.
    rewrite Z.geb_leb, (proj2 (Z.leb_le _ _) Hd).
    change (empty_wakeup :: ws) with ([] ++ empty_wakeup :: ws).
    rewrite (queue_pop_free_woken [] empty_wakeup ws (set_max_depth d q)
               (set_max_depth d q) (set_max_depth d q) w w w);
      try reflexivity;
      try exact (list_empty_holds _ [] Hq');
      try (cbn [wait_nonempty];
           now rewrite (list_empty_holds (set_max_depth d q) [] Hq')).
    rewrite (push_locked_spec it _ [] w Hq');
      [|apply not_elem_of_nil|simpl; rewrite Hdepth; unfold INT_MAX; lia].
    simpl. rewrite Hdepth. simpl.
    rewrite Z.gtb_ltb. now rewrite (proj2 (Z.ltb_lt _ _)) by lia.
  - intros pre ev post q0 w0 q1 w1 Hfull Hmode -> Hpre Hint Hret Hq1 Hlt.
    unfold queue_push. cbn [depth max_depth mode set_max_depth].
    rewrite Hmode.
    rewrite (proj2 (Z.geb_le _ _) Hfull).
    rewrite (queue_pop_free_woken pre ev post _ q0 q1 w w0 w1 Hpre Hint
               Hret) by exact (list_empty_holds _ [] Hq1).
    rewrite (push_locked_spec it q1 [] w1 Hq1);
      [|apply not_elem_of_nil|exact Hlt].
    simpl. unfold depth_warning, emit. simpl.
    destruct (depth q1 + 1 >? max_depth q1); simpl;
      now rewrite <- ?app_assoc.
Qed.

Lemma unchecked_max_depth_stalls_push_witness :
  (exists w',
      queue_push
        (Some (set_max_depth (-3) (set_mode QUEUE_FULL_RING fresh_queue)))
        (Some item_A) [timeout_wait; timeout_wait; WaitEvent [] EINTR]
        empty_world
      = Blocked (set_max_depth (-3) (set_mode QUEUE_FULL_RING fresh_queue))
                w'
      /\ holds (set_max_depth (-3) (set_mode QUEUE_FULL_RING fresh_queue))
               [])
  /\ queue_push
       (Some (set_max_depth (-3) (set_mode QUEUE_FULL_RING fresh_queue)))
       (Some item_A)
       ([timeout_wait; WaitEvent [] EINTR] ++ flush_wakeup :: [timeout_wait])
       empty_world
     = Returned 0 (Some (Queue 10 [item_A] 1 (-3) QUEUE_FULL_RING NULL NULL))
         (World ∅ [EvPrintf
                     "pthread_cond_timedwait was interrupted by a signal.\n"
                     [];
                   EvCondSignal; EvCondSignal;
                   EvPrintf "queue depth reach max depth %d\n" [1]]).
Proof.
  split.
  - destruct (unchecked_max_depth_stalls_push
                (set_mode QUEUE_FULL_RING fresh_queue) (-3) item_A
                [timeout_wait; timeout_wait; WaitEvent [] EINTR] empty_world)
      as (_ & _ & Hstall & _).
    apply Hstall.
    + vm_compute. discriminate.
    + reflexivity.
    + repeat split. constructor.
    + reflexivity.
    + repeat constructor; discriminate.
  - destruct (unchecked_max_depth_stalls_push
                (set_mode QUEUE_FULL_RING fresh_queue) (-3) item_A
                ([timeout_wait; WaitEvent [] EINTR]
                 ++ flush_wakeup :: [timeout_wait]) empty_world)
      as (_ & _ & _ & _ & Hwoken).
    apply (Hwoken [timeout_wait; WaitEvent [] EINTR] flush_wakeup
                  [timeout_wait]
                  (set_max_depth (-3) (set_mode QUEUE_FULL_RING fresh_queue))
                  (World ∅ [EvPrintf
                              "pthread_cond_timedwait was interrupted by a signal.\n"
                              []])
                  (set_max_depth (-3) (set_mode QUEUE_FULL_RING fresh_queue))
                  (World ∅ [EvPrintf
                              "pthread_cond_timedwait was interrupted by a signal.\n"
                              [];
                            EvCondSignal])).
    + vm_compute. discriminate.
    + reflexivity.
    + reflexivity.
    + reflexivity.
    + reflexivity.
    + reflexivity.
    + repeat split. constructor.
    + vm_compute. reflexivity.
Defined.

(** C9 as stated fails: with [max_depth] 0 and the ring policy, a push
    onto an empty queue returns once a wait of the eviction step is woken:
    the pop finds nothing to evict and the item is inserted. *)
Lemma push_returns_after_wakeup :
  queue_push (Some (set_max_depth 0 (set_mode QUEUE_FULL_RING fresh_queue)))
             (Some item_A) [timeout_wait; flush_wakeup] empty_world
  = Returned 0 (Some (Queue 10 [item_A] 1 0 QUEUE_FULL_RING NULL NULL))
             (World ∅ [EvCondSignal; EvCondSignal;
                       EvPrintf "queue depth reach max depth %d\n" [1]]).
Proof. reflexivity. Qed.

(** ** Payload policy *)

Lemma item_alloc_hooked (q : queue) (data : ptr) (len : Z)
    (node payload : ptr) (w : world) :
  alloc_hook q <> NULL -> node <> NULL ->
  item_alloc (Some q) data len node payload w
  = (Some (Item node (Iovec NULL 0) (Iovec payload len)),
     emit (EvAllocHook (alloc_hook q) data len payload)
          (emit (EvCalloc node) w)).
Proof.
  intros Hhook Hnode. unfold item_alloc.
  now rewrite (proj2 (Z.eqb_neq _ _) Hnode), (proj2 (Z.eqb_neq _ _) Hhook).
Qed.

Lemma item_alloc_plain (q : queue) (data : ptr) (len : Z)
    (node payload : ptr) (w : world) :
  alloc_hook q = NULL -> node <> NULL ->
  item_alloc (Some q) data len node payload w
  = (Some (Item node (Iovec payload len) (Iovec NULL 0)),
     snd (memdup data len payload (emit (EvCalloc node) w))).
Proof.
  intros Hhook Hnode. unfold item_alloc.
  rewrite (proj2 (Z.eqb_neq _ _) Hnode), Hhook. simpl.
  unfold memdup. destruct (payload =? NULL) eqn:Hp; [|reflexivity].
  apply Z.eqb_eq in Hp. now subst.
Qed.

(** C4, as the code has it: the member of the item that holds the payload
    is chosen once, at creation, by the alloc hook of the queue at that
    moment ([opaque] with a hook, [data] without).  How the payload is
    released is chosen by [item_free] from the free hook of the queue at the
    moment of release: with a free hook it calls the hook on the [opaque]
    handle of the item, without one it frees the [data] buffer.  So an
    item created without hooks has its owned buffer freed when the queue
    still has no free hook at release, and an item created with hooks has
    the free hook called on its stored handle when the queue still has a
    free hook at release. *)
Theorem release_path_follows_current_hook (q q' : queue) (src : ptr)
    (len : Z) (node payload : ptr) (w w1 : world) (it : item) :
  node <> NULL ->
  fst (item_alloc (Some q) src len node payload w) = Some it ->
  it = (if negb (alloc_hook q =? NULL)
        then Item node (Iovec NULL 0) (Iovec payload len)
        else Item node (Iovec payload len) (Iovec NULL 0))
  /\ trace (item_free (Some q') (Some it) w1)
     = trace w1
       ++ (if negb (free_hook q' =? NULL)
           then [EvFreeHook (free_hook q') (iov_base (opaque it));
                 EvFree node]
           else [EvFree (iov_base (data it)); EvFree node])
  /\ (alloc_hook q = NULL -> free_hook q' = NULL ->
      trace (item_free (Some q') (Some it) w1)
      = trace w1 ++ [EvFree payload; EvFree node])
  /\ (alloc_hook q <> NULL -> free_hook q' <> NULL ->
      trace (item_free (Some q') (Some it) w1)
      = trace w1 ++ [EvFreeHook (free_hook q') payload; EvFree node]).
Proof.
  intros Hnode Halloc.
  assert (it = (if negb (alloc_hook q =? NULL)
                then Item node (Iovec NULL 0) (Iovec payload len)
                else Item node (Iovec payload len) (Iovec NULL 0))) as Hit.
  { destruct (Z.eq_dec (alloc_hook q) NULL) as [Hq|Hq].
    - rewrite item_alloc_plain in Halloc by assumption.
      injection Halloc as <-. now rewrite Hq.
    - rewrite item_alloc_hooked in Halloc by assumption.
      injection Halloc as <-. now rewrite (proj2 (Z.eqb_neq _ _) Hq). }
  assert (item_addr it = node) as Haddr.
  { rewrite Hit. now destruct (negb (alloc_hook q =? NULL)). }
  split; [exact Hit|]. rewrite item_free_trace. unfold release_events.
  rewrite Haddr. split; [reflexivity|]. split.
  - intros Hq Hq'. rewrite Hq', Hit, Hq. reflexivity.
  - intros Hq Hq'. rewrite (proj2 (Z.eqb_neq _ _) Hq'), Hit.
    now rewrite (proj2 (Z.eqb_neq _ _) Hq).
Qed.

Lemma release_path_follows_current_hook_witness :
  trace (item_free (Some (set_hooks 7 8 fresh_queue))
                   (Some (Item 100 (Iovec NULL 0) (Iovec 77 4)))
                   empty_world)
  = [EvFreeHook 8 77; EvFree 100].
Proof.
  destruct (release_path_follows_current_hook
              (set_hooks 7 8 fresh_queue) (set_hooks 7 8 fresh_queue)
              50 4 100 77 empty_world empty_world
              (Item 100 (Iovec NULL 0) (Iovec 77 4)))
    as (_ & _ & _ & Hrel).
  - vm_compute. discriminate.
  - reflexivity.
  - apply Hrel; vm_compute; discriminate.
Defined.

(** C4 as stated fails: an item is created while the queue has no hooks
    and owns the copy at 1000; hooks are installed; releasing the item
    calls the free hook on the NULL [opaque] handle, and the owned copy is
    never freed (it is still allocated afterwards). *)
Lemma release_after_hooks_installed_skips_owned_buffer :
  let created := item_alloc (Some fresh_queue) 50 4 100 1000 caller_world in
  let hooked := snd (queue_set_hook (Some fresh_queue) 7 8) in
  let released := item_free hooked (fst created) (snd created) in
  fst created = Some item_A
  /\ bufs (snd created) !! 1000
     = Some [Byte.x61; Byte.x62; Byte.x63; Byte.x64]
  /\ trace released
     = [EvCalloc 100; EvMemdup 50 4 1000; EvFreeHook 8 NULL; EvFree 100]
  /\ bufs released !! 1000 = Some [Byte.x61; Byte.x62; Byte.x63; Byte.x64].
Proof. vm_compute. repeat split; reflexivity. Qed.

Lemma queue_destroy_spec (q : queue) (l : list item) (w : world) :
  holds q l ->
  exists w',
    queue_destroy (Some q) w = Returned tt None w'
    /\ trace w'
       = trace w ++ flat_map (release_events (free_hook q)) l
                 ++ [EvCondSignal; EvFree (queue_addr q)]
    /\ forall p,
         (p ∈ flat_map (freed_by (free_hook q)) l -> bufs w' !! p = None)
         /\ (p ∉ flat_map (freed_by (free_hook q)) l ->
             p <> queue_addr q -> bufs w' !! p = bufs w !! p)
         /\ bufs w' !! queue_addr q = None.
Proof.
  intros Hq. unfold queue_destroy.
  destruct (queue_flush_spec q l w Hq) as (w1 & -> & Htr & Hbufs).
  eexists. split; [reflexivity|]. split.
  - simpl. rewrite Htr, <- !app_assoc. reflexivity.
  - intros p. destruct (Hbufs p) as [Hin Hout]. simpl.
    split; [|split].
    + intros Hp. rewrite lookup_delete. case_decide; [reflexivity|].
      now apply Hin.
    + intros Hp Hne. rewrite lookup_delete_ne by congruence. now apply Hout.
    + apply lookup_delete_eq.
Qed.

(** C7: on a queue with hooks installed, [item_alloc] stores what the
    alloc hook returned in the [opaque] member of the item as it is, calls
    neither memdup nor any other allocation for the payload and leaves the
    buffers alone; [item_free] releases an item by one call of the free hook
    on the stored handle followed by the release of the node, and
    [queue_destroy] does so once for every item it still holds; no call
    frees a [data] buffer. *)
Theorem hooks_manage_payload (q q' : queue) (src : ptr) (len : Z)
    (node payload : ptr) (w w1 : world) :
  alloc_hook q <> NULL ->
  node <> NULL ->
  free_hook q' <> NULL ->
  item_alloc (Some q) src len node payload w
  = (Some (Item node (Iovec NULL 0) (Iovec payload len)),
     World (bufs w)
           (trace w ++ [EvCalloc node;
                        EvAllocHook (alloc_hook q) src len payload]))
  /\ trace (item_free (Some q')
                      (Some (Item node (Iovec NULL 0) (Iovec payload len)))
                      w1)
     = trace w1 ++ [EvFreeHook (free_hook q') payload; EvFree node]
  /\ (forall it,
        trace (item_free (Some q') (Some it) w1)
        = trace w1 ++ [EvFreeHook (free_hook q') (iov_base (opaque it));
                       EvFree (item_addr it)])
  /\ (forall l, holds q' l ->
      exists w',
        queue_destroy (Some q') w1 = Returned tt None w'
        /\ trace w'
           = trace w1
             ++ flat_map (fun it =>
                            [EvFreeHook (free_hook q') (iov_base (opaque it));
                             EvFree (item_addr it)]) l
             ++ [EvCondSignal; EvFree (queue_addr q')]).
Proof.
  intros Halloc Hnode Hfree.
  assert (forall it,
             release_events (free_hook q') it
             = [EvFreeHook (free_hook q') (iov_base (opaque it));
                EvFree (item_addr it)]) as Hrel.
  { intros it. unfold release_events.
    now rewrite (proj2 (Z.eqb_neq _ _) Hfree). }
  split; [|split; [|split]].
  - rewrite item_alloc_hooked by assumption. unfold emit. simpl.
    now rewrite <- app_assoc.
  - now rewrite item_free_trace, Hrel.
  - intros it. now rewrite item_free_trace, Hrel.
  - intros l Hq.
    destruct (queue_destroy_spec q' l w1 Hq) as (w' & -> & Htr & _).
    exists w'. split; [reflexivity|]. rewrite Htr. do 2 f_equal.
    clear Hq Htr. induction l as [|it l IH]; [reflexivity|].
    simpl. now rewrite Hrel, IH.
Qed.

Lemma hooks_manage_payload_witness :
  exists w',
    queue_destroy
      (Some (Queue 10 [Item 100 (Iovec NULL 0) (Iovec 77 4);
                       Item 200 (Iovec NULL 0) (Iovec 88 4)]
                   2 QUEUE_MAX_DEPTH QUEUE_FULL_FLUSH 7 8))
      empty_world
    = Returned tt None w'
    /\ trace w'
       = trace empty_world
         ++ flat_map (fun it => [EvFreeHook 8 (iov_base (opaque it));
                                 EvFree (item_addr it)])
              [Item 100 (Iovec NULL 0) (Iovec 77 4);
               Item 200 (Iovec NULL 0) (Iovec 88 4)]
         ++ [EvCondSignal; EvFree 10].
Proof.
  destruct (hooks_manage_payload
              (set_hooks 7 8 fresh_queue)
              (Queue 10 [Item 100 (Iovec NULL 0) (Iovec 77 4);
                         Item 200 (Iovec NULL 0) (Iovec 88 4)]
                     2 QUEUE_MAX_DEPTH QUEUE_FULL_FLUSH 7 8)
              50 4 100 77 empty_world empty_world)
    as (_ & _ & _ & Hdestroy).
  - vm_compute. discriminate.
  - vm_compute. discriminate.
  - vm_compute. discriminate.
  - apply Hdestroy. repeat split.
    apply (bool_decide_unpack _). vm_compute. exact I.
Defined.

(** C8, as the code has it: on a queue without an alloc hook,
    [item_alloc] returns no item exactly when the queue is NULL or the
    allocation of the node fails.  The result of the duplication is stored
    without a test: when the duplication fails, [item_alloc] still returns
    an item, whose [data] member is the NULL buffer with length [len].  When
    the allocation of the node and the duplication both succeed, it returns
    an item whose [data] member is the new buffer, which holds the first
    [len] bytes of the caller's data, with length [len]. *)
Theorem item_alloc_without_hooks (q : queue) (src : ptr) (len : Z)
    (node payload : ptr) (w : world) (bytes : list Byte.byte) :
  alloc_hook q = NULL ->
  item_alloc None src len node payload w = (None, w)
  /\ (fst (item_alloc (Some q) src len node payload w) = None
      <-> node = NULL)
  /\ (node <> NULL ->
      item_alloc (Some q) src len node NULL w
      = (Some (Item node (Iovec NULL len) (Iovec NULL 0)),
         World (bufs w)
               (trace w ++ [EvCalloc node; EvMemdup src len NULL])))
  /\ (node <> NULL -> payload <> NULL ->
      bufs w !! src = Some bytes ->
      0 <= len <= Z.of_nat (length bytes) ->
      exists w',
        item_alloc (Some q) src len node payload w
        = (Some (Item node (Iovec payload len) (Iovec NULL 0)), w')
        /\ bufs w' !! payload = Some (take (Z.to_nat len) bytes)
        /\ Z.of_nat (length (take (Z.to_nat len) bytes)) = len
        /\ trace w' = trace w ++ [EvCalloc node; EvMemdup src len payload]).
Proof.
  intros Hhook. split; [reflexivity|]. split; [|split].
  - destruct (Z.eq_dec node NULL) as [->|Hnode].
    + split; reflexivity.
    + rewrite item_alloc_plain by assumption. simpl.
      split; [discriminate|contradiction].
  - intros Hnode. rewrite item_alloc_plain by assumption.
    unfold memdup, emit. simpl. now rewrite <- app_assoc.
  - intros Hnode Hpayload Hsrc Hlen.
    rewrite item_alloc_plain by assumption. eexists. split; [reflexivity|].
    unfold memdup. rewrite (proj2 (Z.eqb_neq _ _) Hpayload). simpl.
    rewrite Hsrc. simpl. split; [apply lookup_insert_eq|].
    split; [rewrite length_take; lia|]. now rewrite <- app_assoc.
Qed.

Lemma item_alloc_without_hooks_witness :
  item_alloc (Some fresh_queue) 50 4 100 NULL caller_world
  = (Some (Item 100 (Iovec NULL 4) (Iovec NULL 0)),
     World (bufs caller_world)
           (trace caller_world ++ [EvCalloc 100; EvMemdup 50 4 NULL])).
Proof.
  destruct (item_alloc_without_hooks fresh_queue 50 4 100 NULL caller_world
              [] eq_refl)
    as (_ & _ & Hfailed & _).
  apply Hfailed. vm_compute. discriminate.
Defined.

(** C8 as stated fails: the queue is not NULL and has no hooks, the node is
    allocated, the duplication fails (memdup returns NULL), and
    [item_alloc] still returns an item, whose buffer is NULL with length
    4. *)
Lemma failed_duplication_still_returns_item :
  fst (item_alloc (Some fresh_queue) 50 4 100 NULL caller_world)
  = Some (Item 100 (Iovec NULL 4) (Iovec NULL 0))
  /\ trace (snd (item_alloc (Some fresh_queue) 50 4 100 NULL caller_world))
     = [EvCalloc 100; EvMemdup 50 4 NULL].
Proof. split; reflexivity. Qed.

(** ** The overflow policies *)

Lemma holds_Queue (qaddr : ptr) (l : list item) (d m : Z) (md : queue_mode)
    (a f : ptr) :
  NoDup (map item_addr l) -> holds (Queue qaddr l d m md a f) l.
Proof. intros Hnd. now repeat split. Qed.

Lemma push_full_flush (q : queue) (l : list item) (it : item)
    (ws : list wait_event) (w : world) :
  holds q l ->
  depth q >= max_depth q ->
  mode q = QUEUE_FULL_FLUSH ->
  exists w',
    queue_push (Some q) (Some it) ws w
    = Returned 0 (Some (set_depth 1 (set_list [it] q))) w'
    /\ trace w'
       = trace w ++ flat_map (release_events (free_hook q)) l
                 ++ [EvCondSignal; EvCondSignal]
                 ++ depth_warning (set_depth 1 q)
    /\ forall p,
         (p ∈ flat_map (freed_by (free_hook q)) l -> bufs w' !! p = None)
         /\ (p ∉ flat_map (freed_by (free_hook q)) l ->
             bufs w' !! p = bufs w !! p).
Proof.
  intros Hq Hfull Hmode. unfold queue_push.
  rewrite (proj2 (Z.geb_le _ _)) by lia. rewrite Hmode.
  destruct (queue_flush_spec q l w Hq) as (w1 & -> & Htr & Hbufs).
  rewrite (push_locked_spec it _ [] w1);
    [|apply holds_set_list; constructor|apply not_elem_of_nil
     |simpl; unfold INT_MAX; lia].
  cbn [depth max_depth set_depth set_list set_links app].
  change (0 + 1) with 1. unfold depth_warning. cbn [depth max_depth set_depth].
  destruct (1 >? max_depth q); eexists; (split; [reflexivity|]);
    (split; [|exact Hbufs]);
    rewrite ?trace_emit, Htr, <- !app_assoc; reflexivity.
Qed.

Lemma push_full_ring (q : queue) (it old : item) (rest : list item)
    (ws : list wait_event) (w : world) :
  holds q (old :: rest) ->
  depth q >= max_depth q ->
  mode q = QUEUE_FULL_RING ->
  INT_MIN < depth q <= INT_MAX ->
  linked it rest = false ->
  exists w',
    queue_push (Some q) (Some it) ws w
    = Returned 0 (Some (set_list (rest ++ [it]) q)) w'
    /\ trace w'
       = trace w ++ release_events (free_hook q) old ++ [EvCondSignal]
                 ++ depth_warning q.
Proof.
  intros Hq Hfull Hmode [Hmin Hmax] Hfresh.
  unfold queue_push, queue_pop_free.
  rewrite (proj2 (Z.geb_le _ _)) by lia. rewrite Hmode.
  rewrite (queue_pop_cons ws q w old rest Hq Hmin). cbv iota beta.
  rewrite (push_locked_fresh it _ rest).
  2:{ apply holds_set_list. destruct Hq as (_ & _ & Hnd). simpl in Hnd.
      now apply NoDup_cons in Hnd as [_ Hnd]. }
  2:{ exact Hfresh. }
  2:{ simpl. lia. }
  cbn [depth max_depth set_depth set_list set_links queue_addr mode
       alloc_hook free_hook].
  rewrite Z.sub_add. unfold depth_warning.
  change (set_depth (depth q)
            (set_list (rest ++ [it])
               (set_depth (depth q - 1) (set_list rest q))))
    with (set_list (rest ++ [it]) q).
  destruct (depth q >? max_depth q); eexists; (split; [reflexivity|]);
    rewrite ?trace_emit, item_free_trace, <- ?app_assoc;
    cbn [free_hook]; now rewrite ?app_nil_r.
Qed.

Lemma not_elem_of_one (a b : item) :
  item_addr a <> item_addr b -> item_addr b ∉ map item_addr [a].
Proof. simpl. intros Hne Hin. apply list_elem_of_singleton in Hin. auto. Qed.

Lemma NoDup_two (a b : item) :
  item_addr a <> item_addr b -> NoDup (map item_addr [a; b]).
Proof.
  intros Hne. simpl. apply NoDup_cons. split; [|apply NoDup_singleton].
  intros Hin. apply list_elem_of_singleton in Hin. auto.
Qed.

(** C5: with [max_depth] 2 and the flush policy, pushing A, B and C into
    an empty queue returns 0 three times and leaves the queue holding C
    alone with depth 1, which [queue_get_depth] returns.  A and then B are
    released, and the flush signals, before the insertion of C signals. *)
Theorem flush_on_full (A B C : item) (qaddr ah fh : ptr)
    (wsA wsB wsC : list wait_event) (w : world) :
  item_addr A <> item_addr B ->
  exists w',
    run [OpPush (Some A) wsA; OpPush (Some B) wsB; OpPush (Some C) wsC;
         OpGetDepth]
        (Some (Queue qaddr [] 0 2 QUEUE_FULL_FLUSH ah fh)) w
    = Returned [RInt 0; RInt 0; RInt 0; RInt 1]
               (Some (Queue qaddr [C] 1 2 QUEUE_FULL_FLUSH ah fh)) w'
    /\ trace w'
       = trace w ++ [EvCondSignal; EvCondSignal]
                 ++ release_events fh A ++ release_events fh B
                 ++ [EvCondSignal; EvCondSignal].
Proof.
  intros Hab. cbn [run exec].
  rewrite (queue_push_room _ []);
    [|apply holds_Queue; constructor|simpl; lia|simpl; unfold INT_MAX; lia
     |simpl; apply not_elem_of_nil].
  change (set_depth _ (set_list _ _))
    with (Queue qaddr [A] 1 2 QUEUE_FULL_FLUSH ah fh).
  cbn [outcome_map].
  rewrite (queue_push_room _ [A]);
    [|apply holds_Queue, NoDup_singleton|simpl; lia
     |simpl; unfold INT_MAX; lia|now apply not_elem_of_one].
  change (set_depth _ (set_list _ _))
    with (Queue qaddr [A; B] 2 2 QUEUE_FULL_FLUSH ah fh).
  cbn [outcome_map].
  destruct (push_full_flush (Queue qaddr [A; B] 2 2 QUEUE_FULL_FLUSH ah fh)
              [A; B] C wsC (emit EvCondSignal (emit EvCondSignal w)))
    as (w1 & -> & Htr & _);
    [apply holds_Queue; now apply NoDup_two|simpl; lia|reflexivity|].
  change (set_depth _ (set_list _ _))
    with (Queue qaddr [C] 1 2 QUEUE_FULL_FLUSH ah fh).
  cbn [outcome_map run exec queue_get_depth depth Queue].
  eexists. split; [reflexivity|].
  rewrite Htr. simpl. rewrite app_nil_r, <- !app_assoc. reflexivity.
Qed.

Lemma flush_on_full_witness :
  exists w',
    run [OpPush (Some item_A) []; OpPush (Some item_B) [];
         OpPush (Some item_C) []; OpGetDepth]
        (Some (Queue 10 [] 0 2 QUEUE_FULL_FLUSH NULL NULL)) empty_world
    = Returned [RInt 0; RInt 0; RInt 0; RInt 1]
               (Some (Queue 10 [item_C] 1 2 QUEUE_FULL_FLUSH NULL NULL)) w'
    /\ trace w'
       = trace empty_world ++ [EvCondSignal; EvCondSignal]
         ++ release_events NULL item_A ++ release_events NULL item_B
         ++ [EvCondSignal; EvCondSignal].
Proof.
  apply (flush_on_full item_A item_B item_C 10 NULL NULL [] [] []
           empty_world).
  vm_compute. discriminate.
Defined.

(** C6: with [max_depth] 2 and the ring policy, pushing A, B and C into an
    empty queue returns 0 three times, releases A and nothing else, and
    leaves the queue holding B then C; two pops then return B and C and
    leave it empty. *)
Theorem ring_on_full (A B C : item) (qaddr ah fh : ptr)
    (wsA wsB wsC ws1 ws2 : list wait_event) (w : world) :
  item_addr A <> item_addr B ->
  item_addr B <> item_addr C ->
  exists w',
    run [OpPush (Some A) wsA; OpPush (Some B) wsB; OpPush (Some C) wsC]
        (Some (Queue qaddr [] 0 2 QUEUE_FULL_RING ah fh)) w
    = Returned [RInt 0; RInt 0; RInt 0]
               (Some (Queue qaddr [B; C] 2 2 QUEUE_FULL_RING ah fh)) w'
    /\ trace w'
       = trace w ++ [EvCondSignal; EvCondSignal]
                 ++ release_events fh A ++ [EvCondSignal]
    /\ run [OpPop ws1; OpPop ws2]
           (Some (Queue qaddr [B; C] 2 2 QUEUE_FULL_RING ah fh)) w'
       = Returned [RItem (Some B); RItem (Some C)]
                  (Some (Queue qaddr [] 0 2 QUEUE_FULL_RING ah fh)) w'.
Proof.
  intros Hab Hbc. cbn [run exec].
  rewrite (queue_push_room _ []);
    [|apply holds_Queue; constructor|simpl; lia|simpl; unfold INT_MAX; lia
     |simpl; apply not_elem_of_nil].
  change (set_depth _ (set_list _ _))
    with (Queue qaddr [A] 1 2 QUEUE_FULL_RING ah fh).
  cbn [outcome_map].
  rewrite (queue_push_room _ [A]);
    [|apply holds_Queue, NoDup_singleton|simpl; lia
     |simpl; unfold INT_MAX; lia|now apply not_elem_of_one].
  change (set_depth _ (set_list _ _))
    with (Queue qaddr [A; B] 2 2 QUEUE_FULL_RING ah fh).
  cbn [outcome_map].
  destruct (push_full_ring (Queue qaddr [A; B] 2 2 QUEUE_FULL_RING ah fh)
              C A [B] wsC (emit EvCondSignal (emit EvCondSignal w)))
    as (w1 & -> & Htr).
  { apply holds_Queue. now apply NoDup_two. }
  { simpl. lia. }
  { reflexivity. }
  { simpl. unfold INT_MIN, INT_MAX. lia. }
  { apply linked_false. now apply not_elem_of_one. }
  change (set_list _ _) with (Queue qaddr [B; C] 2 2 QUEUE_FULL_RING ah fh).
  cbn [outcome_map].
  eexists. split; [reflexivity|]. split.
  - rewrite Htr. simpl. rewrite <- !app_assoc. simpl.
    now rewrite ?app_nil_r.
  - cbn [run exec].
    rewrite (queue_pop_cons ws1 _ _ B [C]);
      [|apply holds_Queue; now apply NoDup_two
       |simpl; unfold INT_MIN; lia].
    change (set_depth _ (set_list _ _))
      with (Queue qaddr [C] 1 2 QUEUE_FULL_RING ah fh).
    cbn [outcome_map].
    rewrite (queue_pop_cons ws2 _ _ C []);
      [|apply holds_Queue, NoDup_singleton|simpl; unfold INT_MIN; lia].
    reflexivity.
Qed.

Lemma ring_on_full_witness :
  exists w',
    run [OpPush (Some item_A) []; OpPush (Some item_B) [];
         OpPush (Some item_C) []]
        (Some (Queue 10 [] 0 2 QUEUE_FULL_RING NULL NULL)) empty_world
    = Returned [RInt 0; RInt 0; RInt 0]
               (Some (Queue 10 [item_B; item_C] 2 2 QUEUE_FULL_RING
                            NULL NULL)) w'
    /\ trace w'
       = trace empty_world ++ [EvCondSignal; EvCondSignal]
         ++ release_events NULL item_A ++ [EvCondSignal]
    /\ run [OpPop []; OpPop []]
           (Some (Queue 10 [item_B; item_C] 2 2 QUEUE_FULL_RING NULL NULL))
           w'
       = Returned [RItem (Some item_B); RItem (Some item_C)]
                  (Some (Queue 10 [] 0 2 QUEUE_FULL_RING NULL NULL)) w'.
Proof.
  apply (ring_on_full item_A item_B item_C 10 NULL NULL [] [] [] [] []
           empty_world).
  - vm_compute. discriminate.
  - vm_compute. discriminate.
Defined.

(** ** Defined behaviour

    A call has a defined outcome when the depth counter is right, the
    counter and the maximal depth are within the range of [int], the pushed
    node is not linked yet, and no other thread inserts during the
    waits. *)

Lemma shrunk_refl (q : queue) (l : list item) : sound q l -> shrunk q q.
Proof. intros Hs. repeat split; eauto. lia. Qed.

Lemma shrunk_trans (q1 q2 q3 : queue) :
  shrunk q1 q2 -> shrunk q2 q3 -> shrunk q1 q3.
Proof.
  intros (_ & Hlen1 & Hl1) (Hok & Hlen2 & Hl2).
  split; [exact Hok|]. split; [lia|auto].
Qed.

Lemma pop_locked_shrunk (q : queue) (l : list item) :
  sound q l ->
  exists r q', pop_locked q = Some (r, q') /\ shrunk q q'
               /\ (depth q' < depth q \/ depth q' = 0).
Proof.
  intros Hs. pose proof (pop_locked_sound q l Hs) as Hpop.
  pose proof Hs as [Hq Hd]. destruct l as [|it l].
  - exists None, q. split; [exact Hpop|].
    split; [now apply shrunk_refl with []|]. right. now rewrite Hd.
  - destruct Hpop as [Hpop Hs'].
    exists (Some it), (set_depth (depth q - 1) (set_list l q)).
    split; [exact Hpop|]. split; [|left; simpl; lia].
    split; [eauto|]. split; [simpl; lia|].
    intros x. rewrite (recorded_holds q _ x Hq).
    rewrite (recorded_holds _ l x (proj1 Hs')).
    unfold linked. simpl. intros Hx.
    now apply orb_false_elim in Hx as [_ Hx].
Qed.

Lemma flush_locked_shrunk (q : queue) (l : list item) (w : world) :
  sound q l ->
  exists q' w', flush_locked q w = Some (q', w') /\ shrunk q q'.
Proof.
  intros Hs. destruct (flush_locked_sound q l w Hs) as (w' & Hfl & Hs').
  eexists _, w'. split; [exact Hfl|].
  pose proof (sound_depth q l Hs). split; [eauto|]. split; [simpl; lia|].
  intros x _. now rewrite (recorded_holds _ [] x (proj1 Hs')).
Qed.

Lemma interfere_calm (cs : list critical) :
  forall q w l,
    sound q l ->
    Forall (fun c => inserts c = false) cs ->
    exists q' w', interfere cs q w = Some (q', w') /\ shrunk q q'.
Proof.
  induction cs as [|c cs IH]; intros q w l Hs Hcalm; simpl.
  - exists q, w. split; [reflexivity|now apply shrunk_refl with l].
  - apply Forall_cons in Hcalm as [Hc Hcalm].
    assert (exists q1 w1, interfere1 c q w = Some (q1, w1) /\ shrunk q q1)
      as (q1 & w1 & -> & Hshr).
    { destruct c as [it| |]; simpl in *; [discriminate| |].
      - now apply flush_locked_shrunk with l.
      - destruct (pop_locked_shrunk q l Hs) as (r & q1 & -> & Hshr & _).
        now exists q1, w. }
    simpl. destruct Hshr as [[l1 Hs1] Hrest].
    destruct (IH q1 w1 l1 Hs1 Hcalm) as (q' & w' & -> & Hshr').
    exists q', w'. split; [reflexivity|].
    apply shrunk_trans with q1; [|exact Hshr']. split; eauto.
Qed.

Lemma wait_nonempty_calm (ws : list wait_event) :
  forall q w l,
    sound q l ->
    Forall calm ws ->
    (exists q' w',
        wait_nonempty ws q w = Returned tt (Some q') w' /\ shrunk q q')
    \/ (exists q' w', wait_nonempty ws q w = Blocked q' w').
Proof.
  induction ws as [|ev ws IH]; intros q w l Hs Hcalm; simpl.
  - destruct (list_empty q); [right; eauto|].
    left. exists q, w. split; [reflexivity|now apply shrunk_refl with l].
  - destruct (list_empty q).
    2:{ left. exists q, w. split; [reflexivity|].
        now apply shrunk_refl with l. }
    apply Forall_cons in Hcalm as [Hev Hcalm].
    destruct (interfere_calm (others ev) q w l Hs Hev)
      as (q1 & w1 & -> & Hshr).
    destruct (wait_ret ev =? 0); [left; eauto|].
    pose proof Hshr as [[l1 Hs1] _].
    destruct (IH q1 (report_wait (wait_ret ev) w1) l1 Hs1 Hcalm)
      as [(q' & w' & -> & Hshr')|(q' & w' & ->)]; [left|right; eauto].
    exists q', w'. split; [reflexivity|]. eapply shrunk_trans; eauto.
Qed.

Lemma queue_pop_defined (q : queue) (l : list item) (ws : list wait_event)
    (w : world) :
  sound q l ->
  Forall calm ws ->
  (exists r q' w',
      queue_pop (Some q) ws w = Returned r (Some q') w'
      /\ shrunk q q' /\ (depth q' < depth q \/ depth q' = 0))
  \/ (exists q' w', queue_pop (Some q) ws w = Blocked q' w').
Proof.
  intros Hs Hcalm. unfold queue_pop.
  destruct (wait_nonempty_calm ws q w l Hs Hcalm)
    as [(q1 & w1 & -> & Hshr)|(q1 & w1 & ->)]; [left|right; eauto].
  pose proof Hshr as [[l1 Hs1] _].
  destruct (pop_locked_shrunk q1 l1 Hs1)
    as (r & q' & -> & Hshr' & Hless).
  exists r, q', w1. split; [reflexivity|].
  split; [eapply shrunk_trans; eauto|].
  destruct Hshr as (_ & Hle & _). lia.
Qed.

Lemma queue_pop_free_defined (q : queue) (l : list item)
    (ws : list wait_event) (w : world) :
  sound q l ->
  Forall calm ws ->
  (exists q' w',
      queue_pop_free (Some q) ws w = Returned tt (Some q') w'
      /\ shrunk q q' /\ (depth q' < depth q \/ depth q' = 0))
  \/ (exists q' w', queue_pop_free (Some q) ws w = Blocked q' w').
Proof.
  intros Hs Hcalm. unfold queue_pop_free.
  destruct (queue_pop_defined q l ws w Hs Hcalm)
    as [(r & q' & w' & -> & Hshr & Hless)|(q' & w' & ->)];
    [left|right; eauto].
  destruct r; eauto 6.
Qed.

(** X14: a push has a defined outcome.  On a queue whose counter is
    right, with the counter and the maximal depth within the range of
    [int], a push of a node that is not linked yet, during whose waits no
    other thread inserts, either returns 0 or is still asleep in the wait
    of the eviction step: the counter does not overflow, in either mode and
    also when the depth is above the maximal depth. *)
Lemma queue_push_defined (q : queue) (l : list item) (it : item)
    (ws : list wait_event) (w : world) :
  sound q l ->
  depth q <= INT_MAX ->
  max_depth q <= INT_MAX ->
  linked it l = false ->
  Forall calm ws ->
  (exists q' w', queue_push (Some q) (Some it) ws w = Returned 0 (Some q') w')
  \/ (exists q' w', queue_push (Some q) (Some it) ws w = Blocked q' w').
Proof.
  intros Hs Hd Hmax Hfresh Hcalm. unfold queue_push.
  assert (forall q1 w1 l1,
             sound q1 l1 -> recorded it q1 = false -> depth q1 < INT_MAX ->
             exists q' w',
               match push_locked it q1 w1 with
               | Some (q2, w2) =>
                   Returned 0 (Some q2)
                     (if depth q2 >? max_depth q2
                      then emit (EvPrintf "queue depth reach max depth %d\n"
                                          [depth q2]) w2
                      else w2)
               | None => Undefined
               end = Returned 0 (Some q') w') as Hins.
  { intros q1 w1 l1 [Hq1 _] Hrec Hlt.
    rewrite (recorded_holds q1 l1 it Hq1) in Hrec.
    rewrite (push_locked_fresh it q1 l1 w1 Hq1 Hrec Hlt). eauto. }
  assert (recorded it q = false) as Hrec
    by now rewrite (recorded_holds q l it (proj1 Hs)).
  destruct (depth q >=? max_depth q) eqn:Hfull.
  - destruct (mode q).
    + unfold queue_flush.
      destruct (flush_locked_shrunk q l w Hs)
        as (q1 & w1 & Hfl & [l1 Hs1] & Hle & Hkeep).
      rewrite Hfl. left.
      apply flush_locked_inv in Hfl as (q2 & _ & Hq1).
      apply (Hins q1 w1 l1 Hs1 (Hkeep it Hrec)).
      rewrite Hq1. simpl. unfold INT_MAX. lia.
    + destruct (queue_pop_free_defined q l ws w Hs Hcalm)
        as [(q1 & w1 & -> & ([l1 Hs1] & _ & Hl) & Hless)|(q1 & w1 & ->)];
        [left|right; eauto].
      apply (Hins q1 w1 l1 Hs1 (Hl it Hrec)). unfold INT_MAX in *. lia.
  - left. apply (Hins q w l Hs Hrec).
    rewrite Z.geb_leb in Hfull. apply Z.leb_gt in Hfull. lia.
Qed.

Lemma queue_push_defined_witness :
  (exists q' w',
      queue_push (Some (Queue 10 [item_A; item_B] 2 1 QUEUE_FULL_RING
                              NULL NULL)) (Some item_C) [] empty_world
      = Returned 0 (Some q') w')
  \/ (exists q' w',
         queue_push (Some (Queue 10 [item_A; item_B] 2 1 QUEUE_FULL_RING
                                 NULL NULL)) (Some item_C) [] empty_world
         = Blocked q' w').
Proof.
  apply (queue_push_defined
           (Queue 10 [item_A; item_B] 2 1 QUEUE_FULL_RING NULL NULL)
           [item_A; item_B] item_C [] empty_world).
  - split; [|reflexivity]. apply holds_Queue.
    apply (bool_decide_unpack _). vm_compute. exact I.
  - vm_compute. discriminate.
  - vm_compute. discriminate.
  - reflexivity.
  - constructor.
Defined.

(** ** NULL arguments *)

Lemma exec_null_fails (o : op) (w : world) :
  o <> OpGetDepth ->
  exists r w',
    exec o None w = Returned r None w'
    /\ (r = RInt (-1) \/ r = RItem None \/ r = RVoid)
    /\ bufs w' = bufs w
    /\ exists evs,
         trace w' = trace w ++ evs
         /\ Forall (fun e => is_printf e = true) evs.
Proof.
  intros Ho.
  destruct o as [m|a f|d|it ws|ws|ws| |]; simpl; try contradiction;
    eexists _, _; (split; [reflexivity|]);
    (split; [auto|]); (split; [reflexivity|]);
    first [ exists []; now rewrite app_nil_r
          | eexists; split; [reflexivity|]; repeat constructor ].
Qed.

(** X1: NULL arguments.  Every call on a NULL queue other than
    [queue_get_depth] fails at once and has no effect beyond the message
    that [queue_push] and [queue_pop] print: the setters and [queue_flush]
    return -1, [item_alloc] returns no item without allocating, [item_free]
    and [queue_destroy] do nothing.  A NULL item is rejected by
    [queue_push] before the overflow check, so that even a full queue keeps
    all its items; [item_free] ignores it.  [queue_get_depth] reads the
    depth of a NULL queue without a test, which has no defined result.  A
    sequence of calls on a NULL queue in which [queue_get_depth] does not
    occur therefore runs to its end: every call returns a failure, the
    buffers are left alone and no call is made but printf. *)
Theorem null_arguments_rejected (q : queue) (it : item) (m : queue_mode)
    (a f : ptr) (d : Z) (src : ptr) (len : Z) (node payload : ptr)
    (ws : list wait_event) (w : world) (ops : list op) :
  Forall (fun o => o <> OpGetDepth) ops ->
  queue_set_mode None m = (-1, None)
  /\ queue_set_hook None a f = (-1, None)
  /\ queue_set_depth None d = (-1, None)
  /\ queue_flush None w = Returned (-1) None w
  /\ queue_destroy None w = Returned tt None w
  /\ item_alloc None src len node payload w = (None, w)
  /\ item_free None (Some it) w = w
  /\ item_free (Some q) None w = w
  /\ queue_push None (Some it) ws w
     = Returned (-1) None (emit (EvPrintf "invalid paraments!\n" []) w)
  /\ queue_push (Some q) None ws w
     = Returned (-1) (Some q) (emit (EvPrintf "invalid paraments!\n" []) w)
  /\ queue_pop_free None ws w
     = Returned tt None (emit (EvPrintf "invalid parament!\n" []) w)
  /\ queue_get_depth None = None
  /\ exec OpGetDepth None w = Undefined
  /\ exists rs w',
       run ops None w = Returned rs None w'
       /\ length rs = length ops
       /\ Forall (fun r => r = RInt (-1) \/ r = RItem None \/ r = RVoid) rs
       /\ bufs w' = bufs w
       /\ exists evs,
            trace w' = trace w ++ evs
            /\ Forall (fun e => is_printf e = true) evs.
Proof.
  intros Hops. do 13 (split; [reflexivity|]).
  revert w. induction ops as [|o ops IH]; intros w; cbn [run].
  - exists [], w. repeat split; [constructor|].
    exists []. now rewrite app_nil_r.
  - apply Forall_cons in Hops as [Ho Hops].
    destruct (exec_null_fails o w Ho)
      as (r & w1 & -> & Hr & Hbufs & evs1 & Htr1 & Hev1).
    destruct (IH Hops w1)
      as (rs & w' & -> & Hlen & Hrs & Hbufs' & evs & Htr & Hev).
    exists (r :: rs), w'. split; [reflexivity|].
    split; [simpl; now rewrite Hlen|]. split; [now constructor|].
    split; [congruence|].
    exists (evs1 ++ evs). split; [now rewrite Htr, Htr1, <- app_assoc|].
    now apply Forall_app.
Qed.

Lemma null_arguments_rejected_witness :
  exists rs w',
    run [OpSetDepth 5; OpPush (Some item_A) []; OpPop []; OpPopFree [];
         OpFlush] None empty_world
    = Returned rs None w'
    /\ length rs = 5%nat
    /\ Forall (fun r => r = RInt (-1) \/ r = RItem None \/ r = RVoid) rs
    /\ bufs w' = bufs empty_world
    /\ exists evs,
         trace w' = trace empty_world ++ evs
         /\ Forall (fun e => is_printf e = true) evs.
Proof.
  destruct (null_arguments_rejected fresh_queue item_A QUEUE_FULL_RING 0 0 5
              50 4 100 1000 [] empty_world
              [OpSetDepth 5; OpPush (Some item_A) []; OpPop []; OpPopFree [];
               OpFlush])
    as (_ & _ & _ & _ & _ & _ & _ & _ & _ & _ & _ & _ & _ & Hrun).
  - repeat constructor; discriminate.
  - exact Hrun.
Defined.

(** ** The overflow policies in general *)

(** X2: [queue_flush] on a queue that is not NULL and holds the items [l]
    returns 0, releases every held item once, oldest first, by the release
    path of the current free hook, signals once, and leaves the container
    empty with depth 0 whatever the counter was; the configuration stays.
    A second flush releases nothing and signals again.  A pop that follows
    waits. *)
Theorem flush_releases_everything (q : queue) (l : list item)
    (ws : list wait_event) (w : world) :
  holds q l ->
  exists w',
    queue_flush (Some q) w
    = Returned 0 (Some (set_depth 0 (set_list [] q))) w'
    /\ trace w'
       = trace w ++ flat_map (release_events (free_hook q)) l
                 ++ [EvCondSignal]
    /\ holds (set_depth 0 (set_list [] q)) []
    /\ config (set_depth 0 (set_list [] q)) = config q
    /\ queue_flush (Some (set_depth 0 (set_list [] q))) w'
       = Returned 0 (Some (set_depth 0 (set_list [] q)))
                  (emit EvCondSignal w')
    /\ (Forall quiet ws ->
        exists w'',
          queue_pop (Some (set_depth 0 (set_list [] q))) ws w'
          = Blocked (set_depth 0 (set_list [] q)) w'').
Proof.
  intros Hq.
  destruct (queue_flush_spec q l w Hq) as (w' & Hfl & Htr & _).
  exists w'. split; [exact Hfl|]. split; [exact Htr|].
  split; [apply holds_set_list; constructor|].
  split; [reflexivity|]. split; [reflexivity|].
  intros Hquiet. unfold queue_pop.
  rewrite wait_nonempty_quiet by (auto; reflexivity). eauto.
Qed.

Lemma flush_releases_everything_witness :
  exists w',
    queue_flush (Some (Queue 10 [item_A; item_B] 2 QUEUE_MAX_DEPTH
                             QUEUE_FULL_FLUSH NULL NULL)) empty_world
    = Returned 0 (Some fresh_queue) w'
    /\ trace w'
       = trace empty_world
         ++ flat_map (release_events NULL) [item_A; item_B]
         ++ [EvCondSignal]
    /\ holds fresh_queue []
    /\ config fresh_queue
       = (QUEUE_FULL_FLUSH, QUEUE_MAX_DEPTH, NULL, NULL)
    /\ queue_flush (Some fresh_queue) w'
       = Returned 0 (Some fresh_queue) (emit EvCondSignal w')
    /\ (Forall quiet [timeout_wait] ->
        exists w'',
          queue_pop (Some fresh_queue) [timeout_wait] w'
          = Blocked fresh_queue w'').
Proof.
  apply (flush_releases_everything
           (Queue 10 [item_A; item_B] 2 QUEUE_MAX_DEPTH QUEUE_FULL_FLUSH
                  NULL NULL) [item_A; item_B] [timeout_wait] empty_world).
  apply holds_Queue. apply (bool_decide_unpack _). vm_compute. exact I.
Defined.

(** X3: the flush policy in general.  When the depth counter has reached
    the maximal depth, a push in flush mode releases every held item,
    oldest first, and leaves the pushed item alone in the queue with depth
    1, whatever the counter was; it warns exactly when the maximal depth is
    below 1.  A pop that follows returns the pushed item and leaves the
    queue empty. *)
Theorem flush_policy_keeps_newest_only (q : queue) (l : list item)
    (it : item) (ws ws' : list wait_event) (w : world) :
  holds q l ->
  depth q >= max_depth q ->
  mode q = QUEUE_FULL_FLUSH ->
  exists w',
    queue_push (Some q) (Some it) ws w
    = Returned 0 (Some (set_depth 1 (set_list [it] q))) w'
    /\ trace w'
       = trace w ++ flat_map (release_events (free_hook q)) l
                 ++ [EvCondSignal; EvCondSignal]
                 ++ depth_warning (set_depth 1 q)
    /\ queue_pop (Some (set_depth 1 (set_list [it] q))) ws' w'
       = Returned (Some it) (Some (set_depth 0 (set_list [] q))) w'.
Proof.
  intros Hq Hfull Hmode.
  destruct (push_full_flush q l it ws w Hq Hfull Hmode)
    as (w' & Hpush & Htr & _).
  exists w'. split; [exact Hpush|]. split; [exact Htr|].
  rewrite (queue_pop_cons ws' _ w' it []);
    [reflexivity|apply holds_set_list, NoDup_singleton
    |simpl; unfold INT_MIN; lia].
Qed.

Lemma flush_policy_keeps_newest_only_witness :
  exists w',
    queue_push (Some (Queue 10 [item_A; item_B] 2 0 QUEUE_FULL_FLUSH
                            NULL NULL)) (Some item_C) [] empty_world
    = Returned 0 (Some (Queue 10 [item_C] 1 0 QUEUE_FULL_FLUSH NULL NULL))
               w'
    /\ trace w'
       = [EvFree 1000; EvFree 100; EvFree 2000; EvFree 200;
          EvCondSignal; EvCondSignal;
          EvPrintf "queue depth reach max depth %d\n" [1]]
    /\ queue_pop (Some (Queue 10 [item_C] 1 0 QUEUE_FULL_FLUSH NULL NULL))
                 [] w'
       = Returned (Some item_C)
                  (Some (Queue 10 [] 0 0 QUEUE_FULL_FLUSH NULL NULL)) w'.
Proof.
  apply (flush_policy_keeps_newest_only
           (Queue 10 [item_A; item_B] 2 0 QUEUE_FULL_FLUSH NULL NULL)
           [item_A; item_B] item_C [] [] empty_world).
  - apply holds_Queue. apply (bool_decide_unpack _). vm_compute. exact I.
  - vm_compute. discriminate.
  - reflexivity.
Defined.

(** X4: the ring policy in general.  When the depth counter has reached
    the maximal depth and the queue holds items, a push in ring mode never
    waits: it releases the oldest item and nothing else, appends the pushed
    node, and leaves the depth as it was, so that a queue whose maximal
    depth was lowered below its depth stays above it and every such push
    warns.  The following pops return the remaining older items and then
    the pushed one. *)
Theorem ring_policy_evicts_oldest_only (q : queue) (it old : item)
    (rest : list item) (ws : list wait_event)
    (pops : list (list wait_event)) (w : world) :
  sound q (old :: rest) ->
  depth q <= INT_MAX ->
  depth q >= max_depth q ->
  mode q = QUEUE_FULL_RING ->
  linked it rest = false ->
  length pops = S (length rest) ->
  exists w' q'',
    queue_push (Some q) (Some it) ws w
    = Returned 0 (Some (set_list (rest ++ [it]) q)) w'
    /\ holds (set_list (rest ++ [it]) q) (rest ++ [it])
    /\ trace w'
       = trace w ++ release_events (free_hook q) old ++ [EvCondSignal]
                 ++ depth_warning q
    /\ run (map OpPop pops) (Some (set_list (rest ++ [it]) q)) w'
       = Returned (map (fun x => RItem (Some x)) (rest ++ [it]))
                  (Some q'') w'
    /\ holds q'' [] /\ depth q'' = 0.
Proof.
  intros [Hq Hd] Hmax Hfull Hmode Hfresh Hlen. simpl in Hd.
  destruct (push_full_ring q it old rest ws w Hq Hfull Hmode) as
    (w' & Hpush & Htr); [unfold INT_MIN; lia|exact Hfresh|].
  assert (holds (set_list (rest ++ [it]) q) (rest ++ [it])) as Hq'.
  { apply holds_set_list, (holds_snoc (set_list rest q)).
    - apply holds_set_list. destruct Hq as (_ & _ & Hnd). simpl in Hnd.
      now apply NoDup_cons in Hnd as [_ Hnd].
    - now apply linked_false. }
  destruct (run_pops (rest ++ [it]) pops (set_list (rest ++ [it]) q) w')
    as (q'' & Hrun & Hhead & Hdepth & _).
  - split; [exact Hq'|]. simpl. rewrite length_app. simpl. lia.
  - rewrite length_app. simpl. lia.
  - exists w', q''. split; [exact Hpush|]. split; [exact Hq'|].
    split; [exact Htr|]. split; [exact Hrun|]. split; assumption.
Qed.

Lemma ring_policy_evicts_oldest_only_witness :
  exists w' q'',
    queue_push (Some (Queue 10 [item_A; item_B] 2 1 QUEUE_FULL_RING
                            NULL NULL)) (Some item_C) [] empty_world
    = Returned 0 (Some (Queue 10 [item_B; item_C] 2 1 QUEUE_FULL_RING
                              NULL NULL)) w'
    /\ holds (Queue 10 [item_B; item_C] 2 1 QUEUE_FULL_RING NULL NULL)
             [item_B; item_C]
    /\ trace w'
       = [EvFree 1000; EvFree 100; EvCondSignal;
          EvPrintf "queue depth reach max depth %d\n" [2]]
    /\ run (map OpPop [[]; []])
           (Some (Queue 10 [item_B; item_C] 2 1 QUEUE_FULL_RING NULL NULL))
           w'
       = Returned [RItem (Some item_B); RItem (Some item_C)] (Some q'') w'
    /\ holds q'' [] /\ depth q'' = 0.
Proof.
  apply (ring_policy_evicts_oldest_only
           (Queue 10 [item_A; item_B] 2 1 QUEUE_FULL_RING NULL NULL)
           item_C item_A [item_B] [] [[]; []] empty_world).
  - split; [|reflexivity]. apply holds_Queue.
    apply (bool_decide_unpack _). vm_compute. exact I.
  - vm_compute. discriminate.
  - vm_compute. discriminate.
  - reflexivity.
  - reflexivity.
  - reflexivity.
Defined.

Lemma trace_iter_signal (n : nat) (w : world) :
  trace (Nat.iter n (emit EvCondSignal) w)
  = trace w ++ repeat EvCondSignal n.
Proof.
  induction n as [|n IH]; simpl; [now rewrite app_nil_r|].
  rewrite IH, <- app_assoc. f_equal.
  clear. induction n as [|n IH]; [reflexivity|]. simpl. now rewrite IH.
Qed.

(** X5: first in, first out across what the queue already holds.  Items
    pushed without overflow into a consistent queue that holds items are
    appended behind them, and pops return first the items held before, then
    the pushed ones, each in its order. *)
Theorem fifo_after_held_items (q : queue) (l : list item) (w : world)
    (items : list (item * list wait_event))
    (pops : list (list wait_event)) :
  sound q l ->
  NoDup (map item_addr (l ++ map fst items)) ->
  depth q + Z.of_nat (length items) <= max_depth q ->
  max_depth q <= INT_MAX ->
  length pops = (length l + length items)%nat ->
  exists q' w',
    run (map push_op items ++ map OpPop pops) (Some q) w
    = Returned (repeat (RInt 0) (length items)
                ++ map (fun it => RItem (Some it))
                       (l ++ map fst items))
               (Some q') w'
    /\ holds q' [] /\ depth q' = 0
    /\ trace w' = trace w ++ repeat EvCondSignal (length items).
Proof.
  intros Hs Hnd Hroom Hmax Hlen.
  destruct (run_pushes items q l w Hs Hnd Hroom Hmax)
    as (qm & Hpush & Hhead & Hdepth & _).
  destruct (run_pops (l ++ map fst items) pops qm
              (Nat.iter (length items) (emit EvCondSignal) w))
    as (q' & Hpop & Hhead' & Hdepth' & _).
  - split; [exact Hhead|]. destruct Hs as [_ Hd].
    rewrite Hdepth, Hd, length_app, length_map. lia.
  - now rewrite length_app, length_map.
  - exists q', (Nat.iter (length items) (emit EvCondSignal) w).
    split; [exact (run_app _ _ _ _ _ _ _ _ _ _ Hpush Hpop)|].
    split; [exact Hhead'|]. split; [exact Hdepth'|].
    apply trace_iter_signal.
Qed.

Lemma fifo_after_held_items_witness :
  exists q' w',
    run (map push_op [(item_B, []); (item_C, [])] ++ map OpPop [[]; []; []])
        (Some (Queue 10 [item_A] 1 QUEUE_MAX_DEPTH QUEUE_FULL_RING NULL NULL))
        empty_world
    = Returned (repeat (RInt 0) 2
                ++ map (fun it => RItem (Some it)) [item_A; item_B; item_C])
               (Some q') w'
    /\ holds q' [] /\ depth q' = 0
    /\ trace w' = trace empty_world ++ repeat EvCondSignal 2.
Proof.
  apply (fifo_after_held_items
           (Queue 10 [item_A] 1 QUEUE_MAX_DEPTH QUEUE_FULL_RING NULL NULL)
           [item_A] empty_world [(item_B, []); (item_C, [])] [[]; []; []]).
  - split; [|reflexivity]. apply holds_Queue, NoDup_singleton.
  - apply (bool_decide_unpack _). vm_compute. exact I.
  - vm_compute. discriminate.
  - vm_compute. discriminate.
  - reflexivity.
Defined.

(** ** Waiting and arrivals *)

Lemma wait_nonempty_quiet_prefix (pre : list wait_event) :
  forall ws q w,
    list_empty q = true ->
    Forall quiet pre ->
    wait_nonempty (pre ++ ws) q w = wait_nonempty ws q (reports pre w).
Proof.
  intros ws q w Hq Hquiet. apply wait_nonempty_app.
  now apply wait_nonempty_quiet.
Qed.

Lemma wait_nonempty_arrival (q : queue) (it : item) (ret : Z)
    (ws : list wait_event) (w : world) :
  holds q [] ->
  depth q = 0 ->
  wait_nonempty (WaitEvent [OtherInsert it] ret :: ws) q w
  = Returned tt (Some (set_depth 1 (set_list [it] q)))
             (if ret =? 0 then emit EvCondSignal w
              else report_wait ret (emit EvCondSignal w)).
Proof.
  intros Hq Hd. cbn [wait_nonempty others wait_ret interfere interfere1].
  rewrite (list_empty_holds q [] Hq).
  rewrite (push_locked_spec it q [] w Hq);
    [|apply not_elem_of_nil|rewrite Hd; unfold INT_MAX; lia].
  rewrite Hd. cbn [mbind option_bind app]. change (0 + 1) with 1.
  destruct (ret =? 0); [reflexivity|].
  apply wait_nonempty_cons.
  apply (list_empty_holds _ [it]). apply sound_set; [|reflexivity].
  apply NoDup_singleton.
Qed.

(** X6: an item that another thread inserts while a consumer waits on an
    empty queue is returned to the consumer, after any number of waits that
    timed out or were interrupted before, and whatever the wait during
    which it arrived returns: a wake-up, or a timeout, after which the loop
    finds the container filled.  The queue is empty again afterwards. *)
Theorem pop_returns_arriving_item (q : queue) (it : item) (ret : Z)
    (pre ws : list wait_event) (w : world) :
  holds q [] ->
  depth q = 0 ->
  Forall quiet pre ->
  exists w',
    queue_pop (Some q) (pre ++ WaitEvent [OtherInsert it] ret :: ws) w
    = Returned (Some it) (Some q) w'.
Proof.
  intros Hq Hd Hquiet. unfold queue_pop.
  rewrite wait_nonempty_quiet_prefix;
    [|exact (list_empty_holds q [] Hq)|exact Hquiet].
  rewrite wait_nonempty_arrival by assumption.
  rewrite (pop_locked_cons it [] (set_depth 1 (set_list [it] q)));
    [|apply holds_set_list, NoDup_singleton|simpl; unfold INT_MIN; lia].
  eexists. f_equal. f_equal.
  destruct Hq as (Hh & He & _). destruct q; simpl in *. now subst.
Qed.

Lemma pop_returns_arriving_item_witness :
  exists w',
    queue_pop (Some fresh_queue)
              ([timeout_wait; WaitEvent [] EINTR]
               ++ WaitEvent [OtherInsert item_A] ETIMEDOUT :: [])
              empty_world
    = Returned (Some item_A) (Some fresh_queue) w'.
Proof.
  apply (pop_returns_arriving_item fresh_queue item_A ETIMEDOUT
           [timeout_wait; WaitEvent [] EINTR] [] empty_world).
  - apply holds_Queue. constructor.
  - reflexivity.
  - repeat constructor; discriminate.
Defined.

(** X7: waiting by timeouts leaves no trace.  A pop, or a pop-and-release,
    on an empty queue whose waits all time out while no other thread
    touches the container is still waiting after any number of them, with
    the queue and the world exactly as they were. *)
Theorem timeouts_change_nothing (q : queue) (ws : list wait_event)
    (w : world) :
  list_empty q = true ->
  Forall (fun ev => others ev = [] /\ wait_ret ev = ETIMEDOUT) ws ->
  queue_pop (Some q) ws w = Blocked q w
  /\ queue_pop_free (Some q) ws w = Blocked q w.
Proof.
  intros Hq Htimeouts.
  assert (wait_nonempty ws q w = Blocked q w) as Hwait.
  { revert w. induction ws as [|ev ws IH]; intros w; simpl; rewrite Hq;
      [reflexivity|].
    apply Forall_cons in Htimeouts as [[Hnone Hret] Htimeouts].
    rewrite Hnone, Hret. simpl. now apply IH. }
  unfold queue_pop_free, queue_pop. now rewrite Hwait.
Qed.

Lemma timeouts_change_nothing_witness :
  queue_pop (Some fresh_queue) [timeout_wait; timeout_wait] empty_world
  = Blocked fresh_queue empty_world
  /\ queue_pop_free (Some fresh_queue) [timeout_wait; timeout_wait]
                    empty_world
     = Blocked fresh_queue empty_world.
Proof.
  apply (timeouts_change_nothing fresh_queue [timeout_wait; timeout_wait]
           empty_world).
  - reflexivity.
  - repeat constructor.
Defined.

(** X8: with a maximal depth of 0 or less and the ring policy, the
    eviction step of a push onto an empty queue takes the first item that
    another thread inserts meanwhile: that item is released without ever
    being returned to a consumer, and the pushed item is inserted in its
    place, with the warning that the depth 1 exceeds the maximal depth. *)
Theorem ring_eviction_releases_arriving_item (q : queue) (it other : item)
    (ret : Z) (ws : list wait_event) (w : world) :
  max_depth q <= 0 ->
  mode q = QUEUE_FULL_RING ->
  holds q [] ->
  depth q = 0 ->
  exists w',
    queue_push (Some q) (Some it) (WaitEvent [OtherInsert other] ret :: ws) w
    = Returned 0 (Some (set_depth 1 (set_list [it] q))) w'
    /\ trace w'
       = trace (if ret =? 0 then emit EvCondSignal w
                else report_wait ret (emit EvCondSignal w))
         ++ release_events (free_hook q) other
         ++ [EvCondSignal; EvPrintf "queue depth reach max depth %d\n" [1]].
Proof.
  intros Hmax Hmode Hq Hd. unfold queue_push, queue_pop_free, queue_pop.
  rewrite Hd, Hmode. rewrite (proj2 (Z.geb_le _ _)) by lia.
  rewrite wait_nonempty_arrival by assumption.
  rewrite (pop_locked_cons other [] (set_depth 1 (set_list [other] q)));
    [|apply holds_set_list, NoDup_singleton|simpl; unfold INT_MIN; lia].
  cbv iota beta.
  rewrite (push_locked_spec it _ []);
    [|apply holds_set_list; constructor|apply not_elem_of_nil
     |simpl; unfold INT_MAX; lia].
  cbn [depth max_depth set_depth set_list set_links queue_addr mode
       alloc_hook free_hook app].
  change (1 - 1 + 1) with 1.
  rewrite Z.gtb_ltb, (proj2 (Z.ltb_lt _ _)) by lia.
  eexists. split; [reflexivity|].
  rewrite !trace_emit, item_free_trace, <- !app_assoc. reflexivity.
Qed.

Lemma ring_eviction_releases_arriving_item_witness :
  exists w',
    queue_push (Some (Queue 10 [] 0 0 QUEUE_FULL_RING NULL NULL))
               (Some item_A) (WaitEvent [OtherInsert item_B] 0 :: [])
               empty_world
    = Returned 0 (Some (Queue 10 [item_A] 1 0 QUEUE_FULL_RING NULL NULL)) w'
    /\ trace w'
       = [EvCondSignal; EvFree 2000; EvFree 200; EvCondSignal;
          EvPrintf "queue depth reach max depth %d\n" [1]].
Proof.
  apply (ring_eviction_releases_arriving_item
           (Queue 10 [] 0 0 QUEUE_FULL_RING NULL NULL) item_A item_B 0 []
           empty_world); try reflexivity.
  apply holds_Queue. constructor.
Defined.

(** ** Within the bound *)

Lemma queue_push_below (q : queue) (l : list item) (it : item)
    (ws : list wait_event) (w : world) :
  holds q l ->
  depth q < max_depth q ->
  max_depth q <= INT_MAX ->
  linked it l = false ->
  queue_push (Some q) (Some it) ws w
  = Returned 0 (Some (set_depth (depth q + 1) (set_list (l ++ [it]) q)))
             (emit EvCondSignal w).
Proof.
  intros Hq Hroom Hmax Hfresh. apply queue_push_room; try assumption.
  now apply linked_false.
Qed.

Lemma release_events_silent (fh : ptr) (it : item) :
  Forall (fun e => is_printf e = false) (release_events fh it).
Proof.
  unfold release_events. destruct (negb (fh =? NULL)); repeat constructor.
Qed.

Lemma release_all_silent (fh : ptr) (l : list item) :
  Forall (fun e => is_printf e = false) (flat_map (release_events fh) l).
Proof.
  induction l as [|x l IH]; simpl; [constructor|].
  apply Forall_app. split; [apply release_events_silent|exact IH].
Qed.

Lemma depth_warning_none (q : queue) :
  depth q <= max_depth q -> depth_warning q = [].
Proof.
  intros Hle. unfold depth_warning.
  rewrite Z.gtb_ltb. now rewrite (proj2 (Z.ltb_ge _ _)) by lia.
Qed.

(** X9: a push within the bound.  On a queue whose counter is right and
    not above a maximal depth of at least 1, a push of a node that is not
    linked yet never waits and never fails, in either mode: it returns 0
    with the node at the tail, the counter right and still not above the
    maximal depth, the configuration unchanged, and nothing printed (the
    depth warning does not appear). *)
Theorem push_within_bound (q : queue) (l : list item) (it : item)
    (ws : list wait_event) (w : world) :
  sound q l ->
  depth q <= max_depth q ->
  1 <= max_depth q <= INT_MAX ->
  linked it l = false ->
  exists q' w' l' evs,
    queue_push (Some q) (Some it) ws w = Returned 0 (Some q') w'
    /\ sound q' (l' ++ [it])
    /\ depth q' <= max_depth q'
    /\ config q' = config q
    /\ trace w' = trace w ++ evs
    /\ Forall (fun e => is_printf e = false) evs.
Proof.
  intros [Hq Hok] Hle [Hone Hmax] Hfresh.
  pose proof Hfresh as Hnew. apply linked_false in Hnew.
  destruct (Z_lt_le_dec (depth q) (max_depth q)) as [Hroom|Hfull].
  - rewrite (queue_push_below q l) by assumption.
    eexists _, _, l, [EvCondSignal]. split; [reflexivity|].
    split; [|split; [simpl; lia|split; [reflexivity|split;
      [reflexivity|repeat constructor]]]].
    apply sound_set; [now apply (holds_snoc q)|].
    rewrite length_app, Hok. simpl. lia.
  - destruct (mode q) eqn:Hmode.
    + destruct (push_full_flush q l it ws w Hq ltac:(lia) Hmode)
        as (w' & -> & Htr & _).
      rewrite depth_warning_none in Htr by (simpl; lia).
      eexists _, w', [], _. split; [reflexivity|].
      split; [apply sound_set; [apply NoDup_singleton|reflexivity]|].
      split; [simpl; lia|]. split; [reflexivity|].
      split; [exact Htr|].
      apply Forall_app. split; [|repeat constructor].
      apply release_all_silent.
    + destruct l as [|old rest]; [simpl in Hok; lia|].
      unfold linked in Hfresh. simpl in Hfresh.
      apply orb_false_elim in Hfresh as [_ Hfresh].
      destruct (push_full_ring q it old rest ws w Hq ltac:(lia) Hmode)
        as (w' & -> & Htr); [unfold INT_MIN; lia|exact Hfresh|].
      rewrite depth_warning_none in Htr by lia.
      eexists _, w', rest, _. split; [reflexivity|].
      split.
      { split.
        - apply holds_set_list, (holds_snoc (set_list rest q)).
          + apply holds_set_list. destruct Hq as (_ & _ & Hnd).
            simpl in Hnd. now apply NoDup_cons in Hnd as [_ Hnd].
          + now apply linked_false.
        - simpl in *. rewrite length_app. simpl. lia. }
      split; [simpl; lia|]. split; [reflexivity|].
      split; [exact Htr|].
      apply Forall_app. split; [apply release_events_silent|].
      repeat constructor.
Qed.

Lemma push_within_bound_witness :
  exists q' w' l evs,
    queue_push (Some (Queue 10 [item_A; item_B] 2 2 QUEUE_FULL_RING
                            NULL NULL)) (Some item_C) [] empty_world
    = Returned 0 (Some q') w'
    /\ sound q' (l ++ [item_C])
    /\ depth q' <= max_depth q'
    /\ config q'
       = config (Queue 10 [item_A; item_B] 2 2 QUEUE_FULL_RING NULL NULL)
    /\ trace w' = trace empty_world ++ evs
    /\ Forall (fun e => is_printf e = false) evs.
Proof.
  apply (push_within_bound
           (Queue 10 [item_A; item_B] 2 2 QUEUE_FULL_RING NULL NULL)
           [item_A; item_B] item_C [] empty_world).
  - split; [|reflexivity]. apply holds_Queue.
    apply (bool_decide_unpack _). vm_compute. exact I.
  - vm_compute. discriminate.
  - vm_compute. split; discriminate.
  - reflexivity.
Defined.

(** ** The ring as a sliding window *)

Lemma lastn_short {A : Type} (n : nat) (l : list A) :
  (length l <= n)%nat -> lastn n l = l.
Proof.
  intros Hle. unfold lastn.
  now replace (length l - n)%nat with 0%nat by lia.
Qed.

Lemma lastn_cons {A : Type} (n : nat) (x : A) (l : list A) :
  (n <= length l)%nat -> lastn n (x :: l) = lastn n l.
Proof.
  intros Hle. unfold lastn. simpl length.
  now replace (S (length l) - n)%nat with (S (length l - n)) by lia.
Qed.

Lemma length_lastn {A : Type} (n : nat) (l : list A) :
  length (lastn n l) = Nat.min n (length l).
Proof. unfold lastn. rewrite length_drop. lia. Qed.

Lemma ring_push_step (q : queue) (l : list item) (it : item)
    (items : list item) (ws : list wait_event) (w : world) :
  mode q = QUEUE_FULL_RING ->
  sound q l ->
  depth q <= max_depth q ->
  1 <= max_depth q <= INT_MAX ->
  NoDup (map item_addr (l ++ it :: items)) ->
  exists q' w' l',
    queue_push (Some q) (Some it) ws w = Returned 0 (Some q') w'
    /\ config q' = config q
    /\ sound q' l'
    /\ depth q' <= max_depth q'
    /\ NoDup (map item_addr (l' ++ items))
    /\ lastn (Z.to_nat (max_depth q)) (l' ++ items)
       = lastn (Z.to_nat (max_depth q)) (l ++ it :: items).
Proof.
  intros Hmode [Hq Hok] Hle [Hone Hmax] Hnd.
  assert (item_addr it ∉ map item_addr l) as Hfresh.
  { rewrite map_app in Hnd. apply NoDup_app in Hnd as (_ & Hdis & _).
    intros Hin. apply (Hdis _ Hin). simpl. left. }
  assert (NoDup (map item_addr ((l ++ [it]) ++ items))) as Hnd'
    by (rewrite <- app_assoc; exact Hnd).
  destruct (Z_lt_le_dec (depth q) (max_depth q)) as [Hroom|Hfull].
  - rewrite (queue_push_room q l) by assumption.
    eexists _, _, (l ++ [it]). split; [reflexivity|].
    split; [reflexivity|]. split.
    { apply sound_set; [now apply (holds_snoc q)|].
      rewrite length_app, Hok. simpl. lia. }
    split; [simpl; lia|]. split; [exact Hnd'|].
    now rewrite <- app_assoc.
  - destruct l as [|old rest]; [simpl in Hok; lia|].
    simpl in Hok, Hnd, Hnd'. apply NoDup_cons in Hnd as [_ Hnd].
    apply NoDup_cons in Hnd' as [_ Hnd'].
    destruct (push_full_ring q it old rest ws w Hq ltac:(lia) Hmode)
      as (w' & -> & _); [unfold INT_MIN; lia| |].
    { apply linked_false. intros Hin. apply Hfresh. simpl. now right. }
    eexists _, w', (rest ++ [it]). split; [reflexivity|].
    split; [reflexivity|]. split.
    { split.
      - apply holds_set_list. rewrite map_app in Hnd'.
        now apply NoDup_app in Hnd' as (Hnd' & _).
      - simpl. rewrite length_app. simpl. lia. }
    split; [simpl; lia|]. split; [exact Hnd'|].
    rewrite <- app_assoc. simpl.
    symmetry. apply lastn_cons. rewrite length_app. simpl. lia.
Qed.

Lemma ring_pushes (items : list (item * list wait_event)) :
  forall q l w,
    mode q = QUEUE_FULL_RING ->
    sound q l ->
    depth q <= max_depth q ->
    1 <= max_depth q <= INT_MAX ->
    NoDup (map item_addr (l ++ map fst items)) ->
    exists q' w',
      run (map push_op items) (Some q) w
      = Returned (repeat (RInt 0) (length items)) (Some q') w'
      /\ config q' = config q
      /\ sound q' (lastn (Z.to_nat (max_depth q)) (l ++ map fst items)).
Proof.
  induction items as [|[it ws] items IH];
    intros q l w Hmode Hs Hle Hmax Hnd.
  - exists q, w. simpl. rewrite app_nil_r. split; [reflexivity|].
    split; [reflexivity|]. rewrite lastn_short; [exact Hs|].
    destruct Hs as [_ Hd]. lia.
  - cbn [map push_op run exec fst snd].
    destruct (ring_push_step q l it (map fst items) ws w Hmode Hs Hle Hmax
                Hnd)
      as (q1 & w1 & l1 & -> & Hcfg & Hs1 & Hle1 & Hnd1 & Hlast).
    cbn [outcome_map].
    assert (mode q1 = mode q /\ max_depth q1 = max_depth q) as [Hm1 Hd1]
      by (unfold config in Hcfg; now injection Hcfg).
    destruct (IH q1 l1 w1) as (q' & w' & -> & Hcfg' & Hs');
      [congruence|assumption|assumption|now rewrite Hd1|assumption|].
    exists q', w'. split; [reflexivity|].
    split; [congruence|]. now rewrite <- Hlast, <- Hd1.
Qed.

(** X10: a ring queue is a sliding window.  Pushing distinct nodes into a
    ring-mode queue whose counter is right and not above a maximal depth of
    at least 1 always succeeds, and afterwards the queue holds exactly the
    newest [max_depth] of the items it held and received, in push order;
    the depth counts them and never exceeds the maximal depth. *)
Theorem ring_keeps_newest (q : queue) (l : list item) (w : world)
    (items : list (item * list wait_event)) :
  mode q = QUEUE_FULL_RING ->
  sound q l ->
  depth q <= max_depth q ->
  1 <= max_depth q <= INT_MAX ->
  NoDup (map item_addr (l ++ map fst items)) ->
  exists q' w',
    run (map push_op items) (Some q) w
    = Returned (repeat (RInt 0) (length items)) (Some q') w'
    /\ holds q' (lastn (Z.to_nat (max_depth q)) (l ++ map fst items))
    /\ depth q'
       = Z.min (max_depth q)
               (Z.of_nat (length l + length items))
    /\ config q' = config q.
Proof.
  intros Hmode Hs Hle Hmax Hnd.
  destruct (ring_pushes items q l w Hmode Hs Hle Hmax Hnd)
    as (q' & w' & Hrun & Hcfg & [Hq' Hd']).
  exists q', w'. split; [exact Hrun|]. split; [exact Hq'|].
  split; [|exact Hcfg].
  rewrite Hd', length_lastn, length_app, length_map. lia.
Qed.

Lemma ring_keeps_newest_witness :
  exists q' w',
    run (map push_op [(item_B, []); (item_C, [])])
        (Some (Queue 10 [item_A] 1 2 QUEUE_FULL_RING NULL NULL)) empty_world
    = Returned (repeat (RInt 0) 2) (Some q') w'
    /\ holds q' (lastn 2 [item_A; item_B; item_C])
    /\ depth q' = 2
    /\ config q' = config (Queue 10 [item_A] 1 2 QUEUE_FULL_RING NULL NULL).
Proof.
  apply (ring_keeps_newest
           (Queue 10 [item_A] 1 2 QUEUE_FULL_RING NULL NULL) [item_A]
           empty_world [(item_B, []); (item_C, [])]).
  - reflexivity.
  - split; [|reflexivity]. apply holds_Queue, NoDup_singleton.
  - vm_compute. discriminate.
  - vm_compute. split; discriminate.
  - apply (bool_decide_unpack _). vm_compute. exact I.
Defined.

(** ** Buffers *)

(** X11: what a flush and a destruction free.  After [queue_flush], and
    after [queue_destroy], of a queue that holds the items [l], no address
    that [item_free] hands to [free] for a held item is allocated any more:
    the node of every item and, on a queue without a free hook, its data
    buffer; [queue_destroy] frees the queue as well.  Every other buffer is
    as before. *)
Theorem flush_frees_held_items_only (q : queue) (l : list item) (w : world)
    (p : Z) :
  holds q l ->
  exists q1 w1 w2,
    queue_flush (Some q) w = Returned 0 (Some q1) w1
    /\ queue_destroy (Some q) w = Returned tt None w2
    /\ (p ∈ flat_map (freed_by (free_hook q)) l ->
        bufs w1 !! p = None /\ bufs w2 !! p = None)
    /\ (p ∉ flat_map (freed_by (free_hook q)) l ->
        bufs w1 !! p = bufs w !! p
        /\ (p <> queue_addr q -> bufs w2 !! p = bufs w !! p))
    /\ bufs w2 !! queue_addr q = None.
Proof.
  intros Hq.
  destruct (queue_flush_spec q l w Hq) as (w1 & Hfl & _ & Hbufs).
  destruct (queue_destroy_spec q l w Hq) as (w2 & Hde & _ & Hbufs2).
  destruct (Hbufs p) as [Hin Hout].
  destruct (Hbufs2 p) as (Hin2 & Hout2 & Hself).
  eexists _, w1, w2. split; [exact Hfl|]. split; [exact Hde|].
  split; [auto|]. split; [auto|exact Hself].
Qed.

Lemma flush_frees_held_items_only_witness :
  exists q1 w1 w2,
    queue_flush
      (Some (Queue 10 [item_A] 1 QUEUE_MAX_DEPTH QUEUE_FULL_FLUSH NULL NULL))
      (World {[ 1000 := [Byte.x61]; 50 := [Byte.x62] ]} [])
    = Returned 0 (Some q1) w1
    /\ queue_destroy
         (Some (Queue 10 [item_A] 1 QUEUE_MAX_DEPTH QUEUE_FULL_FLUSH
                      NULL NULL))
         (World {[ 1000 := [Byte.x61]; 50 := [Byte.x62] ]} [])
       = Returned tt None w2
    /\ bufs w1 !! 1000 = None
    /\ bufs w2 !! 1000 = None
    /\ bufs w2 !! 10 = None.
Proof.
  destruct (flush_frees_held_items_only
              (Queue 10 [item_A] 1 QUEUE_MAX_DEPTH QUEUE_FULL_FLUSH
                     NULL NULL)
              [item_A]
              (World {[ 1000 := [Byte.x61]; 50 := [Byte.x62] ]} []) 1000)
    as (q1 & w1 & w2 & Hfl & Hde & Hgone & _ & Hself).
  - apply holds_Queue, NoDup_singleton.
  - destruct Hgone as [H1 H2]; [vm_compute; left|].
    exists q1, w1, w2. repeat split; assumption.
Defined.

(** X12: creating an item and releasing it is a round trip on the
    buffers.  When the queue has both hooks or neither at both moments, the
    node is allocated, and neither the node nor the payload address was in
    use, [item_free] of the item that [item_alloc] returned leaves the
    buffers exactly as they were before the creation: the copy made without
    hooks is freed again (also when the duplication failed and the buffer
    is NULL), and with hooks no buffer is made or freed. *)
Theorem alloc_then_free_restores_buffers (q q' : queue) (src : ptr)
    (len : Z) (node payload : ptr) (w : world) :
  (alloc_hook q = NULL <-> free_hook q' = NULL) ->
  node <> NULL ->
  bufs w !! node = None ->
  bufs w !! payload = None ->
  exists it w1,
    item_alloc (Some q) src len node payload w = (Some it, w1)
    /\ bufs (item_free (Some q') (Some it) w1) = bufs w
    /\ trace (item_free (Some q') (Some it) w1)
       = trace w1 ++ release_events (free_hook q') it.
Proof.
  intros Hpair Hnode Hnode_free Hpayload_free.
  destruct (Z.eq_dec (alloc_hook q) NULL) as [Hq|Hq].
  - assert (free_hook q' = NULL) as Hq' by now apply Hpair.
    rewrite item_alloc_plain by assumption.
    eexists _, _. split; [reflexivity|].
    split; [|apply item_free_trace].
    unfold item_free, memdup. rewrite Hq'. simpl.
    destruct (payload =? NULL) eqn:Hp; simpl.
    + apply Z.eqb_eq in Hp. subst payload.
      rewrite (delete_id _ NULL) by assumption. now apply delete_id.
    + rewrite delete_insert_eq, (delete_id _ payload) by assumption.
      now apply delete_id.
  - assert (free_hook q' <> NULL) as Hq' by (intros H; now apply Hpair in H).
    rewrite item_alloc_hooked by assumption.
    eexists _, _. split; [reflexivity|].
    split; [|apply item_free_trace].
    unfold item_free. rewrite (proj2 (Z.eqb_neq _ _) Hq'). simpl.
    now apply delete_id.
Qed.

Lemma alloc_then_free_restores_buffers_witness :
  exists it w1,
    item_alloc (Some fresh_queue) 50 4 100 1000 caller_world = (Some it, w1)
    /\ bufs (item_free (Some fresh_queue) (Some it) w1) = bufs caller_world
    /\ trace (item_free (Some fresh_queue) (Some it) w1)
       = trace w1 ++ release_events (free_hook fresh_queue) it.
Proof.
  apply (alloc_then_free_restores_buffers fresh_queue fresh_queue 50 4 100
           1000 caller_world).
  - split; reflexivity.
  - vm_compute. discriminate.
  - reflexivity.
  - reflexivity.
Defined.

(** ** The default capacity *)

(** X13: the default capacity.  A queue as [queue_create] returns it takes
    200 distinct items without releasing any: it holds them in push order
    with depth 200, and the calls made are the allocation of the queue and
    one signal per push.  The next push flushes: it releases all 200, oldest
    first, by [free] on the data buffer and the node, and leaves the pushed
    item alone in the queue. *)
Theorem created_queue_holds_200 (qmem : ptr) (w : world)
    (items : list (item * list wait_event)) (it : item)
    (ws : list wait_event) :
  qmem <> NULL ->
  length items = 200%nat ->
  NoDup (map item_addr (map fst items)) ->
  exists q0 q200 w200 w',
    fst (queue_create qmem w) = Some q0
    /\ run (map push_op items) (Some q0) (snd (queue_create qmem w))
       = Returned (repeat (RInt 0) 200) (Some q200) w200
    /\ holds q200 (map fst items)
    /\ depth q200 = 200
    /\ trace w200 = trace w ++ EvCalloc qmem :: repeat EvCondSignal 200
    /\ queue_push (Some q200) (Some it) ws w200
       = Returned 0 (Some (set_depth 1 (set_list [it] q200))) w'
    /\ trace w'
       = trace w200
         ++ flat_map (fun x => [EvFree (iov_base (data x));
                                EvFree (item_addr x)]) (map fst items)
         ++ [EvCondSignal; EvCondSignal].
Proof.
  intros Hqmem Hlen Hnd. unfold queue_create.
  rewrite (proj2 (Z.eqb_neq _ _) Hqmem). simpl fst. simpl snd.
  set (q0 := MkQueue qmem INIT_LIST_HEAD ∅ 0 QUEUE_MAX_DEPTH
                     QUEUE_FULL_FLUSH NULL NULL).
  destruct (run_pushes items q0 [] (emit (EvCalloc qmem) w))
    as (q200 & Hrun & Hhead & Hdepth & Hcfg).
  - repeat split. constructor.
  - exact Hnd.
  - rewrite Hlen. vm_compute. discriminate.
  - vm_compute. discriminate.
  - unfold config in Hcfg. injection Hcfg as Hmode Hmax _ Hfree.
    simpl in Hhead, Hdepth, Hmode, Hmax, Hfree. rewrite Hlen in *.
    change (0 + Z.of_nat 200) with 200 in Hdepth.
    unfold QUEUE_MAX_DEPTH in Hmax.
    destruct (push_full_flush q200 (map fst items) it ws
                (Nat.iter 200 (emit EvCondSignal) (emit (EvCalloc qmem) w))
                Hhead)
      as (w' & Hpush & Htr & _); [rewrite Hdepth, Hmax; lia|exact Hmode|].
    exists q0, q200,
      (Nat.iter 200 (emit EvCondSignal) (emit (EvCalloc qmem) w)), w'.
    split; [reflexivity|]. split; [exact Hrun|].
    split; [exact Hhead|]. split; [exact Hdepth|].
    split; [|split; [exact Hpush|]].
    + rewrite trace_iter_signal, trace_emit, <- app_assoc. reflexivity.
    + rewrite Htr, Hfree.
      rewrite depth_warning_none by (simpl; rewrite Hmax; lia).
      rewrite app_nil_r. reflexivity.
Qed.

Lemma created_queue_holds_200_witness :
  exists q0 q200 w200 w',
    fst (queue_create 10 empty_world) = Some q0
    /\ run (map push_op (many_items 200)) (Some q0)
           (snd (queue_create 10 empty_world))
       = Returned (repeat (RInt 0) 200) (Some q200) w200
    /\ holds q200 (map fst (many_items 200))
    /\ depth q200 = 200
    /\ trace w200
       = trace empty_world ++ EvCalloc 10 :: repeat EvCondSignal 200
    /\ queue_push (Some q200) (Some item_A) [] w200
       = Returned 0 (Some (set_depth 1 (set_list [item_A] q200))) w'
    /\ trace w'
       = trace w200
         ++ flat_map (fun x => [EvFree (iov_base (data x));
                                EvFree (item_addr x)])
                     (map fst (many_items 200))
         ++ [EvCondSignal; EvCondSignal].
Proof.
  apply (created_queue_holds_200 10 empty_world (many_items 200) item_A []).
  - vm_compute. discriminate.
  - reflexivity.
  - apply (bool_decide_unpack _). vm_compute. exact I.
Defined.

(** ** A thread alone at work *)

Lemma filter_release_events (fh : ptr) (it : item) :
  List.filter is_release (release_events fh it) = release_events fh it.
Proof. unfold release_events. now destruct (negb (fh =? NULL)). Qed.

Lemma filter_release_all (fh : ptr) (l : list item) :
  List.filter is_release (flat_map (release_events fh) l)
  = flat_map (release_events fh) l.
Proof.
  induction l as [|it l IH]; [reflexivity|].
  simpl. now rewrite List.filter_app, filter_release_events, IH.
Qed.

Lemma report_wait_trace (ret : Z) (w : world) :
  exists evs,
    trace (report_wait ret w) = trace w ++ evs
    /\ List.filter is_release evs = [].
Proof.
  unfold report_wait. destruct (ret =? ETIMEDOUT).
  - exists []. now rewrite app_nil_r.
  - destruct (ret =? EINTR); eexists; split; reflexivity.
Qed.

Lemma wait_nonempty_alone (ws : list wait_event) :
  forall q w,
    alone ws ->
    exists w1 evs,
      (wait_nonempty ws q w = Returned tt (Some q) w1
       \/ wait_nonempty ws q w = Blocked q w1)
      /\ trace w1 = trace w ++ evs
      /\ List.filter is_release evs = [].
Proof.
  induction ws as [|ev ws IH]; intros q w Halone; simpl.
  - exists w, []. rewrite app_nil_r.
    destruct (list_empty q); auto.
  - destruct (list_empty q).
    2:{ exists w, []. rewrite app_nil_r. auto. }
    apply Forall_cons in Halone as [Hev Halone]. rewrite Hev. simpl.
    destruct (wait_ret ev =? 0).
    { exists w, []. rewrite app_nil_r. auto. }
    destruct (report_wait_trace (wait_ret ev) w) as (evs0 & Htr0 & Hf0).
    destruct (IH q (report_wait (wait_ret ev) w) Halone)
      as (w1 & evs & Hrun & Htr & Hf).
    exists w1, (evs0 ++ evs). split; [exact Hrun|].
    split; [now rewrite Htr, Htr0, <- app_assoc|].
    now rewrite List.filter_app, Hf0, Hf.
Qed.

Lemma pop_locked_holds_inv (q q' : queue) (l : list item)
    (r : option item) :
  holds q l ->
  pop_locked q = Some (r, q') ->
  (l = [] /\ r = None /\ q' = q)
  \/ (exists it l',
         l = it :: l' /\ r = Some it
         /\ q' = set_depth (depth q - 1) (set_list l' q)
         /\ INT_MIN < depth q).
Proof.
  intros Hq Hpop.
  apply pop_locked_inv in Hpop
    as [(He & -> & ->)|(it & q1 & He & Hn & Hdel & -> & -> & Hlt)].
  - left. split; [|auto]. now apply (holds_empty q).
  - right. rewrite (list_empty_holds q l Hq) in He.
    destruct l as [|x l']; [discriminate|].
    assert (x = it) as ->.
    { destruct Hq as (Hh & _ & _). rewrite Hh in Hn. simpl in Hn.
      congruence. }
    rewrite (list_del_first_holds q it l' Hq) in Hdel.
    injection Hdel as <-. now exists it, l'.
Qed.

Lemma push_locked_holds_inv (it : item) (q q' : queue) (l : list item)
    (w w' : world) :
  holds q l ->
  recorded it q = false ->
  push_locked it q w = Some (q', w') ->
  q' = set_depth (depth q + 1) (set_list (l ++ [it]) q)
  /\ w' = emit EvCondSignal w
  /\ holds q' (l ++ [it]).
Proof.
  intros Hq Hrec Hpush.
  rewrite (recorded_holds q l it Hq) in Hrec. apply linked_false in Hrec.
  destruct (push_locked_inv it q q' w w' Hpush) as (q1 & _ & _ & _ & Hlt).
  rewrite (push_locked_spec it q l w Hq Hrec Hlt) in Hpush.
  injection Hpush as <- <-. split; [reflexivity|]. split; [reflexivity|].
  now apply holds_set_list, (holds_snoc q).
Qed.

(** A pop of a thread that is alone at work: from a queue that holds items
    it returns the oldest; on an empty queue it is woken with nothing to
    return, or stays asleep, and the queue is as it was. *)
Lemma queue_pop_alone (q : queue) (l : list item) (ws : list wait_event)
    (w : world) :
  holds q l ->
  alone ws ->
  match l with
  | [] =>
      exists w1 evs,
        (queue_pop (Some q) ws w = Returned None (Some q) w1
         \/ queue_pop (Some q) ws w = Blocked q w1)
        /\ trace w1 = trace w ++ evs
        /\ List.filter is_release evs = []
  | it :: l' =>
      INT_MIN < depth q ->
      queue_pop (Some q) ws w
      = Returned (Some it) (Some (set_depth (depth q - 1) (set_list l' q))) w
  end.
Proof.
  intros Hq Halone. destruct l as [|it l'].
  - unfold queue_pop.
    destruct (wait_nonempty_alone ws q w Halone)
      as (w1 & evs & [-> | ->] & Htr & Hf); exists w1, evs.
    + rewrite pop_locked_nil by exact (list_empty_holds q [] Hq). auto.
    + auto.
  - intros Hlt. now apply queue_pop_cons.
Qed.

Lemma queue_pop_free_alone (q : queue) (l : list item)
    (ws : list wait_event) (w : world) :
  holds q l ->
  alone ws ->
  match l with
  | [] =>
      exists w1 evs,
        (queue_pop_free (Some q) ws w = Returned tt (Some q) w1
         \/ queue_pop_free (Some q) ws w = Blocked q w1)
        /\ trace w1 = trace w ++ evs
        /\ List.filter is_release evs = []
  | it :: l' =>
      INT_MIN < depth q ->
      queue_pop_free (Some q) ws w
      = Returned tt (Some (set_depth (depth q - 1) (set_list l' q)))
          (item_free (Some (set_depth (depth q - 1) (set_list l' q)))
                     (Some it) w)
  end.
Proof.
  intros Hq Halone. pose proof (queue_pop_alone q l ws w Hq Halone) as Hpop.
  unfold queue_pop_free. destruct l as [|it l'].
  - destruct Hpop as (w1 & evs & [-> | ->] & Htr & Hf); exists w1, evs; auto.
  - intros Hlt. now rewrite (Hpop Hlt).
Qed.

(** ** The bound under call sequences *)

Lemma bounded_config (q : queue) :
  bounded q ->
  (forall m, bounded (set_mode m q))
  /\ (forall a f, bounded (set_hooks a f q)).
Proof.
  intros ([l Hs] & Hle & Hone). destruct (sound_config q l Hs) as (Hm & Hh & _).
  split; intros; (split; [eauto|]); split; assumption.
Qed.

Lemma queue_push_bounded (q : queue) (it : item) (ws : list wait_event)
    (w : world) :
  bounded q ->
  max_depth q <= INT_MAX ->
  recorded it q = false ->
  ends_bounded (max_depth q) (queue_push (Some q) (Some it) ws w).
Proof.
  intros ([l [Hq Hd]] & Hle & Hone) Hmax Hrec.
  rewrite (recorded_holds q l it Hq) in Hrec.
  destruct (Z_lt_le_dec (depth q) (max_depth q)) as [Hroom|Hfull].
  - rewrite (queue_push_below q l it ws w Hq Hroom Hmax Hrec). simpl.
    split; [|reflexivity]. split; [|simpl; lia].
    exists (l ++ [it]). apply sound_set.
    + apply (holds_snoc q l it Hq). now apply linked_false.
    + rewrite length_app, Hd. simpl. lia.
  - destruct (mode q) eqn:Hmode.
    + destruct (push_full_flush q l it ws w Hq ltac:(lia) Hmode)
        as (w' & -> & _).
      simpl. split; [|reflexivity]. split; [|simpl; lia].
      exists [it]. apply sound_set; [apply NoDup_singleton|reflexivity].
    + destruct l as [|old rest]; [simpl in Hd; lia|].
      unfold linked in Hrec. simpl in Hrec.
      apply orb_false_elim in Hrec as [_ Hrec].
      destruct (push_full_ring q it old rest ws w Hq ltac:(lia) Hmode)
        as (w' & -> & _); [unfold INT_MIN; lia|exact Hrec|].
      simpl. split; [|reflexivity]. split; [|simpl; lia].
      exists (rest ++ [it]). split.
      * apply holds_set_list, (holds_snoc (set_list rest q)).
        -- apply holds_set_list. destruct Hq as (_ & _ & Hnd).
           simpl in Hnd. now apply NoDup_cons in Hnd as [_ Hnd].
        -- now apply linked_false.
      * simpl in *. rewrite length_app. simpl. lia.
Qed.

Lemma queue_pop_bounded (q : queue) (ws : list wait_event) (w : world) :
  bounded q ->
  alone ws ->
  ends_bounded (max_depth q) (queue_pop (Some q) ws w)
  /\ ends_bounded (max_depth q) (queue_pop_free (Some q) ws w).
Proof.
  intros Hb Halone. pose proof Hb as ([l Hs] & Hle & Hone).
  pose proof Hs as [Hq Hd].
  pose proof (queue_pop_alone q l ws w Hq Halone) as Hpop.
  pose proof (queue_pop_free_alone q l ws w Hq Halone) as Hpf.
  destruct l as [|it l'].
  - destruct Hpop as (w1 & evs & [-> | ->] & _);
      destruct Hpf as (w2 & evs2 & [-> | ->] & _); simpl; auto.
  - destruct (pop_locked_sound q _ Hs) as [_ Hs'].
    rewrite Hpop, Hpf by (rewrite Hd; unfold INT_MIN; lia).
    simpl. split; (split; [|reflexivity]); (split; [eauto|]);
      simpl; split; lia.
Qed.

Lemma exec_bounded (o : op) (q : queue) (w : world) :
  steady o ->
  bounded q ->
  max_depth q <= INT_MAX ->
  unlinked_call o q w ->
  ends_bounded (max_depth q) (exec o (Some q) w).
Proof.
  intros Hsteady Hb Hmax Hg.
  destruct (bounded_config q Hb) as [Hm Hh].
  destruct o as [m|a f|d|[it|] ws|ws|ws| |]; cbn [exec]; simpl in Hsteady;
    try contradiction.
  - simpl. auto.
  - simpl. auto.
  - pose proof (queue_push_bounded q it ws w Hb Hmax (proj1 Hg)) as Hp.
    now destruct (queue_push (Some q) (Some it) ws w) as [r [q1|] w1|q1 w1|].
  - simpl. auto.
  - destruct (queue_pop_bounded q ws w Hb Hsteady) as [Hp _].
    now destruct (queue_pop (Some q) ws w) as [r [q1|] w1|q1 w1|].
  - destruct (queue_pop_bounded q ws w Hb Hsteady) as [_ Hp].
    now destruct (queue_pop_free (Some q) ws w) as [r [q1|] w1|q1 w1|].
  - destruct Hb as ([l Hs] & Hle & Hone). unfold queue_flush.
    destruct (flush_locked_sound q l w Hs) as (w' & -> & Hs').
    simpl. split; [|reflexivity]. split; [eauto|]. simpl. split; lia.
  - simpl. auto.
Qed.

(** X15: the bound holds under call sequences of a thread that is alone at
    work.  Starting from a queue whose counter is right and not above a
    maximal depth of at least 1 and within the range of [int], every
    sequence of pushes, pops, pop-and-releases, flushes, depth queries and
    changes of the mode or the hooks, in which the maximal depth is not set
    again and no push is handed a node that is linked in the queue, has a
    defined outcome: whether the last call returned or is still asleep, the
    queue holds a sequence of distinct nodes, the counter equals their
    number and is at most [max_depth], which is as it was. *)
Theorem depth_stays_within_bound (ops : list op) (q : queue) (w : world) :
  Forall steady ops ->
  bounded q ->
  max_depth q <= INT_MAX ->
  unlinked_pushes ops (Some q) w ->
  exists q' l',
    final_queue (run ops (Some q) w) = Some q'
    /\ holds q' l'
    /\ depth q' = Z.of_nat (length l')
    /\ depth q' <= max_depth q'
    /\ max_depth q' = max_depth q.
Proof.
  revert q w. induction ops as [|o ops IH]; intros q w Hsteady Hb Hmax Hg.
  - destruct Hb as ([l [Hq Hd]] & Hle & _). exists q, l. simpl. auto.
  - apply Forall_cons in Hsteady as [Ho Hsteady]. destruct Hg as [Hgo Hg].
    cbn [run].
    pose proof (exec_bounded o q w Ho Hb Hmax Hgo) as Hex.
    destruct (exec o (Some q) w) as [r [q1|] w1|q1 w1|]; simpl in Hex;
      try contradiction.
    + destruct Hex as [Hb1 Hm1].
      destruct (IH q1 w1 Hsteady Hb1 ltac:(lia) Hg)
        as (q' & l' & Hfin & Hq' & Hd' & Hle' & Hm').
      exists q', l'. split; [|split; [exact Hq'|split; [exact Hd'|]]].
      * now destruct (run ops (Some q1) w1) as [rs q2 w2|q2 w2|].
      * split; [exact Hle'|lia].
    + destruct Hex as [([l1 [Hq1 Hd1]] & Hle1 & _) Hm1].
      exists q1, l1. simpl. auto.
Qed.

Lemma depth_stays_within_bound_witness :
  exists q' l',
    final_queue
      (run [OpPush (Some item_A) []; OpSetMode QUEUE_FULL_RING;
            OpPush (Some item_B) []; OpPush (Some item_C) []; OpGetDepth;
            OpPopFree []; OpPop []; OpPop [timeout_wait]]
           (Some (Queue 10 [] 0 2 QUEUE_FULL_FLUSH NULL NULL)) empty_world)
    = Some q'
    /\ holds q' l'
    /\ depth q' = Z.of_nat (length l')
    /\ depth q' <= max_depth q'
    /\ max_depth q' = 2.
Proof.
  apply (depth_stays_within_bound
           [OpPush (Some item_A) []; OpSetMode QUEUE_FULL_RING;
            OpPush (Some item_B) []; OpPush (Some item_C) []; OpGetDepth;
            OpPopFree []; OpPop []; OpPop [timeout_wait]]
           (Queue 10 [] 0 2 QUEUE_FULL_FLUSH NULL NULL) empty_world).
  - repeat constructor.
  - split; [|vm_compute; split; discriminate].
    exists []. split; [|reflexivity]. apply holds_Queue. constructor.
  - vm_compute. discriminate.
  - vm_compute. repeat split.
Defined.

(** ** Conservation of items *)

Lemma accounts_same (l : list item) (fh : ptr) (w w1 : world)
    (evs : list event) :
  trace w1 = trace w ++ evs ->
  List.filter is_release evs = [] ->
  accounts l fh w [] [] l w1.
Proof.
  intros Htr Hf. exists [], evs. rewrite app_nil_r. simpl. auto.
Qed.

Lemma queue_pop_accounts (q : queue) (l : list item) (ws : list wait_event)
    (w : world) (r : option item) (q1 : queue) (w1 : world) :
  holds q l ->
  alone ws ->
  queue_pop (Some q) ws w = Returned r (Some q1) w1 ->
  exists l1 evs,
    holds q1 l1
    /\ l = option_list r ++ l1
    /\ free_hook q1 = free_hook q
    /\ trace w1 = trace w ++ evs
    /\ List.filter is_release evs = [].
Proof.
  intros Hq Halone. unfold queue_pop.
  destruct (wait_nonempty_alone ws q w Halone)
    as (w0 & evs & [-> | ->] & Htr & Hf); [|discriminate].
  destruct (pop_locked q) as [[r0 q0]|] eqn:Hpop; [|discriminate].
  intros [= -> -> ->].
  apply (pop_locked_holds_inv q q1 l r Hq) in Hpop
    as [(-> & -> & ->)|(it & l' & -> & -> & -> & _)].
  - exists [], evs. auto.
  - exists l', evs. split; [|auto].
    apply holds_set_list. destruct Hq as (_ & _ & Hnd). simpl in Hnd.
    now apply NoDup_cons in Hnd as [_ Hnd].
Qed.

Lemma queue_pop_free_accounts (q : queue) (l : list item)
    (ws : list wait_event) (w : world) (q1 : queue) (w1 : world) :
  holds q l ->
  alone ws ->
  queue_pop_free (Some q) ws w = Returned tt (Some q1) w1 ->
  exists l1,
    holds q1 l1
    /\ accounts l (free_hook q) w [] [] l1 w1
    /\ free_hook q1 = free_hook q.
Proof.
  intros Hq Halone. unfold queue_pop_free.
  destruct (queue_pop (Some q) ws w) as [r [q0|] w0| |] eqn:Hpop;
    try discriminate.
  2:{ destruct r; discriminate. }
  destruct (queue_pop_accounts q l ws w r q0 w0 Hq Halone Hpop)
    as (l1 & evs & Hq1 & Hl & Hfh & Htr & Hf).
  destruct r as [it|]; intros [= -> <-]; exists l1;
    (split; [exact Hq1|]); (split; [|exact Hfh]).
  - exists [it], (evs ++ release_events (free_hook q) it).
    split; [now rewrite app_nil_r|].
    split; [now left|]. split.
    + pose proof (item_free_trace q1 it w0) as Hrel.
      unfold item_free in Hrel.
      now rewrite Hrel, Htr, Hfh, <- app_assoc.
    + rewrite List.filter_app, Hf, filter_release_events. simpl.
      now rewrite app_nil_r.
  - exists [], evs. rewrite app_nil_r. simpl in *. auto.
Qed.

Lemma queue_flush_accounts (q : queue) (l : list item) (w : world) :
  holds q l ->
  exists q1 w1,
    queue_flush (Some q) w = Returned 0 (Some q1) w1
    /\ holds q1 []
    /\ accounts l (free_hook q) w [] [] [] w1
    /\ free_hook q1 = free_hook q.
Proof.
  intros Hq.
  destruct (queue_flush_spec q l w Hq) as (w1 & Hfl & Htr & _).
  eexists _, w1. split; [exact Hfl|].
  split; [apply holds_set_list; constructor|]. split; [|reflexivity].
  exists l, (flat_map (release_events (free_hook q)) l ++ [EvCondSignal]).
  simpl. rewrite !app_nil_r. split; [reflexivity|].
  split; [now left|]. split; [exact Htr|].
  now rewrite List.filter_app, filter_release_all, app_nil_r.
Qed.

Lemma insert_accounts (it : item) (l l0 : list item) (fh : ptr)
    (q0 q1 : queue) (w w0 w1 : world) (r : Z) :
  holds q0 l0 ->
  accounts l fh w [] [] l0 w0 ->
  free_hook q0 = fh ->
  recorded it q0 = false ->
  match push_locked it q0 w0 with
  | Some (q2, w2) =>
      Returned 0 (Some q2)
        (if depth q2 >? max_depth q2
         then emit (EvPrintf "queue depth reach max depth %d\n" [depth q2])
                   w2
         else w2)
  | None => Undefined
  end = Returned r (Some q1) w1 ->
  exists l1,
    holds q1 l1
    /\ accounts l fh w [it] [] l1 w1
    /\ free_hook q1 = fh.
Proof.
  intros Hq0 Hacc Hfh Hrec.
  destruct (push_locked it q0 w0) as [[q2 w2]|] eqn:Hpush; [|discriminate].
  destruct (push_locked_holds_inv it q0 q2 l0 w0 w2 Hq0 Hrec Hpush)
    as (-> & -> & Hq2).
  intros [= _ <- <-]. exists (l0 ++ [it]). split; [exact Hq2|].
  split; [|exact Hfh].
  destruct Hacc as (rel & evs & Hl & Hone & Htr & Hf).
  rewrite app_nil_r in Hl. simpl in Hl.
  exists rel,
    (evs ++ EvCondSignal
         :: depth_warning
              (set_depth (depth q0 + 1) (set_list (l0 ++ [it]) q0))).
  simpl. split; [now rewrite Hl, app_assoc|].
  split; [now left|]. split.
  - unfold depth_warning. simpl.
    destruct (depth q0 + 1 >? max_depth q0); simpl;
      rewrite Htr, <- ?app_assoc; reflexivity.
  - rewrite List.filter_app, Hf.
    unfold depth_warning. simpl.
    destruct (depth q0 + 1 >? max_depth q0); simpl;
      now rewrite app_nil_r.
Qed.

Lemma queue_push_accounts (q : queue) (l : list item) (it : item)
    (ws : list wait_event) (w : world) (r : Z) (q1 : queue) (w1 : world) :
  holds q l ->
  alone ws ->
  unlinked_call (OpPush (Some it) ws) q w ->
  queue_push (Some q) (Some it) ws w = Returned r (Some q1) w1 ->
  exists l1,
    holds q1 l1
    /\ accounts l (free_hook q) w [it] [] l1 w1
    /\ free_hook q1 = free_hook q.
Proof.
  intros Hq Halone [Hrec Hg]. unfold queue_push.
  destruct (depth q >=? max_depth q).
  - destruct (mode q).
    + destruct (queue_flush_accounts q l w Hq)
        as (q0 & w0 & -> & Hq0 & Hacc & Hfh).
      apply (insert_accounts it l [] (free_hook q) q0 q1 w w0 w1 r Hq0 Hacc
               Hfh).
      now rewrite (recorded_holds q0 [] it Hq0).
    + destruct Hg as [_ Hins].
      destruct (queue_pop_free (Some q) ws w) as [[] [q0|] w0| |] eqn:Hpf;
        try discriminate.
      destruct (queue_pop_free_accounts q l ws w q0 w0 Hq Halone Hpf)
        as (l0 & Hq0 & Hacc & Hfh).
      now apply (insert_accounts it l l0 (free_hook q) q0 q1 w w0 w1 r).
  - apply (insert_accounts it l l (free_hook q) q q1 w w w1 r Hq);
      [|reflexivity|exact Hrec].
    apply accounts_same with []; [now rewrite app_nil_r|reflexivity].
Qed.

Lemma exec_accounts (o : op) (q : queue) (l : list item) (w : world)
    (r : result) (q1 : queue) (w1 : world) :
  solo o ->
  holds q l ->
  unlinked_call o q w ->
  exec o (Some q) w = Returned r (Some q1) w1 ->
  exists l1,
    holds q1 l1
    /\ accounts l (free_hook q) w (pushed [o]) (delivered [r]) l1 w1
    /\ free_hook q1 = free_hook q.
Proof.
  intros Hsolo Hq Hg.
  assert (forall q2 evs,
             holds q2 l -> free_hook q2 = free_hook q ->
             trace w1 = trace w ++ evs ->
             List.filter is_release evs = [] ->
             exists l1,
               holds q2 l1 /\ accounts l (free_hook q) w [] [] l1 w1
               /\ free_hook q2 = free_hook q) as Hsame.
  { intros q2 evs Hq2 Hfh Htr Hf. exists l. split; [exact Hq2|].
    split; [now apply accounts_same with evs|exact Hfh]. }
  destruct o as [m|a f|d|it ws|ws|ws| |]; cbn [exec]; simpl in Hsolo;
    try contradiction.
  - intros [= <- <- <-].
    apply (Hsame _ []); auto. now rewrite app_nil_r.
  - intros [= <- <- <-].
    apply (Hsame _ []); auto. now rewrite app_nil_r.
  - destruct it as [it|].
    + destruct (queue_push (Some q) (Some it) ws w) as [r0 [q0|] w0| |]
        eqn:Hpush; cbn [outcome_map]; try discriminate.
      intros [= <- <- <-].
      now apply queue_push_accounts with ws r0.
    + simpl. intros [= <- <- <-].
      apply (Hsame _ [EvPrintf "invalid paraments!\n" []]); auto.
  - destruct (queue_pop (Some q) ws w) as [r0 [q0|] w0| |] eqn:Hpop;
      cbn [outcome_map]; try discriminate.
    intros [= <- <- <-].
    destruct (queue_pop_accounts q l ws w r0 q0 w0 Hq Hsolo Hpop)
      as (l1 & evs & Hq1 & Hl & Hfh & Htr & Hf).
    exists l1. split; [exact Hq1|]. split; [|exact Hfh].
    exists [], evs. simpl. rewrite app_nil_r.
    split; [now destruct r0|]. auto.
  - destruct (queue_pop_free (Some q) ws w) as [[] [q0|] w0| |] eqn:Hpf;
      cbn [outcome_map]; try discriminate.
    intros [= <- <- <-].
    now apply queue_pop_free_accounts with ws.
  - destruct (queue_flush_accounts q l w Hq)
      as (q0 & w0 & -> & Hq0 & Hacc & Hfh).
    intros [= <- <- <-]. now exists [].
  - simpl. intros [= <- <- <-].
    apply (Hsame _ []); auto. now rewrite app_nil_r.
Qed.

Lemma interleaved_app_left {A : Type} (x a b c : list A) :
  interleaved a b c -> interleaved (x ++ a) b (x ++ c).
Proof.
  intros H. induction x as [|y x IH]; [exact H|].
  simpl. now constructor.
Qed.

Lemma interleaved_app_right {A : Type} (x a b c : list A) :
  interleaved a b c -> interleaved a (x ++ b) (x ++ c).
Proof.
  intros H. induction x as [|y x IH]; [exact H|].
  simpl. now constructor.
Qed.

(** X16: items are conserved, in order.  In a call sequence of a thread
    that is alone at work, does not replace the hooks and hands no push a
    node that is linked in the queue, on a queue that holds the distinct
    nodes [l0], every item held at the start or handed to a push leaves the
    queue at most once and in arrival order: when the calls have returned,
    the items that left, in the order of leaving, followed by the items
    still held are exactly the items held at the start followed by the
    pushed ones.  Each item that left was either returned by a pop or
    released, and the release calls in the trace are exactly those of the
    released items, in order.  No item is lost, returned twice, or released
    while it is still held or after it was returned. *)
Theorem items_are_conserved (ops : list op) (q : queue) (l0 : list item)
    (w : world) (rs : list result) (q' : queue) (w' : world) :
  Forall solo ops ->
  holds q l0 ->
  unlinked_pushes ops (Some q) w ->
  run ops (Some q) w = Returned rs (Some q') w' ->
  exists l' gone released evs,
    holds q' l'
    /\ l0 ++ pushed ops = gone ++ l'
    /\ interleaved (delivered rs) released gone
    /\ trace w' = trace w ++ evs
    /\ List.filter is_release evs
       = flat_map (release_events (free_hook q)) released.
Proof.
  revert q l0 w rs. induction ops as [|o ops IH];
    intros q l0 w rs Hsolo Hq Hg.
  - simpl. intros [= <- <- <-]. exists l0, [], [], [].
    rewrite !app_nil_r. split; [exact Hq|]. repeat split. constructor.
  - apply Forall_cons in Hsolo as [Ho Hsolo]. destruct Hg as [Hgo Hg].
    cbn [run].
    destruct (exec o (Some q) w) as [r [q1|] w1| |] eqn:Hex;
      try discriminate.
    2:{ pose proof (run_null ops w1) as Hnull.
        destruct (run ops None w1); simpl in Hnull; subst; discriminate. }
    destruct (run ops (Some q1) w1) as [rs1 q2 w2| |] eqn:Hrun;
      try discriminate.
    intros [= <- -> ->].
    destruct (exec_accounts o q l0 w r q1 w1 Ho Hq Hgo Hex)
      as (l1 & Hq1 & (rel & evs1 & Hl & _ & Htr1 & Hf1) & Hfh).
    destruct (IH q1 l1 w1 rs1 Hsolo Hq1 Hg Hrun)
      as (l' & gone & released & evs & Hq' & Hl1 & Hint & Htr & Hf).
    exists l', (delivered [r] ++ rel ++ gone), (rel ++ released),
      (evs1 ++ evs).
    assert (pushed (o :: ops) = pushed [o] ++ pushed ops) as ->
      by (destruct o as [| | |[it|] ws| | | |]; reflexivity).
    assert (delivered (r :: rs1) = delivered [r] ++ delivered rs1) as ->
      by (destruct r as [|[it|]|]; reflexivity).
    split; [exact Hq'|]. split; [|split; [|split]].
    + rewrite app_assoc, Hl, <- !app_assoc. now rewrite Hl1.
    + now apply interleaved_app_left, interleaved_app_right.
    + now rewrite Htr, Htr1, <- app_assoc.
    + rewrite List.filter_app, Hf1, Hf, Hfh. symmetry. apply flat_map_app.
Qed.

Lemma items_are_conserved_witness :
  exists l' gone released evs,
    holds (Queue 10 [] 0 2 QUEUE_FULL_RING NULL NULL) l'
    /\ [] ++ pushed [OpPush (Some item_A) []; OpPush (Some item_B) [];
                     OpPop []; OpPush (Some item_C) []; OpFlush]
       = gone ++ l'
    /\ interleaved (delivered [RInt 0; RInt 0; RItem (Some item_A); RInt 0;
                               RInt 0])
                   released gone
    /\ trace (World ∅ [EvCondSignal; EvCondSignal; EvCondSignal;
                       EvFree 2000; EvFree 200; EvFree 3000; EvFree 300;
                       EvCondSignal])
       = trace empty_world ++ evs
    /\ List.filter is_release evs
       = flat_map (release_events NULL) released.
Proof.
  apply (items_are_conserved
           [OpPush (Some item_A) []; OpPush (Some item_B) []; OpPop [];
            OpPush (Some item_C) []; OpFlush]
           (Queue 10 [] 0 2 QUEUE_FULL_RING NULL NULL) [] empty_world
           [RInt 0; RInt 0; RItem (Some item_A); RInt 0; RInt 0]
           (Queue 10 [] 0 2 QUEUE_FULL_RING NULL NULL)
           (World ∅ [EvCondSignal; EvCondSignal; EvCondSignal;
                     EvFree 2000; EvFree 200; EvFree 3000; EvFree 300;
                     EvCondSignal])).
  - repeat constructor.
  - apply holds_Queue. constructor.
  - vm_compute. repeat split.
  - vm_compute. reflexivity.
Defined.

(** ** A node that is linked twice *)

(** X17: [queue_push] does not test whether the node is linked.  Pushing
    the node A twice into an empty queue with room for two returns 0 both
    times and counts 2, while the links name one node: the anchor points to
    A at both ends and A points to itself, which is the list of no sequence
    of items.  A pop then returns A and counts 1, but leaves the anchor
    pointing to A, whose links are now invalid; the next pop, and likewise
    a flush of the queue, goes through those links and has no defined
    behaviour. *)
Theorem double_push_corrupts_list (q : queue) (A : item)
    (ws1 ws2 ws3 ws4 : list wait_event) (w w' : world) :
  holds q [] ->
  depth q = 0 ->
  1 < max_depth q <= INT_MAX ->
  let twice :=
    set_depth 2
      (set_links (ListHead (LEntry A) (LEntry A))
                 {[ item_addr A := ListHead (LEntry A) (LEntry A) ]} q) in
  let popped :=
    set_depth 1 (set_links (ListHead (LEntry A) (LEntry A)) ∅ q) in
  run [OpPush (Some A) ws1; OpPush (Some A) ws2] (Some q) w
  = Returned [RInt 0; RInt 0] (Some twice)
             (emit EvCondSignal (emit EvCondSignal w))
  /\ (forall l, ~ holds twice l)
  /\ queue_pop (Some twice) ws3 w' = Returned (Some A) (Some popped) w'
  /\ queue_pop (Some popped) ws4 w' = Undefined
  /\ queue_flush (Some popped) w' = Undefined
  /\ queue_flush (Some twice) w' = Undefined.
Proof.
  intros Hq Hd [Hroom Hmax] twice popped.
  split; [|split; [|split; [|split; [|split]]]].
  - cbn [run exec].
    rewrite (queue_push_room q []);
      [|exact Hq|lia|lia|apply not_elem_of_nil].
    cbn [outcome_map app]. rewrite Hd. change (0 + 1) with 1.
    unfold queue_push. cbn [depth max_depth set_depth set_list set_links].
    rewrite Z.geb_leb, (proj2 (Z.leb_gt _ _)) by lia.
    unfold push_locked, list_add_tail, set_prev, set_next, get, put,
      int_incr.
    repeat links_step.
    rewrite !insert_insert_eq. change (1 + 1) with 2.
    rewrite Z.gtb_ltb, (proj2 (Z.ltb_ge _ _)) by lia.
    reflexivity.
  - intros l (Hh & He & _). simpl in Hh, He.
    destruct l as [|x l]; [discriminate|].
    injection Hh as Hx _. subst x.
    assert (({[ item_addr A := ListHead (LEntry A) (LEntry A) ]}
               : gmap Z list_head) !! item_addr A
            = links_from LHead (A :: l) !! item_addr A) as Hlook
      by now rewrite He.
    simpl in Hlook. rewrite lookup_singleton_eq, lookup_insert_eq in Hlook.
    discriminate.
  - unfold queue_pop.
    rewrite wait_nonempty_cons by reflexivity.
    subst twice popped. rewrite <- insert_empty.
    unfold pop_locked, list_first_entry_or_null, list_del, set_prev,
      set_next, get, put, int_decr.
    repeat links_step.
    rewrite !insert_insert_eq, delete_insert_eq, delete_empty.
    reflexivity.
  - unfold queue_pop.
    rewrite wait_nonempty_cons by reflexivity.
    reflexivity.
  - reflexivity.
  - subst twice. unfold queue_flush, flush_locked.
    cbn [head entries set_depth set_links next get].
    rewrite map_size_singleton, <- insert_empty.
    repeat links_step.
    unfold list_del, set_prev, set_next, get, put.
    repeat links_step.
    rewrite !insert_insert_eq, delete_insert_eq, delete_empty.
    repeat links_step. unfold load. rewrite lookup_empty.
    reflexivity.
Qed.

Lemma double_push_corrupts_list_witness :
  let twice :=
    set_depth 2
      (set_links (ListHead (LEntry item_A) (LEntry item_A))
                 {[ item_addr item_A
                    := ListHead (LEntry item_A) (LEntry item_A) ]}
                 fresh_queue) in
  let popped :=
    set_depth 1 (set_links (ListHead (LEntry item_A) (LEntry item_A)) ∅
                           fresh_queue) in
  run [OpPush (Some item_A) []; OpPush (Some item_A) []] (Some fresh_queue)
      empty_world
  = Returned [RInt 0; RInt 0] (Some twice)
             (emit EvCondSignal (emit EvCondSignal empty_world))
  /\ (forall l, ~ holds twice l)
  /\ queue_pop (Some twice) [] empty_world
     = Returned (Some item_A) (Some popped) empty_world
  /\ queue_pop (Some popped) [] empty_world = Undefined
  /\ queue_flush (Some popped) empty_world = Undefined
  /\ queue_flush (Some twice) empty_world = Undefined.
Proof.
  apply (double_push_corrupts_list fresh_queue item_A [] [] [] []
           empty_world empty_world).
  - apply holds_Queue. constructor.
  - reflexivity.
  - vm_compute. split; [reflexivity|discriminate].
Defined.
